(** * what-am-i-drawing: the game server (server.js) as a state machine

    A shallow embedding of [server.js]: the [GameRoom] class, the helper
    functions and the socket handlers, written over an explicit store.

    Modelling conventions.
    - JavaScript objects that are shared and mutated ([GameRoom] instances,
      player records) live in a store keyed by their identity.  Room
      identities come from [uuidv4()] and player identities from
      [generatePlayerId()]; both are taken as inputs of the handler that
      draws them, and the step relation supplies fresh ones.
    - A [Map] is its list of keys in insertion order (the values are the
      stored objects of these keys).
    - Strings are sequences of UTF-16 code units restricted to the Latin-1
      range (one [ascii] per code unit), on which [toLowerCase] and [trim]
      are given exactly.
    - Numbers are integers, with [NaN] where the code can produce it.
    - [Math.random()] is an oracle: the caller supplies a natural number
      and the index drawn is that number modulo the length.
    - [Date.now()] values ([createdAt], [startTime], timestamps) carry no
      behaviour and are left out.
    - Exceptions are results: a method either returns or throws, and in both
      cases the mutations done so far remain. *)

From Stdlib Require Import ZArith List String Ascii Bool Lia.
From stdpp Require Import base gmap strings list.
Import ListNotations.

Local Open Scope string_scope.
Local Open Scope Z_scope.

(** ** JavaScript values *)

Inductive jsnum := Num (z : Z) | NaN.

Definition jsnum_add (a : jsnum) (k : Z) : jsnum :=
  match a with Num z => Num (z + k) | NaN => NaN end.

(** [a >= k] on numbers; every comparison with [NaN] is false. *)
Definition jsnum_geb (a : jsnum) (k : Z) : bool :=
  match a with Num z => k <=? z | NaN => false end.

(** [a % n] for an integer [n]; [n = 0] gives [NaN], and the sign of the
    result is the sign of the dividend ([Z.rem]). *)
Definition jsnum_rem (a : jsnum) (n : Z) : jsnum :=
  match a with
  | Num z => if n =? 0 then NaN else Num (Z.rem z n)
  | NaN => NaN
  end.

(** [arr[i]]: [undefined] unless [i] is an index of the array. *)
Definition js_index {A} (arr : list A) (i : jsnum) : option A :=
  match i with
  | Num z => if z <? 0 then None else nth_error arr (Z.to_nat z)
  | NaN => None
  end.

(** ** Strings: [toLowerCase] and [trim] on Latin-1 code units *)

Definition lower_char (c : ascii) : ascii :=
  let n := nat_of_ascii c in
  if ((65 <=? n) && (n <=? 90))%nat then ascii_of_nat (n + 32)
  else if ((192 <=? n) && (n <=? 222) && negb (n =? 215))%nat
       then ascii_of_nat (n + 32)
  else c.

Fixpoint toLowerCase (s : string) : string :=
  match s with
  | EmptyString => EmptyString
  | String c s' => String (lower_char c) (toLowerCase s')
  end.

(** White space and line terminators: TAB, LF, VT, FF, CR, SP, NBSP. *)
Definition isWhiteSpace (c : ascii) : bool :=
  let n := nat_of_ascii c in
  ((9 <=? n) && (n <=? 13) || (n =? 32) || (n =? 160))%nat.

Fixpoint trimStart (s : string) : string :=
  match s with
  | EmptyString => EmptyString
  | String c s' => if isWhiteSpace c then trimStart s' else s
  end.

Fixpoint trimEnd (s : string) : string :=
  match s with
  | EmptyString => EmptyString
  | String c s' =>
      match trimEnd s' with
      | EmptyString => if isWhiteSpace c then EmptyString else String c EmptyString
      | t => String c t
      end
  end.

Definition trim (s : string) : string := trimEnd (trimStart s).

(** ** Data model *)

Inductive Status := waiting | playing | finished.

Global Instance Status_eq_dec : EqDecision Status.
Proof. solve_decision. Defined.

Global Instance jsnum_eq_dec : EqDecision jsnum.
Proof. solve_decision. Defined.

(** A player record [{id, name, socket, room}]; the id is its store key. *)
Record Player := mkPlayer {
  player_name : string;
  socket : nat;
  player_room : option string
}.

(** [gameState]; [None] in an option field is [null] or [undefined]. *)
Record GameState := mkGameState {
  currentRound : Z;
  currentPlayerIndex : jsnum;
  currentWord : option string;
  timer : Z;
  scores : list (string * jsnum);
  drawingPlayerId : option string;
  usedWords : list (option string);
  canvasData : option string
}.

Record GameRoom := mkGameRoom {
  room_name : string;
  language : string;
  room_players : list string;
  host : string;
  hostPlayer : option string;
  gameState : option GameState;
  _status : Status;
  previousStatus : option Status;
  maxPlayers : nat;
  timerInterval : option nat
}.

Record Statistics := mkStatistics {
  total : Z;
  n_waiting : Z;
  n_playing : Z;
  n_finished : Z
}.

Inductive SystemText :=
| left_the_game (name : string)
| is_now_the_host (name : string)
| won_the_game (name : string) (score : jsnum)
| not_enough_players.

Inductive ChatKind := kind_player | kind_system.

Record PublicRoom := mkPublicRoom {
  pr_id : string;
  pr_name : string;
  pr_playerCount : nat;
  pr_maxPlayers : nat;
  pr_status : Status;
  pr_language : string;
  pr_host : option string
}.

(** Outbound events with the fields of their payloads. *)
Inductive Payload :=
| player_joined (player : string) (players : list string) (hostId : string)
| player_left (playerId : string) (players : list string) (hostId : string)
| chat_message (sender : option string) (text : SystemText + string) (kind : ChatKind)
| game_started (gs : GameState)
| game_reset (players : list string)
| new_round (drawer : option string) (word : option string) (gs : GameState)
| timer_update (t : Z)
| round_ended (word : option string)
| correct_guess (guesser drawer : string) (guesserPoints drawerPoints : Z)
    (table : list (string * jsnum))
| game_ended (winner : string) (winnerScore : jsnum)
| game_ended_early (remainingPlayer : option string)
| canvas_updated (data : option string)
| room_list_updated (available : list PublicRoom) (statistics : Statistics)
| room_created (roomId : string) (player : string)
| room_joined (roomId : string) (player : string) (players : list string) (hostId : string)
| chat_history (messages : list (string * string))
| left_room
| error (message : string).

Inductive Audience := to_socket (s : nat) | to_all.

Record Emit := mkEmit { audience : Audience; payload : Payload }.

(** [wordLists]: the two word lists loaded at start-up from
    [wordlists/english.json] and [wordlists/swedish.json]. *)
Record WordLists := mkWordLists {
  english : list string;
  swedish : list string
}.

(** The process: the module-level constants and [Map]s, the object store,
    the timers that are armed, the closure variable [currentPlayer] of each
    connection, and the events emitted so far (oldest first). *)
Record World := mkWorld {
  wordLists : WordLists;
  rooms : list string;
  roomObjs : gmap string GameRoom;
  players : gset string;
  playerObjs : gmap string Player;
  roomStatistics : Statistics;
  roomChatHistory : gmap string (list (string * string));
  intervals : list (nat * string);
  nextHandle : nat;
  timeouts : list string;
  currentPlayer : gmap nat string;
  log : list Emit
}.

(** Field updates. *)
Definition set_rooms (v : list string) (w : World) : World :=
  mkWorld (wordLists w) v (roomObjs w) (players w) (playerObjs w)
    (roomStatistics w) (roomChatHistory w) (intervals w) (nextHandle w)
    (timeouts w) (currentPlayer w) (log w).
Definition set_roomObjs (v : gmap string GameRoom) (w : World) : World :=
  mkWorld (wordLists w) (rooms w) v (players w) (playerObjs w)
    (roomStatistics w) (roomChatHistory w) (intervals w) (nextHandle w)
    (timeouts w) (currentPlayer w) (log w).
Definition set_players (v : gset string) (w : World) : World :=
  mkWorld (wordLists w) (rooms w) (roomObjs w) v (playerObjs w)
    (roomStatistics w) (roomChatHistory w) (intervals w) (nextHandle w)
    (timeouts w) (currentPlayer w) (log w).
Definition set_playerObjs (v : gmap string Player) (w : World) : World :=
  mkWorld (wordLists w) (rooms w) (roomObjs w) (players w) v
    (roomStatistics w) (roomChatHistory w) (intervals w) (nextHandle w)
    (timeouts w) (currentPlayer w) (log w).
Definition set_roomStatistics (v : Statistics) (w : World) : World :=
  mkWorld (wordLists w) (rooms w) (roomObjs w) (players w) (playerObjs w) v
    (roomChatHistory w) (intervals w) (nextHandle w) (timeouts w)
    (currentPlayer w) (log w).
Definition set_roomChatHistory (v : gmap string (list (string * string))) (w : World) : World :=
  mkWorld (wordLists w) (rooms w) (roomObjs w) (players w) (playerObjs w)
    (roomStatistics w) v (intervals w) (nextHandle w) (timeouts w)
    (currentPlayer w) (log w).
Definition set_intervals (v : list (nat * string)) (w : World) : World :=
  mkWorld (wordLists w) (rooms w) (roomObjs w) (players w) (playerObjs w)
    (roomStatistics w) (roomChatHistory w) v (nextHandle w) (timeouts w)
    (currentPlayer w) (log w).
Definition set_nextHandle (v : nat) (w : World) : World :=
  mkWorld (wordLists w) (rooms w) (roomObjs w) (players w) (playerObjs w)
    (roomStatistics w) (roomChatHistory w) (intervals w) v (timeouts w)
    (currentPlayer w) (log w).
Definition set_timeouts (v : list string) (w : World) : World :=
  mkWorld (wordLists w) (rooms w) (roomObjs w) (players w) (playerObjs w)
    (roomStatistics w) (roomChatHistory w) (intervals w) (nextHandle w) v
    (currentPlayer w) (log w).
Definition set_currentPlayer (v : gmap nat string) (w : World) : World :=
  mkWorld (wordLists w) (rooms w) (roomObjs w) (players w) (playerObjs w)
    (roomStatistics w) (roomChatHistory w) (intervals w) (nextHandle w)
    (timeouts w) v (log w).
Definition set_log (v : list Emit) (w : World) : World :=
  mkWorld (wordLists w) (rooms w) (roomObjs w) (players w) (playerObjs w)
    (roomStatistics w) (roomChatHistory w) (intervals w) (nextHandle w)
    (timeouts w) (currentPlayer w) v.

Definition with_room_players (v : list string) (r : GameRoom) : GameRoom :=
  mkGameRoom (room_name r) (language r) v (host r) (hostPlayer r) (gameState r)
    (_status r) (previousStatus r) (maxPlayers r) (timerInterval r).
Definition with_host (v : string) (hp : option string) (r : GameRoom) : GameRoom :=
  mkGameRoom (room_name r) (language r) (room_players r) v hp (gameState r)
    (_status r) (previousStatus r) (maxPlayers r) (timerInterval r).
Definition with_hostPlayer (hp : option string) (r : GameRoom) : GameRoom :=
  mkGameRoom (room_name r) (language r) (room_players r) (host r) hp (gameState r)
    (_status r) (previousStatus r) (maxPlayers r) (timerInterval r).
Definition with_gameState (v : option GameState) (r : GameRoom) : GameRoom :=
  mkGameRoom (room_name r) (language r) (room_players r) (host r) (hostPlayer r) v
    (_status r) (previousStatus r) (maxPlayers r) (timerInterval r).
Definition with_status (prev : option Status) (v : Status) (r : GameRoom) : GameRoom :=
  mkGameRoom (room_name r) (language r) (room_players r) (host r) (hostPlayer r)
    (gameState r) v prev (maxPlayers r) (timerInterval r).
Definition with_timerInterval (v : option nat) (r : GameRoom) : GameRoom :=
  mkGameRoom (room_name r) (language r) (room_players r) (host r) (hostPlayer r)
    (gameState r) (_status r) (previousStatus r) (maxPlayers r) v.

Definition with_currentPlayerIndex (v : jsnum) (g : GameState) : GameState :=
  mkGameState (currentRound g) v (currentWord g) (timer g) (scores g)
    (drawingPlayerId g) (usedWords g) (canvasData g).
Definition with_currentWord (v : option string) (g : GameState) : GameState :=
  mkGameState (currentRound g) (currentPlayerIndex g) v (timer g) (scores g)
    (drawingPlayerId g) (usedWords g) (canvasData g).
Definition with_drawingPlayerId (v : option string) (g : GameState) : GameState :=
  mkGameState (currentRound g) (currentPlayerIndex g) (currentWord g) (timer g)
    (scores g) v (usedWords g) (canvasData g).
Definition with_usedWords (v : list (option string)) (g : GameState) : GameState :=
  mkGameState (currentRound g) (currentPlayerIndex g) (currentWord g) (timer g)
    (scores g) (drawingPlayerId g) v (canvasData g).
Definition with_timer (v : Z) (g : GameState) : GameState :=
  mkGameState (currentRound g) (currentPlayerIndex g) (currentWord g) v (scores g)
    (drawingPlayerId g) (usedWords g) (canvasData g).
Definition with_scores (v : list (string * jsnum)) (g : GameState) : GameState :=
  mkGameState (currentRound g) (currentPlayerIndex g) (currentWord g) (timer g) v
    (drawingPlayerId g) (usedWords g) (canvasData g).
Definition with_canvasData (v : option string) (g : GameState) : GameState :=
  mkGameState (currentRound g) (currentPlayerIndex g) (currentWord g) (timer g)
    (scores g) (drawingPlayerId g) (usedWords g) v.

(** ** Results and the monad of methods *)

(** [TypeError] and [Error] are the JavaScript exceptions.  [Stuck] is not
    one: it marks a run of the model that no run of the program has (a
    reference to an object that was never created, or the recursion bound
    of the room sweep used up). *)
Inductive Err :=
| TypeError (message : string)
| Error (message : string)
| Stuck.

Definition err_message (e : Err) : string :=
  match e with
  | TypeError m => m
  | Error m => m
  | Stuck => "stuck"
  end.

Inductive Res (A : Type) :=
| Ret (a : A) (w : World)
| Throw (e : Err) (w : World).
Arguments Ret {A} a w.
Arguments Throw {A} e w.

Definition M (A : Type) : Type := World -> Res A.

Definition ret {A} (a : A) : M A := fun w => Ret a w.
Definition throw {A} (e : Err) : M A := fun w => Throw e w.
Definition bind {A B} (m : M A) (k : A -> M B) : M B :=
  fun w => match m w with
           | Ret a w' => k a w'
           | Throw e w' => Throw e w'
           end.
Definition try_catch {A} (m : M A) (handler : Err -> M A) : M A :=
  fun w => match m w with
           | Ret a w' => Ret a w'
           | Throw e w' => handler e w'
           end.
Definition gets {A} (f : World -> A) : M A := fun w => Ret (f w) w.
Definition modify (f : World -> World) : M unit := fun w => Ret tt (f w).

Notation "x <- c ;; k" := (bind c (fun x => k))
  (at level 100, c at next level, right associativity).
Notation "c ;; k" := (bind c (fun _ => k))
  (at level 100, right associativity).

Definition when (b : bool) (m : M unit) : M unit := if b then m else ret tt.

Fixpoint forEach {A} (l : list A) (f : A -> M unit) : M unit :=
  match l with
  | [] => ret tt
  | x :: l' => f x ;; forEach l' f
  end.

(** The world a method leaves behind, whether it returned or threw. *)
Definition world_of {A} (r : Res A) : World :=
  match r with Ret _ w => w | Throw _ w => w end.

Definition returned {A} (r : Res A) : option A :=
  match r with Ret a _ => Some a | Throw _ _ => None end.

(** ** The server *)

(** [wordLists[lang]], [undefined] for a tag that is not a key. *)
Definition wordLists_get (lists : WordLists) (lang : string) : option (list string) :=
  if decide (lang = "en") then Some (english lists)
  else if decide (lang = "sv") then Some (swedish lists)
  else None.

(** *** Primitives: events, the object store, timers *)

Definition emit (a : Audience) (p : Payload) : M unit :=
  modify (fun w => set_log (log w ++ [mkEmit a p]) w).

Definition thisRoom (this : string) : M GameRoom :=
  fun w => match roomObjs w !! this with
           | Some r => Ret r w
           | None => Throw Stuck w
           end.

Definition updRoom (this : string) (f : GameRoom -> GameRoom) : M unit :=
  modify (fun w => set_roomObjs (alter f this (roomObjs w)) w).

(** Reading [this.gameState.x] throws when [gameState] is [null]. *)
Definition thisGameState (this : string) : M GameState :=
  r <- thisRoom this ;;
  match gameState r with
  | Some gs => ret gs
  | None => throw (TypeError "Cannot read properties of null")
  end.

Definition updGameState (this : string) (f : GameState -> GameState) : M unit :=
  _ <- thisGameState this ;;
  updRoom this (fun r => with_gameState (f <$> gameState r) r).

Definition playerName (w : World) (playerId : string) : string :=
  match playerObjs w !! playerId with
  | Some p => player_name p
  | None => ""
  end.

Definition setInterval (this : string) : M nat :=
  h <- gets nextHandle ;;
  modify (fun w => set_nextHandle (S h) (set_intervals (intervals w ++ [(h, this)]) w)) ;;
  ret h.

(** [clearInterval(x)]; nothing happens for [undefined], [null], or a
    handle that is no longer armed. *)
Definition clearInterval (x : option nat) : M unit :=
  match x with
  | Some h =>
      modify (fun w =>
        set_intervals (filter (fun e => negb (fst e =? h)%nat) (intervals w)) w)
  | None => ret tt
  end.

(** [setTimeout(() => { this.startNewRound(); }, 3000)]. *)
Definition setTimeout_startNewRound (this : string) : M unit :=
  modify (fun w => set_timeouts (timeouts w ++ [this]) w).

(** [Map.prototype.set] and [delete] on the list of keys. *)
Definition keys_set (k : string) (l : list string) : list string :=
  if bool_decide (k ∈ l) then l else l ++ [k].
Definition keys_delete (k : string) (l : list string) : list string :=
  filter (fun k' => negb (bool_decide (k' = k))) l.

(** [rooms.get(id)]: the room object registered under [id], if any. *)
Definition rooms_get (roomId : option string) (w : World) : option string :=
  match roomId with
  | Some rid =>
      if bool_decide (rid ∈ rooms w)
      then match roomObjs w !! rid with Some _ => Some rid | None => None end
      else None
  | None => None
  end.

(** *** class GameRoom *)

Definition broadcastToRoom (this : string) (p : Payload)
    (excludePlayerId : option string) : M unit :=
  r <- thisRoom this ;;
  objs <- gets playerObjs ;;
  forEach (room_players r) (fun playerId =>
    match objs !! playerId with
    | Some player =>
        when (negb (bool_decide (Some playerId = excludePlayerId)))
             (emit (to_socket (socket player)) p)
    | None => ret tt
    end).

Definition stat_of (s : Status) (st : Statistics) : Z :=
  match s with
  | waiting => n_waiting st
  | playing => n_playing st
  | finished => n_finished st
  end.

Definition stat_add (s : Status) (k : Z) (st : Statistics) : Statistics :=
  match s with
  | waiting => mkStatistics (total st) (n_waiting st + k) (n_playing st) (n_finished st)
  | playing => mkStatistics (total st) (n_waiting st) (n_playing st + k) (n_finished st)
  | finished => mkStatistics (total st) (n_waiting st) (n_playing st) (n_finished st + k)
  end.

Inductive StatAction := act_add | act_statusChange | act_remove.

Definition updateStatistics (this : string) (action : StatAction) : M unit :=
  r <- thisRoom this ;;
  modify (fun w =>
    let st := roomStatistics w in
    let st' :=
      match action with
      | act_add =>
          mkStatistics (total st + 1) (n_waiting st + 1) (n_playing st) (n_finished st)
      | act_statusChange =>
          let st1 :=
            match previousStatus r with
            | Some oldStatus =>
                if 0 <? stat_of oldStatus st then stat_add oldStatus (-1) st else st
            | None => st
            end in
          if 0 <=? stat_of (_status r) st1 then stat_add (_status r) 1 st1 else st1
      | act_remove =>
          let st1 :=
            mkStatistics (total st - 1) (n_waiting st) (n_playing st) (n_finished st) in
          if 0 <? stat_of (_status r) st1 then stat_add (_status r) (-1) st1 else st1
      end in
    set_roomStatistics st' w).

(** The setter [set status(newStatus)]. *)
Definition set_status (this : string) (newStatus : Status) : M unit :=
  r <- thisRoom this ;;
  if decide (_status r = newStatus) then ret tt
  else
    updRoom this (with_status (Some (_status r)) newStatus) ;;
    updateStatistics this act_statusChange.

Definition serialize (w : World) (roomId : string) (r : GameRoom) : PublicRoom :=
  mkPublicRoom roomId (room_name r) (length (room_players r)) (maxPlayers r)
    (_status r) (language r)
    (if bool_decide (host r ∈ room_players r)
     then Some (playerName w (host r)) else None).

(** The registered rooms with their objects, in registry order. *)
Definition registered (w : World) : list (string * GameRoom) :=
  omap (fun roomId => pair roomId <$> roomObjs w !! roomId) (rooms w).

Definition getRoomStatistics : M Statistics :=
  w <- gets id ;;
  let count (s : Status) : Z :=
    Z.of_nat (length (filter (fun e => bool_decide (_status (snd e) = s)) (registered w))) in
  let recalculatedStats :=
    mkStatistics (Z.of_nat (length (rooms w)))
      (count waiting) (count playing) (count finished) in
  modify (set_roomStatistics recalculatedStats) ;;
  ret recalculatedStats.

(** [cleanupRoom], with the [broadcastGlobalRoomListUpdate] it ends in
    passed as [bg]: the two call each other through [getAvailableRooms]. *)
Definition cleanupRoomWith (bg : M unit) (this : string) : M unit :=
  modify (fun w => set_roomChatHistory (delete this (roomChatHistory w)) w) ;;
  r <- thisRoom this ;;
  match timerInterval r with
  | Some h => clearInterval (Some h) ;; updRoom this (with_timerInterval None)
  | None => ret tt
  end ;;
  forEach (room_players r) (fun playerId =>
    modify (fun w =>
      set_playerObjs
        (alter (fun p => mkPlayer (player_name p) (socket p) None) playerId
               (playerObjs w)) w)) ;;
  updRoom this (with_room_players []) ;;
  updateStatistics this act_remove ;;
  modify (fun w => set_rooms (keys_delete this (rooms w)) w) ;;
  updRoom this (fun r => with_hostPlayer None (with_gameState None r)) ;;
  bg.

(** [getAvailableRooms]: [rooms.forEach] visits the entries in insertion
    order and skips one that was deleted before its turn. *)
Definition getAvailableRoomsWith (bg : M unit) : M (list PublicRoom) :=
  roomIds <- gets rooms ;;
  forEach roomIds (fun roomId =>
    w <- gets id ;;
    match rooms_get (Some roomId) w with
    | Some room =>
        r <- thisRoom room ;;
        when (length (room_players r) =? 0)%nat (cleanupRoomWith bg room)
    | None => ret tt
    end) ;;
  w <- gets id ;;
  ret (map (fun e => serialize w (fst e) (snd e))
         (filter (fun e => bool_decide (_status (snd e) = waiting)) (registered w))).

Fixpoint broadcastGlobalRoomListUpdate_rec (fuel : nat) : M unit :=
  match fuel with
  | O => throw Stuck
  | S n =>
      availableRooms <- getAvailableRoomsWith (broadcastGlobalRoomListUpdate_rec n) ;;
      statistics <- getRoomStatistics ;;
      emit to_all (room_list_updated availableRooms statistics)
  end.

(** Every nested call comes after a room was deregistered, so one more
    than the number of registered rooms bounds the nesting. *)
Definition broadcastGlobalRoomListUpdate : M unit :=
  fun w => broadcastGlobalRoomListUpdate_rec (S (length (rooms w))) w.

Definition cleanupRoom (this : string) : M unit :=
  cleanupRoomWith broadcastGlobalRoomListUpdate this.

Definition getAvailableRooms : M (list PublicRoom) :=
  getAvailableRoomsWith broadcastGlobalRoomListUpdate.

Definition addPlayer (this : string) (playerId : string) : M unit :=
  r <- thisRoom this ;;
  if (maxPlayers r <=? length (room_players r))%nat
  then throw (Error "Room is full")
  else
    updRoom this (fun r => with_room_players (keys_set playerId (room_players r)) r) ;;
    modify (fun w =>
      set_playerObjs
        (alter (fun p => mkPlayer (player_name p) (socket p) (Some this)) playerId
               (playerObjs w)) w) ;;
    r <- thisRoom this ;;
    broadcastToRoom this (player_joined playerId (room_players r) (host r)) None.

(** [new GameRoom(roomId, host, roomName, language)]. *)
Definition GameRoom_new (roomId hostId roomName lang : string) : M string :=
  modify (fun w =>
    set_roomObjs
      (<[roomId := mkGameRoom roomName lang [] hostId (Some hostId) None
                     waiting None 8%nat None]> (roomObjs w)) w) ;;
  modify (fun w => set_roomChatHistory (<[roomId := []]> (roomChatHistory w)) w) ;;
  addPlayer roomId hostId ;;
  updateStatistics roomId act_add ;;
  ret roomId.

Definition endGameDueToInsufficientPlayers (this : string) : M unit :=
  r <- thisRoom this ;;
  clearInterval (timerInterval r) ;;
  let remainingPlayer :=
    if (length (room_players r) =? 1)%nat then head (room_players r) else None in
  broadcastToRoom this (chat_message None (inl not_enough_players) kind_system) None ;;
  broadcastToRoom this (game_ended_early remainingPlayer) None ;;
  set_status this finished ;;
  updRoom this (with_gameState None) ;;
  broadcastGlobalRoomListUpdate.

Definition removePlayer (this : string) (playerId : string) : M unit :=
  r <- thisRoom this ;;
  if bool_decide (playerId ∈ room_players r) then
    updRoom this (fun r => with_room_players (keys_delete playerId (room_players r)) r) ;;
    w <- gets id ;;
    broadcastToRoom this
      (chat_message None (inl (left_the_game (playerName w playerId))) kind_system) None ;;
    r <- thisRoom this ;;
    match room_players r with
    | newHostId :: _ =>
        if bool_decide (host r = playerId) then
          updRoom this (with_host newHostId (Some newHostId)) ;;
          broadcastToRoom this
            (chat_message None (inl (is_now_the_host (playerName w newHostId))) kind_system)
            None
        else ret tt
    | [] => ret tt
    end ;;
    r <- thisRoom this ;;
    broadcastToRoom this (player_left playerId (room_players r) (host r)) None ;;
    if bool_decide (_status r = playing) && (length (room_players r) <=? 1)%nat
    then endGameDueToInsufficientPlayers this
    else if (length (room_players r) =? 0)%nat then cleanupRoom this
    else broadcastGlobalRoomListUpdate
  else ret tt.

Definition addChatMessage (this : string) (sender message : string) : M unit :=
  modify (fun w =>
    let history := (default [] (roomChatHistory w !! this) ++ [(sender, message)])%list in
    let history :=
      if (100 <? length history)%nat
      then drop (length history - 100) history else history in
    set_roomChatHistory (<[this := history]> (roomChatHistory w)) w).

Definition getChatHistory (this : string) : M (list (string * string)) :=
  gets (fun w => default [] (roomChatHistory w !! this)).

(** [getRandomWord]; [rnd] stands for the outcome of [Math.random()]. *)
Definition getRandomWord (this : string) (rnd : nat) : M (option string) :=
  r <- thisRoom this ;;
  gs <- thisGameState this ;;
  lists <- gets wordLists ;;
  let words := default (english lists) (wordLists_get lists (language r)) in
  let availableWords :=
    filter (fun word => negb (bool_decide (Some word ∈ usedWords gs))) words in
  (if (length availableWords =? 0)%nat
   then updGameState this (with_usedWords []) else ret tt) ;;
  let availableWords :=
    if (length availableWords =? 0)%nat then words else availableWords in
  let word := nth_error availableWords (rnd mod length availableWords)%nat in
  updGameState this (fun g => with_usedWords (usedWords g ++ [word])%list g) ;;
  ret word.

Definition startTimer (this : string) : M unit :=
  r <- thisRoom this ;;
  clearInterval (timerInterval r) ;;
  h <- setInterval this ;;
  updRoom this (with_timerInterval (Some h)).

Definition startNewRound (this : string) (rnd : nat) : M unit :=
  gs <- thisGameState this ;;
  r <- thisRoom this ;;
  let index :=
    jsnum_rem (jsnum_add (currentPlayerIndex gs) 1)
              (Z.of_nat (length (room_players r))) in
  updGameState this (with_currentPlayerIndex index) ;;
  let playerIds := room_players r in
  let drawingPlayerId := js_index playerIds index in
  updGameState this (with_drawingPlayerId drawingPlayerId) ;;
  word <- getRandomWord this rnd ;;
  updGameState this (with_currentWord word) ;;
  updGameState this (with_canvasData None) ;;
  updGameState this (with_timer 60) ;;
  gs <- thisGameState this ;;
  broadcastToRoom this (new_round drawingPlayerId (currentWord gs) gs) None ;;
  startTimer this.

Definition endRound (this : string) : M unit :=
  gs <- thisGameState this ;;
  broadcastToRoom this (round_ended (currentWord gs)) None ;;
  setTimeout_startNewRound this.

(** The callback that [startTimer] hands to [setInterval]. *)
Definition timerTick (this : string) : M unit :=
  r <- thisRoom this ;;
  match gameState r with
  | Some gs =>
      if decide (_status r = playing) then
        updGameState this (with_timer (timer gs - 1)) ;;
        broadcastToRoom this (timer_update (timer gs - 1)) None ;;
        if timer gs - 1 <=? 0
        then clearInterval (timerInterval r) ;; endRound this
        else ret tt
      else clearInterval (timerInterval r)
  | None => clearInterval (timerInterval r)
  end.

(** [scores[id] = 0] and [scores[id] += points] on the score table, an
    object whose keys (player ids, never array indices) keep insertion
    order; adding to a missing key stores [undefined + points], [NaN]. *)
Fixpoint scores_set (k : string) (v : jsnum) (t : list (string * jsnum))
  : list (string * jsnum) :=
  match t with
  | [] => [(k, v)]
  | (k', s) :: t' =>
      if decide (k' = k) then (k', v) :: t' else (k', s) :: scores_set k v t'
  end.

Fixpoint scores_add (k : string) (points : Z) (t : list (string * jsnum))
  : list (string * jsnum) :=
  match t with
  | [] => [(k, NaN)]
  | (k', s) :: t' =>
      if decide (k' = k) then (k', jsnum_add s points) :: t'
      else (k', s) :: scores_add k points t'
  end.

Fixpoint scores_get (k : string) (t : list (string * jsnum)) : option jsnum :=
  match t with
  | [] => None
  | (k', s) :: t' => if decide (k' = k) then Some s else scores_get k t'
  end.

Definition WINNING_SCORE : Z := 1000.

Definition checkForWinner (this : string) : M unit :=
  gs <- thisGameState this ;;
  match find (fun e => jsnum_geb (snd e) WINNING_SCORE) (scores gs) with
  | Some (playerId, score) =>
      r <- thisRoom this ;;
      if bool_decide (playerId ∈ room_players r) then
        broadcastToRoom this (game_ended playerId score) None ;;
        set_status this finished ;;
        clearInterval (timerInterval r) ;;
        broadcastGlobalRoomListUpdate ;;
        w <- gets id ;;
        broadcastToRoom this
          (chat_message None (inl (won_the_game (playerName w playerId) score))
             kind_system) None
      else ret tt
  | None => ret tt
  end ;;
  r <- thisRoom this ;;
  if bool_decide (_status r = playing) && (length (room_players r) <=? 1)%nat
  then endGameDueToInsufficientPlayers this
  else ret tt.

(** The test [guessLower === wordLower] of [handleGuess]. *)
Definition guess_matches (guess word : string) : bool :=
  bool_decide (trim (toLowerCase guess) = toLowerCase word).

Definition handleGuess (this : string) (playerId guess : string) : M unit :=
  r <- thisRoom this ;;
  if negb (bool_decide (_status r = playing)) then ret tt else
  gs <- thisGameState this ;;
  if bool_decide (Some playerId = drawingPlayerId gs) then ret tt else
  match currentWord gs with
  | None => throw (TypeError "Cannot read properties of undefined")
  | Some word =>
      if guess_matches guess word then
        match drawingPlayerId gs with
        | Some drawer =>
            if bool_decide (drawer ∈ room_players r)
               && bool_decide (playerId ∈ room_players r) then
              let timeBonus := timer gs / 10 * 10 in
              let drawingPlayerPoints := 40 + timeBonus in
              let guessingPlayerPoints := 30 + timeBonus in
              updGameState this (fun g =>
                with_scores (scores_add drawer drawingPlayerPoints (scores g)) g) ;;
              updGameState this (fun g =>
                with_scores (scores_add playerId guessingPlayerPoints (scores g)) g) ;;
              gs <- thisGameState this ;;
              broadcastToRoom this
                (correct_guess playerId drawer guessingPlayerPoints
                   drawingPlayerPoints (scores gs)) None ;;
              checkForWinner this ;;
              r <- thisRoom this ;;
              clearInterval (timerInterval r) ;;
              setTimeout_startNewRound this
            else ret tt
        | None => ret tt
        end
      else ret tt
  end.

Definition updateCanvas (this : string) (data : option string) : M unit :=
  r <- thisRoom this ;;
  match gameState r with
  | None => ret tt
  | Some gs =>
      updGameState this (with_canvasData data) ;;
      broadcastToRoom this (canvas_updated data) (drawingPlayerId gs)
  end.

Definition startGame (this : string) (rnd : nat) : M bool :=
  r <- thisRoom this ;;
  if negb (bool_decide (_status r = waiting)) || (length (room_players r) <? 2)%nat
  then ret false
  else
    set_status this playing ;;
    updRoom this (with_gameState
      (Some (mkGameState 0 (Num (-1)) (Some "") 60 [] None [] None))) ;;
    forEach (room_players r) (fun playerId =>
      updGameState this (fun g => with_scores (scores_set playerId (Num 0) (scores g)) g)) ;;
    gs <- thisGameState this ;;
    broadcastToRoom this (game_started gs) None ;;
    startNewRound this rnd ;;
    broadcastGlobalRoomListUpdate ;;
    ret true.

Definition resetGame (this : string) : M unit :=
  set_status this waiting ;;
  updRoom this (with_gameState None) ;;
  r <- thisRoom this ;;
  broadcastToRoom this (game_reset (room_players r)) None ;;
  broadcastGlobalRoomListUpdate.

(** *** The connection handlers *)

(** A string field of an event payload; [None] is a missing field, and
    like the empty string it is falsy. *)
Definition truthy (x : option string) : option string :=
  match x with
  | Some s => if decide (s = "") then None else Some s
  | None => None
  end.

(** [rooms.get(currentPlayer.room)] for the player of a connection. *)
Definition roomOf (w : World) (playerId : string) : option string :=
  rooms_get (playerObjs w !! playerId ≫= player_room) w.

Definition handleConnection (sock : nat) : M unit :=
  modify (fun w => set_currentPlayer (delete sock (currentPlayer w)) w) ;;
  available <- getAvailableRooms ;;
  statistics <- getRoomStatistics ;;
  emit (to_socket sock) (room_list_updated available statistics).

Definition handleCreateRoom (sock : nat) (playerName_ roomName_ language_ : option string)
    (roomId playerId : string) : M unit :=
  match truthy playerName_ with
  | None => emit (to_socket sock) (error "Name is required")
  | Some name =>
      modify (fun w =>
        set_players ({[playerId]} ∪ players w)
          (set_playerObjs (<[playerId := mkPlayer name sock (Some roomId)]> (playerObjs w)) w)) ;;
      modify (fun w => set_currentPlayer (<[sock := playerId]> (currentPlayer w)) w) ;;
      room <- GameRoom_new roomId playerId
                (default (name ++ "'s room") (truthy roomName_))
                (default "en" language_) ;;
      modify (fun w => set_rooms (keys_set roomId (rooms w)) w) ;;
      emit (to_socket sock) (room_created room playerId) ;;
      broadcastGlobalRoomListUpdate
  end.

Definition handleJoinRoom (sock : nat) (roomId_ playerName_ : option string)
    (playerId : string) : M unit :=
  match truthy roomId_, truthy playerName_ with
  | Some roomId, Some name =>
      w <- gets id ;;
      match rooms_get (Some roomId) w with
      | None => emit (to_socket sock) (error "Room not found")
      | Some room =>
          r <- thisRoom room ;;
          if negb (bool_decide (_status r = waiting))
          then emit (to_socket sock) (error "Game has already started")
          else
            try_catch
              (modify (fun w =>
                 set_players ({[playerId]} ∪ players w)
                   (set_playerObjs
                      (<[playerId := mkPlayer name sock (Some roomId)]> (playerObjs w)) w)) ;;
               modify (fun w => set_currentPlayer (<[sock := playerId]> (currentPlayer w)) w) ;;
               addPlayer room playerId ;;
               chatHistory <- getChatHistory room ;;
               emit (to_socket sock) (chat_history chatHistory) ;;
               r <- thisRoom room ;;
               emit (to_socket sock)
                 (room_joined room playerId (room_players r) (host r)) ;;
               broadcastGlobalRoomListUpdate)
              (fun e => emit (to_socket sock) (error (err_message e)))
      end
  | _, _ => emit (to_socket sock) (error "Room ID and player name are required")
  end.

Definition handleGetRooms (sock : nat) : M unit :=
  available <- getAvailableRooms ;;
  statistics <- getRoomStatistics ;;
  emit (to_socket sock) (room_list_updated available statistics).

Definition handleStartGame (sock : nat) (rnd : nat) : M unit :=
  w <- gets id ;;
  match currentPlayer w !! sock with
  | None => ret tt
  | Some me =>
      match roomOf w me with
      | None => emit (to_socket sock) (error "Not in a room")
      | Some room =>
          r <- thisRoom room ;;
          if negb (bool_decide (host r = me))
          then emit (to_socket sock) (error "Only the host can start the game")
          else
            success <- startGame room rnd ;;
            if success then ret tt
            else emit (to_socket sock) (error "At least 2 players needed to start")
      end
  end.

Definition handleResetGame (sock : nat) : M unit :=
  w <- gets id ;;
  match currentPlayer w !! sock with
  | None => ret tt
  | Some me =>
      match roomOf w me with
      | None => emit (to_socket sock) (error "Only the host can reset the game")
      | Some room =>
          r <- thisRoom room ;;
          if negb (bool_decide (host r = me))
          then emit (to_socket sock) (error "Only the host can reset the game")
          else resetGame room
      end
  end.

Definition handleSendMessage (sock : nat) (message : string) : M unit :=
  w <- gets id ;;
  match currentPlayer w !! sock with
  | None => ret tt
  | Some me =>
      match roomOf w me with
      | None => ret tt
      | Some room =>
          addChatMessage room me message ;;
          broadcastToRoom room (chat_message (Some me) (inr message) kind_player) None ;;
          r <- thisRoom room ;;
          if bool_decide (_status r = playing) then
            gs <- thisGameState room ;;
            if negb (bool_decide (Some me = drawingPlayerId gs))
            then handleGuess room me message
            else ret tt
          else ret tt
      end
  end.

(** [handleUpdateCanvas], and [handleClearCanvas] for [data = None]. *)
Definition handleUpdateCanvas (sock : nat) (data : option string) : M unit :=
  w <- gets id ;;
  match currentPlayer w !! sock with
  | None => ret tt
  | Some me =>
      match roomOf w me with
      | None => ret tt
      | Some room =>
          r <- thisRoom room ;;
          if bool_decide (_status r = playing) then
            gs <- thisGameState room ;;
            if bool_decide (Some me = drawingPlayerId gs)
            then updateCanvas room data
            else ret tt
          else ret tt
      end
  end.

Definition handleClearCanvas (sock : nat) : M unit := handleUpdateCanvas sock None.

Definition handleLeaveRoom (sock : nat) : M unit :=
  w <- gets id ;;
  match currentPlayer w !! sock with
  | None => ret tt
  | Some me =>
      match roomOf w me with
      | Some room => removePlayer room me
      | None => ret tt
      end ;;
      modify (fun w => set_players (players w ∖ {[me]}) w) ;;
      modify (fun w => set_currentPlayer (delete sock (currentPlayer w)) w) ;;
      emit (to_socket sock) left_room
  end.

Definition handleDisconnect (sock : nat) : M unit :=
  w <- gets id ;;
  match currentPlayer w !! sock with
  | None => ret tt
  | Some me =>
      match roomOf w me with
      | Some room => removePlayer room me
      | None => ret tt
      end ;;
      modify (fun w => set_players (players w ∖ {[me]}) w)
  end.

(** *** The event loop: one reaction per inbound event or timer *)

Inductive Input :=
| on_connection (sock : nat)
| on_create_room (sock : nat) (playerName_ roomName_ language_ : option string)
    (roomId playerId : string)
| on_join_room (sock : nat) (roomId_ playerName_ : option string) (playerId : string)
| on_start_game (sock : nat) (rnd : nat)
| on_reset_game (sock : nat)
| on_send_message (sock : nat) (message : string)
| on_update_canvas (sock : nat) (data : option string)
| on_clear_canvas (sock : nat)
| on_get_rooms (sock : nat)
| on_leave_room (sock : nat)
| on_disconnect (sock : nat)
| on_interval (handle : nat) (room : string)
| on_timeout (position : nat) (room : string) (rnd : nat).

(** What the event loop runs for an input.  A timeout that fires leaves
    the pending list and calls [startNewRound] on the room it closed over. *)
Definition react (i : Input) : M unit :=
  match i with
  | on_connection sock => handleConnection sock
  | on_create_room sock n rn l roomId playerId => handleCreateRoom sock n rn l roomId playerId
  | on_join_room sock rid n playerId => handleJoinRoom sock rid n playerId
  | on_start_game sock rnd => handleStartGame sock rnd
  | on_reset_game sock => handleResetGame sock
  | on_send_message sock message => handleSendMessage sock message
  | on_update_canvas sock data => handleUpdateCanvas sock data
  | on_clear_canvas sock => handleClearCanvas sock
  | on_get_rooms sock => handleGetRooms sock
  | on_leave_room sock => handleLeaveRoom sock
  | on_disconnect sock => handleDisconnect sock
  | on_interval handle room => timerTick room
  | on_timeout position room rnd =>
      modify (fun w => set_timeouts (delete position (timeouts w)) w) ;;
      startNewRound room rnd
  end.

(** When an input can occur: identities drawn are fresh, a timer that
    fires is armed, a timeout that fires is pending. *)
Definition enabled (i : Input) (w : World) : Prop :=
  match i with
  | on_create_room _ _ _ _ roomId playerId =>
      roomObjs w !! roomId = None ∧ playerObjs w !! playerId = None
  | on_join_room _ _ _ playerId => playerObjs w !! playerId = None
  | on_interval handle room => (handle, room) ∈ intervals w
  | on_timeout position room _ => timeouts w !! position = Some room
  | _ => True
  end.

(** A reaction that runs to completion.  An exception that escapes a
    handler or a timer callback is uncaught and ends the process. *)
Definition step (w : World) (i : Input) (w' : World) : Prop :=
  enabled i w ∧ react i w = Ret tt w'.

Definition initial (lists : WordLists) : World :=
  mkWorld lists [] ∅ ∅ ∅ (mkStatistics 0 0 0 0) ∅ [] 0%nat [] ∅ [].

Inductive reachable : World -> Prop :=
| reachable_initial lists : reachable (initial lists)
| reachable_step w i w' : reachable w -> step w i w' -> reachable w'.

(** The event loop over a list of inputs; it stops at the first exception. *)
Fixpoint run (inputs : list Input) : M unit :=
  match inputs with
  | [] => ret tt
  | i :: rest => react i ;; run rest
  end.

(** Strings made of white space only. *)
Fixpoint all_ws (s : string) : bool :=
  match s with
  | EmptyString => true
  | String c s' => isWhiteSpace c && all_ws s'
  end.

(** The sockets that [broadcastToRoom] reaches, in roster order. *)
Definition recipients (w : World) (r : GameRoom) (excludePlayerId : option string)
  : list nat :=
  omap (fun playerId =>
          match playerObjs w !! playerId with
          | Some player =>
              if bool_decide (Some playerId = excludePlayerId) then None
              else Some (socket player)
          | None => None
          end) (room_players r).

Definition broadcast_events (w : World) (r : GameRoom) (p : Payload)
    (excludePlayerId : option string) : list Emit :=
  map (fun s => mkEmit (to_socket s) p) (recipients w r excludePlayerId).

(** The world with the object of room [this] replaced. *)
Definition put_room (this : string) (r : GameRoom) (w : World) : World :=
  set_roomObjs (<[this := r]> (roomObjs w)) w.

(** What [cleanupRoom] leaves of a room object. *)
Definition cleaned (r : GameRoom) : GameRoom :=
  with_hostPlayer None
    (with_gameState None (with_room_players [] (with_timerInterval None r))).

Definition is_list_update (e : Emit) : Prop :=
  audience e = to_all /\ exists available statistics,
    payload e = room_list_updated available statistics.

(** The footprint of [broadcastGlobalRoomListUpdate]: rooms without
    members are cleaned and leave the registry, and the room list goes
    out to everybody; the rest of the world stays as it is. *)
Record Swept (w w' : World) : Prop := mkSwept {
  swept_wordLists : wordLists w' = wordLists w;
  swept_objs : forall a,
    roomObjs w' !! a = roomObjs w !! a \/
    exists r, roomObjs w !! a = Some r /\ room_players r = [] /\
              roomObjs w' !! a = Some (cleaned r);
  swept_rooms : sublist (rooms w') (rooms w);
  swept_kept : forall a r,
    a ∈ rooms w -> roomObjs w !! a = Some r -> room_players r <> [] ->
    a ∈ rooms w';
  swept_players : players w' = players w;
  swept_playerObjs : playerObjs w' = playerObjs w;
  swept_intervals : sublist (intervals w') (intervals w);
  swept_nextHandle : nextHandle w' = nextHandle w;
  swept_timeouts : timeouts w' = timeouts w;
  swept_currentPlayer : currentPlayer w' = currentPlayer w;
  swept_log : exists evs, log w' = (log w ++ evs)%list /\ Forall is_list_update evs
}.

(** Every registered room has a member. *)
Definition AllNonEmpty (w : World) : Prop :=
  forall a r, a ∈ rooms w -> roomObjs w !! a = Some r -> room_players r <> [].

(** The room object after the setter [status = newStatus]. *)
Definition status_set (newStatus : Status) (r : GameRoom) : GameRoom :=
  if decide (_status r = newStatus) then r
  else with_status (Some (_status r)) newStatus r.

(** The word that [getRandomWord] draws from [words] for the history
    [used], and the history it leaves. *)
Definition pickWord (words : list string) (used : list (option string)) (rnd : nat)
  : option string * list (option string) :=
  let availableWords :=
    filter (fun word => negb (bool_decide (Some word ∈ used))) words in
  let exhausted := (length availableWords =? 0)%nat in
  let availableWords := if exhausted then words else availableWords in
  let word := nth_error availableWords (rnd mod length availableWords)%nat in
  (word, ((if exhausted then [] else used) ++ [word])%list).

(** The list of the room's language, English when the tag is not a key. *)
Definition wordsOf (lists : WordLists) (lang : string) : list string :=
  default (english lists) (wordLists_get lists lang).

(** The [gameState] that [startNewRound] leaves. *)
Definition nextRound (words : list string) (roster : list string)
    (gs : GameState) (rnd : nat) : GameState :=
  let index :=
    jsnum_rem (jsnum_add (currentPlayerIndex gs) 1) (Z.of_nat (length roster)) in
  let picked := pickWord words (usedWords gs) rnd in
  mkGameState (currentRound gs) index (fst picked) 60 (scores gs)
    (js_index roster index) (snd picked) None.

(** The score table and the [gameState] that [startGame] builds before it
    starts the first round. *)
Definition initialScores (roster : list string) : list (string * jsnum) :=
  foldl (fun table playerId => scores_set playerId (Num 0) table) [] roster.

Definition freshRound (roster : list string) : GameState :=
  mkGameState 0 (Num (-1)) (Some "") 60 (initialScores roster) None [] None.

(** The drawer of the current round of a room, and the drawers of the
    rounds that [startNewRound] starts one after the other. *)
Definition drawerOf (w : World) (this : string) : option string :=
  match roomObjs w !! this with
  | Some r =>
      match gameState r with
      | Some gs => drawingPlayerId gs
      | None => None
      end
  | None => None
  end.

Fixpoint drawersOf (this : string) (rnds : list nat) (w : World)
  : list (option string) :=
  match rnds with
  | [] => []
  | rnd :: rest =>
      let w' := world_of (startNewRound this rnd w) in
      drawerOf w' this :: drawersOf this rest w'
  end.

(** ** Relations between the rooms before and after a computation *)

(** A relation on the objects of each room, lifted to worlds: the objects
    of the first world are still there in the second, and related. *)
Definition RoomRel : Type := string -> GameRoom -> GameRoom -> Prop.

Definition lift (rho : RoomRel) (w w' : World) : Prop :=
  forall a r, roomObjs w !! a = Some r ->
  exists r', roomObjs w' !! a = Some r' /\ rho a r r'.

(** [rho] is transitive and holds of every change that keeps the status
    and adds no member. *)
Class Good (rho : RoomRel) : Prop := mkGood {
  good_trans : forall a r1 r2 r3, rho a r1 r2 -> rho a r2 r3 -> rho a r1 r3;
  good_frame : forall a r r',
    _status r' = _status r -> room_players r' ⊆ room_players r -> rho a r r'
}.

(** [rho] lets room [this] take status [s], take new members, or be
    replaced altogether. *)
Definition allows (rho : RoomRel) (this : string) (s : Status) : Prop :=
  forall r r', _status r' = s -> room_players r' ⊆ room_players r -> rho this r r'.
Definition lets_join (rho : RoomRel) (this : string) : Prop :=
  forall r r', _status r' = _status r -> rho this r r'.
Definition replaces (rho : RoomRel) (this : string) : Prop :=
  forall r r', rho this r r'.

(** A computation whose effect on the world, returned or thrown, is in [R]. *)
Definition respects (R : World -> World -> Prop) {A} (m : M A) : Prop :=
  forall w, R w (world_of (m w)).

(** Statuses move only where [S] says and rosters grow only where [J] says. *)
Definition rho_gen (S : string -> Status -> Prop) (J : string -> Prop) : RoomRel :=
  fun a r r' =>
    (J a \/ room_players r' ⊆ room_players r) /\
    (_status r' = _status r \/ S a (_status r')).

(** A game may end. *)
Definition rho_ends : RoomRel :=
  fun _ r r' =>
    room_players r' ⊆ room_players r /\
    (_status r' = _status r \/ (_status r = playing /\ _status r' = finished)).

(** A game may start. *)
Definition rho_starts : RoomRel :=
  fun _ r r' =>
    room_players r' ⊆ room_players r /\
    (_status r' = _status r \/ (_status r = waiting /\ _status r' = playing)).

(** The moves of a room's status that a reaction to input [i] can make. *)
Definition transition_ok (i : Input) (s s' : Status) : Prop :=
  s' = s \/
  (s = waiting /\ s' = playing /\ exists sock rnd, i = on_start_game sock rnd) \/
  (s' = waiting /\ exists sock, i = on_reset_game sock) \/
  (s = playing /\ s' = finished).

(** What a reaction to input [i] can do to a room that exists. *)
Definition rho_step (i : Input) : RoomRel :=
  fun _ r r' =>
    transition_ok i (_status r) (_status r') /\
    (_status r <> waiting -> room_players r' ⊆ room_players r).

(** ** Sample runs *)

Definition demo_lists : WordLists := mkWordLists ["cat"; "dog"] ["katt"; "hund"].

(** The object of room [a], or a blank one when there is none. *)
Definition the_room (w : World) (a : string) : GameRoom :=
  default (mkGameRoom "" "" [] "" None None waiting None 0%nat None)
          (roomObjs w !! a).

Definition the_round (w : World) (a : string) : GameState :=
  default (mkGameState 0 NaN None 0 [] None [] None) (gameState (the_room w a)).

(** Alice creates room r1; Bob joins; Alice starts the game and draws "cat". *)
Definition lobby1 : World := Eval vm_compute in
  world_of (run [on_connection 1%nat;
                 on_create_room 1%nat (Some "Alice") None None "r1" "pA"]
              (initial demo_lists)).

Definition lobby2 : World := Eval vm_compute in
  world_of (run [on_connection 2%nat;
                 on_join_room 2%nat (Some "r1") (Some "Bob") "pB"] lobby1).

Definition game2 : World := Eval vm_compute in
  world_of (run [on_start_game 1%nat 0%nat] lobby2).

(** [n] rounds in which the guesser sends the word at once and the
    3-second timeout then starts the next round. *)
Fixpoint quick_rounds (n : nat) (aliceDraws : bool) : list Input :=
  match n with
  | O => []
  | S n' =>
      on_send_message (if aliceDraws then 2%nat else 1%nat)
                      (if aliceDraws then "cat" else "dog")
      :: on_timeout 0%nat "r1" 0%nat :: quick_rounds n' (negb aliceDraws)
  end.

(** After ten such rounds both players stand at 950 and Alice draws "cat". *)
Definition game_late : World := Eval vm_compute in
  world_of (run (quick_rounds 10 true) game2).

(** Bob guesses: Alice goes to 1050 and Bob to 1040. *)
Definition game_won : World := Eval vm_compute in
  world_of (react (on_send_message 2%nat "cat") game_late).

(** The countdown of the first round runs out; then the host resets. *)
Definition round_over : World := Eval vm_compute in
  world_of (run (replicate 60 (on_interval 0%nat "r1")) game2).

Definition reset_pending : World := Eval vm_compute in
  world_of (react (on_reset_game 1%nat) round_over).


(** Three players; Bob draws the second round; then Alice leaves and the
    third round starts. *)
Definition trio_round2 : World := Eval vm_compute in
  world_of (run [on_connection 3%nat;
                 on_join_room 3%nat (Some "r1") (Some "Carol") "pC";
                 on_start_game 1%nat 0%nat;
                 on_send_message 2%nat "cat";
                 on_timeout 0%nat "r1" 0%nat] lobby2).

Definition trio_round3 : World := Eval vm_compute in
  world_of (run [on_leave_room 1%nat;
                 on_send_message 3%nat "dog";
                 on_timeout 0%nat "r1" 0%nat] trio_round2).

(** A game whose word list has an entry with a trailing space. *)
Definition spaced_game : World := Eval vm_compute in
  world_of (run [on_connection 1%nat;
                 on_create_room 1%nat (Some "Alice") None None "r1" "pA";
                 on_connection 2%nat;
                 on_join_room 2%nat (Some "r1") (Some "Bob") "pB";
                 on_start_game 1%nat 0%nat]
              (initial (mkWordLists ["cat "] []))).

Definition names_winner (p : string) (e : Emit) : bool :=
  match payload e with
  | game_ended winner _ => bool_decide (winner = p)
  | _ => false
  end.

Definition is_new_round (e : Emit) : bool :=
  match payload e with
  | new_round _ _ _ => true
  | _ => false
  end.

(** ** Closed forms of the registry sweep, and invariants *)
(** The list that [getAvailableRooms] returns for a registry without
    empty rooms, and the statistics that [getRoomStatistics] recomputes. *)
Definition listing (w : World) : list PublicRoom :=
  map (fun e => serialize w (fst e) (snd e))
      (filter (fun e => bool_decide (_status (snd e) = waiting)) (registered w)).

Definition count_status (s : Status) (w : World) : Z :=
  Z.of_nat (length (filter (fun e => bool_decide (_status (snd e) = s)) (registered w))).

Definition recount (w : World) : Statistics :=
  mkStatistics (Z.of_nat (length (rooms w)))
    (count_status waiting w) (count_status playing w) (count_status finished w).

(** The world after [broadcastGlobalRoomListUpdate] found nothing to clean. *)
Definition announce (w : World) : World :=
  set_log (log w ++ [mkEmit to_all (room_list_updated (listing w) (recount w))])
    (set_roomStatistics (recount w) w).

(** Every registered room has its object and a member. *)
Definition Populated (w : World) : Prop :=
  forall a, a ∈ rooms w -> exists r, roomObjs w !! a = Some r /\ room_players r <> [].

(** The world that [cleanupRoom] hands to its closing broadcast, for a
    room without members (the statistics apart, which the broadcast
    recomputes). *)
Definition disarm (x : option nat) (l : list (nat * string)) : list (nat * string) :=
  match x with
  | Some h => filter (fun e => negb (fst e =? h)%nat) l
  | None => l
  end.

Definition cleanedW (this : string) (r : GameRoom) (w : World) : World :=
  set_roomObjs (<[this := cleaned r]> (roomObjs w))
    (set_rooms (keys_delete this (rooms w))
       (set_intervals (disarm (timerInterval r) (intervals w))
          (set_roomChatHistory (delete this (roomChatHistory w)) w))).

(** Every registered room but [this] has its object and a member. *)
Definition PopulatedBut (this : string) (w : World) : Prop :=
  forall a, a ∈ rooms w -> a <> this ->
  exists r, roomObjs w !! a = Some r /\ room_players r <> [].

(** The word lists the server needs: none is empty. *)
Definition lists_ok (lists : WordLists) : Prop :=
  english lists <> [] /\ swedish lists <> [].

(** An entry of the score table: a number, not negative, and below the
    winning score while the game is on. *)
Definition score_ok (s : Status) (e : string * jsnum) : Prop :=
  exists z, snd e = Num z /\ 0 <= z /\ (s = playing -> z < WINNING_SCORE).

(** What holds of the [gameState] of a room with status [s] and the
    given roster. *)
Record round_ok (s : Status) (roster : list string) (gs : GameState) : Prop :=
  mkRoundOk {
  rd_index : exists i, currentPlayerIndex gs = Num i /\ -1 <= i;
  rd_timer : 0 <= timer gs <= 60;
  rd_scores : Forall (score_ok s) (scores gs);
  rd_members : forall p, p ∈ roster -> is_Some (scores_get p (scores gs));
  rd_used : NoDup (usedWords gs)
}.

(** What holds of every room object between two reactions. *)
Record room_ok (r : GameRoom) : Prop := mkRoomOk {
  ok_maxPlayers : maxPlayers r = 8%nat;
  ok_capacity : (length (room_players r) <= 8)%nat;
  ok_nodup : NoDup (room_players r);
  ok_host : room_players r <> [] -> host r ∈ room_players r;
  ok_first : room_players r <> [] -> head (room_players r) = Some (host r);
  ok_playing : _status r = playing ->
               (2 <= length (room_players r))%nat /\ gameState r <> None;
  ok_waiting : _status r = waiting -> gameState r = None;
  ok_members : gameState r <> None -> room_players r <> [];
  ok_round : forall gs, gameState r = Some gs ->
             round_ok (_status r) (room_players r) gs
}.

Definition word_ok (r : GameRoom) : Prop :=
  forall gs, gameState r = Some gs -> currentWord gs <> None.

(** The countdown of room [this] is armed. *)
Definition armed (this : string) (l : list (nat * string)) : Prop :=
  exists h, (h, this) ∈ l.

(** What holds of the world at every point of a reaction. *)
Record Base (w : World) : Prop := mkBase {
  base_rooms : forall a r, roomObjs w !! a = Some r -> room_ok r;
  base_words : lists_ok (wordLists w) ->
               forall a r, roomObjs w !! a = Some r -> word_ok r;
  base_registry : forall a, a ∈ rooms w -> is_Some (roomObjs w !! a);
  base_registry_nodup : NoDup (rooms w);
  base_intervals : forall h a, (h, a) ∈ intervals w ->
    (h < nextHandle w)%nat /\
    exists r, roomObjs w !! a = Some r /\ timerInterval r = Some h;
  base_intervals_nodup : NoDup (intervals w);
  base_armed : forall a r gs,
    armed a (intervals w) -> roomObjs w !! a = Some r -> gameState r = Some gs ->
    1 <= timer gs;
  base_timeouts : forall a, a ∈ timeouts w -> is_Some (roomObjs w !! a);
  base_chat : forall a l, roomChatHistory w !! a = Some l -> (length l <= 100)%nat
}.

(** What holds between two reactions. *)
Record Inv (w : World) : Prop := mkInv {
  inv_base : Base w;
  inv_populated : Populated w;
  inv_statistics : roomStatistics w = recount w
}.

(** The world after [startTimer] on a room whose object becomes [r']. *)
Definition rearm (this : string) (old : option nat) (r' : GameRoom) (w : World) : World :=
  put_room this (with_timerInterval (Some (nextHandle w)) r')
    (set_nextHandle (S (nextHandle w))
       (set_intervals (disarm old (intervals w) ++ [(nextHandle w, this)]) w)).

(** The object that [removePlayer] leaves of a room, and the events it
    sends to the members that remain. *)
Definition after_leave (playerId : string) (r : GameRoom) : GameRoom :=
  let roster := keys_delete playerId (room_players r) in
  let r1 := with_room_players roster r in
  let r2 :=
    match roster with
    | newHostId :: _ =>
        if bool_decide (host r = playerId)
        then with_host newHostId (Some newHostId) r1 else r1
    | [] => r1
    end in
  if bool_decide (_status r = playing) && (length roster <=? 1)%nat
  then with_gameState None (status_set finished r2)
  else if (length roster =? 0)%nat then cleaned r2 else r2.

Definition leave_events (playerId : string) (w : World) (r : GameRoom) : list Emit :=
  let roster := keys_delete playerId (room_players r) in
  let r1 := with_room_players roster r in
  let to_room p := broadcast_events w r1 p None in
  let system text := chat_message None (inl text) kind_system in
  (to_room (system (left_the_game (playerName w playerId))) ++
   match roster with
   | newHostId :: _ =>
       if bool_decide (host r = playerId)
       then to_room (system (is_now_the_host (playerName w newHostId)))
       else []
   | [] => []
   end ++
   to_room (player_left playerId roster (host (after_leave playerId r))) ++
   (if bool_decide (_status r = playing) && (length roster <=? 1)%nat
    then to_room (system not_enough_players) ++
         to_room (game_ended_early (if (length roster =? 1)%nat then head roster else None))
    else []))%list.

(** The inputs that run a delayed continuation. *)
Definition is_timeout (i : Input) : bool :=
  match i with on_timeout _ _ _ => true | _ => false end.

(** [enabled] as a test, and the event loop that stops at an input that
    cannot occur or at an exception. *)
Definition enabledb (i : Input) (w : World) : bool :=
  match i with
  | on_create_room _ _ _ _ roomId playerId =>
      match roomObjs w !! roomId, playerObjs w !! playerId with
      | None, None => true
      | _, _ => false
      end
  | on_join_room _ _ _ playerId =>
      match playerObjs w !! playerId with None => true | Some _ => false end
  | on_interval handle room => bool_decide ((handle, room) ∈ intervals w)
  | on_timeout position room _ => bool_decide (timeouts w !! position = Some room)
  | _ => true
  end.

Fixpoint run_steps (inputs : list Input) (w : World) : option World :=
  match inputs with
  | [] => Some w
  | i :: rest =>
      if enabledb i w then
        match react i w with
        | Ret _ w' => run_steps rest w'
        | Throw _ _ => None
        end
      else None
  end.

(** Six more players join Alice and Bob: the room is full. *)
Definition full_lobby : World := Eval vm_compute in
  world_of (run [on_join_room 3%nat (Some "r1") (Some "Cleo") "pC";
                 on_join_room 4%nat (Some "r1") (Some "Dan") "pD";
                 on_join_room 5%nat (Some "r1") (Some "Eve") "pE";
                 on_join_room 6%nat (Some "r1") (Some "Finn") "pF";
                 on_join_room 7%nat (Some "r1") (Some "Gus") "pG";
                 on_join_room 8%nat (Some "r1") (Some "Hal") "pH"] lobby2).

(** * Properties *)

(** ** Normalisation of guesses *)

Lemma lower_char_ws c : isWhiteSpace (lower_char c) = isWhiteSpace c.
Proof. destruct c as [[] [] [] [] [] [] [] []]; reflexivity. Qed.

Lemma toLowerCase_app a b :
  toLowerCase (a ++ b) = (toLowerCase a ++ toLowerCase b)%string.
Proof. induction a as [|c a IH]; simpl; [reflexivity | now rewrite IH]. Qed.

Lemma all_ws_lower s : all_ws (toLowerCase s) = all_ws s.
Proof.
  induction s as [|c s IH]; simpl; [reflexivity|].
  now rewrite lower_char_ws, IH.
Qed.

Lemma trimStart_ws_app pre s :
  all_ws pre = true -> trimStart (pre ++ s) = trimStart s.
Proof.
  induction pre as [|c pre IH]; simpl; [reflexivity|].
  intros [Hc Hp]%andb_prop. rewrite Hc. auto.
Qed.

Lemma trimStart_ws s : all_ws s = true -> trimStart s = EmptyString.
Proof.
  induction s as [|c s IH]; simpl; [reflexivity|].
  intros [Hc Hs]%andb_prop. rewrite Hc. auto.
Qed.

Lemma trimEnd_ws s : all_ws s = true -> trimEnd s = EmptyString.
Proof.
  induction s as [|c s IH]; simpl; [reflexivity|].
  intros [Hc Hs]%andb_prop. rewrite (IH Hs), Hc. reflexivity.
Qed.

Lemma trimEnd_app_ws s post :
  all_ws post = true -> trimEnd (s ++ post) = trimEnd s.
Proof.
  intros Hp. induction s as [|c s IH]; simpl.
  - now apply trimEnd_ws.
  - now rewrite IH.
Qed.

Lemma trimStart_app_ws s post :
  all_ws post = true ->
  trimStart (s ++ post) =
    match trimStart s with
    | EmptyString => EmptyString
    | t => (t ++ post)%string
    end.
Proof.
  intros Hp. induction s as [|c s IH]; simpl.
  - now apply trimStart_ws.
  - destruct (isWhiteSpace c); [exact IH | reflexivity].
Qed.

Lemma trim_ws_around pre s post :
  all_ws pre = true -> all_ws post = true ->
  trim (pre ++ s ++ post) = trim s.
Proof.
  intros Hpre Hpost. unfold trim.
  rewrite trimStart_ws_app by assumption.
  rewrite trimStart_app_ws by assumption.
  destruct (trimStart s) as [|c t]; [reflexivity|].
  now apply trimEnd_app_ws.
Qed.

Lemma trimStart_lower s : trimStart (toLowerCase s) = toLowerCase (trimStart s).
Proof.
  induction s as [|c s IH]; simpl; [reflexivity|].
  rewrite lower_char_ws. destruct (isWhiteSpace c); [exact IH | reflexivity].
Qed.

Lemma trimEnd_lower s : trimEnd (toLowerCase s) = toLowerCase (trimEnd s).
Proof.
  induction s as [|c s IH]; simpl; [reflexivity|].
  rewrite IH, lower_char_ws.
  destruct (trimEnd s); simpl; [destruct (isWhiteSpace c)|]; reflexivity.
Qed.

Lemma trim_lower s : trim (toLowerCase s) = toLowerCase (trim s).
Proof. unfold trim. now rewrite trimStart_lower, trimEnd_lower. Qed.

(** ** Running the monad *)

Ltac wsimpl :=
  cbn [wordLists rooms roomObjs players playerObjs roomStatistics roomChatHistory
       intervals nextHandle timeouts currentPlayer log
       set_rooms set_roomObjs set_players set_playerObjs set_roomStatistics
       set_roomChatHistory set_intervals set_nextHandle set_timeouts
       set_currentPlayer set_log put_room
       room_name language room_players host hostPlayer gameState _status
       previousStatus maxPlayers timerInterval
       with_room_players with_host with_hostPlayer with_gameState with_status
       with_timerInterval
       currentRound currentPlayerIndex currentWord timer scores drawingPlayerId
       usedWords canvasData
       with_currentPlayerIndex with_currentWord with_drawingPlayerId
       with_usedWords with_timer with_scores with_canvasData
       world_of returned fmap option_fmap option_map fst snd] in *.

Lemma bind_ret {A B} (a : A) (k : A -> M B) w : (x <- ret a ;; k x) w = k a w.
Proof. reflexivity. Qed.

Lemma bind_gets {A B} (f : World -> A) (k : A -> M B) w :
  (x <- gets f ;; k x) w = k (f w) w.
Proof. reflexivity. Qed.

Lemma bind_modify {B} (f : World -> World) (k : unit -> M B) w :
  (x <- modify f ;; k x) w = k tt (f w).
Proof. reflexivity. Qed.

Lemma bind_throw {A B} (e : Err) (k : A -> M B) w :
  (x <- throw e ;; k x) w = Throw e w.
Proof. reflexivity. Qed.

Lemma bind_assoc {A B C} (m : M A) (k : A -> M B) (k' : B -> M C) w :
  (y <- (x <- m ;; k x) ;; k' y) w = (x <- m ;; y <- k x ;; k' y) w.
Proof. unfold bind. destruct (m w); reflexivity. Qed.

Lemma bind_eq {A B} (m : M A) (k : A -> M B) w a w' :
  m w = Ret a w' -> (x <- m ;; k x) w = k a w'.
Proof. unfold bind. now intros ->. Qed.

Lemma bind_eq_throw {A B} (m : M A) (k : A -> M B) w e w' :
  m w = Throw e w' -> (x <- m ;; k x) w = Throw e w'.
Proof. unfold bind. now intros ->. Qed.

Lemma thisRoom_eq this w r : roomObjs w !! this = Some r -> thisRoom this w = Ret r w.
Proof. unfold thisRoom. now intros ->. Qed.

Lemma thisGameState_eq this w r gs :
  roomObjs w !! this = Some r -> gameState r = Some gs ->
  thisGameState this w = Ret gs w.
Proof.
  intros Hr Hgs. unfold thisGameState.
  rewrite (bind_eq _ _ _ _ _ (thisRoom_eq _ _ _ Hr)), Hgs. reflexivity.
Qed.

Lemma thisGameState_null this w r :
  roomObjs w !! this = Some r -> gameState r = None ->
  thisGameState this w = Throw (TypeError "Cannot read properties of null") w.
Proof.
  intros Hr Hgs. unfold thisGameState.
  rewrite (bind_eq _ _ _ _ _ (thisRoom_eq _ _ _ Hr)), Hgs. reflexivity.
Qed.

Lemma updRoom_eq this f w r :
  roomObjs w !! this = Some r -> updRoom this f w = Ret tt (put_room this (f r) w).
Proof.
  intros Hr. unfold updRoom, modify, put_room. do 2 f_equal.
  apply map_eq. intros a. rewrite lookup_alter, lookup_insert.
  repeat case_decide; subst; try congruence. now rewrite Hr.
Qed.

Lemma updGameState_eq this f w r gs :
  roomObjs w !! this = Some r -> gameState r = Some gs ->
  updGameState this f w = Ret tt (put_room this (with_gameState (Some (f gs)) r) w).
Proof.
  intros Hr Hgs. unfold updGameState.
  rewrite (bind_eq _ _ _ _ _ (thisGameState_eq _ _ _ _ Hr Hgs)).
  rewrite (updRoom_eq _ _ _ _ Hr), Hgs. reflexivity.
Qed.

Lemma put_room_lookup this r w : roomObjs (put_room this r w) !! this = Some r.
Proof. unfold put_room. wsimpl. apply lookup_insert_eq. Qed.

Lemma put_room_lookup_ne this a r w :
  a <> this -> roomObjs (put_room this r w) !! a = roomObjs w !! a.
Proof. intros. unfold put_room. wsimpl. now apply lookup_insert_ne. Qed.

Lemma put_room_put_room this r1 r2 w :
  put_room this r2 (put_room this r1 w) = put_room this r2 w.
Proof. unfold put_room, set_roomObjs. wsimpl. f_equal. apply insert_insert_eq. Qed.

Lemma broadcastToRoom_eq this p ex w r :
  roomObjs w !! this = Some r ->
  broadcastToRoom this p ex w = Ret tt (set_log (log w ++ broadcast_events w r p ex) w).
Proof.
  intros Hr. unfold broadcastToRoom.
  rewrite (bind_eq _ _ _ _ _ (thisRoom_eq _ _ _ Hr)), bind_gets.
  unfold broadcast_events, recipients.
  generalize (playerObjs w) as objs. intros objs.
  assert (Hgen : forall l w0,
    forEach l (fun playerId =>
      match objs !! playerId with
      | Some player =>
          when (negb (bool_decide (Some playerId = ex)))
               (emit (to_socket (socket player)) p)
      | None => ret tt
      end) w0
    = Ret tt (set_log (log w0 ++ map (fun s => mkEmit (to_socket s) p)
        (omap (fun playerId =>
           match objs !! playerId with
           | Some player =>
               if bool_decide (Some playerId = ex) then None
               else Some (socket player)
           | None => None
           end) l)) w0)).
  { induction l as [|x l IH]; intros w0; simpl.
    - rewrite app_nil_r. now destruct w0.
    - destruct (objs !! x) as [pl|]; simpl.
      + destruct (bool_decide (Some x = ex)); simpl.
        * rewrite bind_ret. apply IH.
        * unfold emit. rewrite bind_modify, IH. wsimpl.
          unfold set_log. wsimpl. now rewrite <- app_assoc.
      + rewrite bind_ret. apply IH. }
  apply Hgen.
Qed.

Ltac mrun lem := rewrite (bind_eq _ _ _ _ _ lem).

(** ** Word selection *)


Lemma nth_error_mod_Some {A} (l : list A) (rnd : nat) :
  l <> [] -> exists x, nth_error l (rnd mod length l) = Some x /\ x ∈ l.
Proof.
  intros Hl.
  assert (rnd mod length l < length l)%nat as Hlt.
  { apply Nat.mod_upper_bound. destruct l; [done | simpl; lia]. }
  destruct (nth_error l (rnd mod length l)) as [x|] eqn:E.
  - exists x. split; [done|]. apply list_elem_of_In. eapply nth_error_In; eauto.
  - apply nth_error_None in E. lia.
Qed.

Lemma getRandomWord_eq w this r gs rnd :
  roomObjs w !! this = Some r ->
  gameState r = Some gs ->
  let picked := pickWord (wordsOf (wordLists w) (language r)) (usedWords gs) rnd in
  getRandomWord this rnd w
  = Ret (fst picked)
        (put_room this (with_gameState (Some (with_usedWords (snd picked) gs)) r) w).
Proof.
  intros Hr Hgs. unfold getRandomWord, pickWord, wordsOf.
  mrun (thisRoom_eq _ _ _ Hr). mrun (thisGameState_eq _ _ _ _ Hr Hgs).
  rewrite bind_gets. cbn zeta.
  destruct (length _ =? 0)%nat eqn:E.
  - mrun (updGameState_eq _ (with_usedWords []) _ _ _ Hr Hgs).
    erewrite bind_eq;
      [|apply updGameState_eq; [apply put_room_lookup | reflexivity]].
    rewrite put_room_put_room. reflexivity.
  - rewrite bind_ret.
    erewrite bind_eq; [|apply updGameState_eq; [exact Hr | exact Hgs]].
    reflexivity.
Qed.



(** ** The sweep of empty rooms *)

Lemma cleaned_players r : room_players (cleaned r) = [].
Proof. reflexivity. Qed.

Lemma cleaned_idem r : cleaned (cleaned r) = cleaned r.
Proof. reflexivity. Qed.

Lemma Swept_refl w : Swept w w.
Proof.
  constructor; auto.
  exists []. split; [now rewrite app_nil_r | constructor].
Qed.

Lemma Swept_trans w1 w2 w3 : Swept w1 w2 -> Swept w2 w3 -> Swept w1 w3.
Proof.
  intros H12 H23. constructor.
  - rewrite (swept_wordLists _ _ H23). apply H12.
  - intros a.
    destruct (swept_objs _ _ H12 a) as [E12|(r & Hr & He & E12)];
      destruct (swept_objs _ _ H23 a) as [E23|(r' & Hr' & He' & E23)].
    + left. congruence.
    + right. exists r'. rewrite <- E12. auto.
    + right. exists r. rewrite E23. auto.
    + right. exists r. rewrite E23. split; [done|]. split; [done|].
      rewrite E12 in Hr'. injection Hr' as <-. now rewrite cleaned_idem.
  - etransitivity; [apply H23 | apply H12].
  - intros a r Ha Hr Hne.
    assert (a ∈ rooms w2) as Ha2 by (eapply swept_kept; eauto).
    destruct (swept_objs _ _ H12 a) as [E12|(r0 & Hr0 & He & E12)].
    + eapply (swept_kept _ _ H23); eauto. congruence.
    + congruence.
  - rewrite (swept_players _ _ H23). apply H12.
  - rewrite (swept_playerObjs _ _ H23). apply H12.
  - etransitivity; [apply H23 | apply H12].
  - rewrite (swept_nextHandle _ _ H23). apply H12.
  - rewrite (swept_timeouts _ _ H23). apply H12.
  - rewrite (swept_currentPlayer _ _ H23). apply H12.
  - destruct (swept_log _ _ H12) as (e1 & E1 & F1).
    destruct (swept_log _ _ H23) as (e2 & E2 & F2).
    exists (e1 ++ e2)%list. split; [now rewrite E2, E1, app_assoc|].
    apply Forall_app; auto.
Qed.

Lemma Swept_nonempty_same w w' a r :
  Swept w w' -> roomObjs w !! a = Some r -> room_players r <> [] ->
  roomObjs w' !! a = Some r.
Proof.
  intros H Hr Hne. destruct (swept_objs _ _ H a) as [E|(r0 & Hr0 & He & _)];
    congruence.
Qed.

Lemma keys_delete_sublist k l : sublist (keys_delete k l) l.
Proof. apply sublist_filter. Qed.

Lemma keys_delete_not_in k l : k ∉ keys_delete k l.
Proof.
  unfold keys_delete. rewrite list_elem_of_filter. intros [H _].
  apply negb_True in H. rewrite bool_decide_spec in H. done.
Qed.

Lemma keys_delete_in k k' l : k' ∈ l -> k' <> k -> k' ∈ keys_delete k l.
Proof.
  intros Hin Hne. apply list_elem_of_filter. split; [|done].
  apply negb_True. rewrite bool_decide_spec. done.
Qed.

Lemma keys_delete_length k l : k ∈ l -> (length (keys_delete k l) < length l)%nat.
Proof.
  intros Hin. unfold keys_delete. eapply length_filter_lt; [exact Hin|].
  intros H. apply negb_True in H. rewrite bool_decide_spec in H. done.
Qed.

Lemma cleanupRoomWith_empty bg this w r :
  roomObjs w !! this = Some r -> room_players r = [] ->
  exists w1, cleanupRoomWith bg this w = bg w1 /\ Swept w w1 /\
             rooms w1 = keys_delete this (rooms w).
Proof.
  intros Hr Hempty. unfold cleanupRoomWith.
  rewrite bind_modify.
  erewrite bind_eq; [|apply thisRoom_eq; wsimpl; exact Hr].
  rewrite Hempty. cbn [forEach].
  assert (Hstat : forall w0 r0, roomObjs w0 !! this = Some r0 ->
            exists st, updateStatistics this act_remove w0 = Ret tt (set_roomStatistics st w0)).
  { intros w0 r0 H0. unfold updateStatistics. mrun (thisRoom_eq _ _ _ H0).
    unfold modify. eauto. }
  destruct (timerInterval r) as [h|] eqn:Htimer.
  - rewrite bind_assoc. unfold clearInterval at 1. rewrite bind_modify.
    erewrite bind_eq; [|apply updRoom_eq; wsimpl; exact Hr].
    rewrite bind_ret.
    erewrite bind_eq; [|apply updRoom_eq; apply put_room_lookup].
    rewrite put_room_put_room.
    edestruct Hstat as (st & Hst); [apply put_room_lookup|].
    erewrite bind_eq; [|exact Hst]. clear Hst.
    rewrite bind_modify.
    erewrite bind_eq; [|apply updRoom_eq; wsimpl; apply lookup_insert_eq].
    eexists. split; [reflexivity|]. wsimpl. split; [|reflexivity].
    constructor; wsimpl; auto.
    + intros a. destruct (decide (a = this)) as [->|Hne].
      * right. exists r. rewrite lookup_insert_eq. auto.
      * left. now rewrite !lookup_insert_ne by done.
    + apply keys_delete_sublist.
    + intros a r0 Ha Hr0 Hne. apply keys_delete_in; [done|]. congruence.
    + apply sublist_filter.
    + exists []. split; [now rewrite app_nil_r | constructor].
  - rewrite !bind_ret.
    erewrite bind_eq; [|apply updRoom_eq; wsimpl; exact Hr].
    edestruct Hstat as (st & Hst); [apply put_room_lookup|].
    erewrite bind_eq; [|exact Hst]. clear Hst.
    rewrite bind_modify.
    erewrite bind_eq; [|apply updRoom_eq; wsimpl; apply lookup_insert_eq].
    eexists. split; [reflexivity|]. wsimpl. split; [|reflexivity].
    constructor; wsimpl; auto.
    + intros a. destruct (decide (a = this)) as [->|Hne].
      * right. exists r. rewrite lookup_insert_eq. split; [done|]. split; [done|].
        f_equal. destruct r; simpl in *; subst; reflexivity.
      * left. now rewrite !lookup_insert_ne by done.
    + apply keys_delete_sublist.
    + intros a r0 Ha Hr0 Hne. apply keys_delete_in; [done|]. congruence.
    + exists []. split; [now rewrite app_nil_r | constructor].
Qed.

Lemma rooms_get_Some w a room :
  rooms_get (Some a) w = Some room ->
  room = a /\ a ∈ rooms w /\ exists r, roomObjs w !! a = Some r.
Proof.
  unfold rooms_get. case_bool_decide as Hin; [|done].
  destruct (roomObjs w !! a) as [r|] eqn:Hr; [|done].
  intros [= <-]. eauto.
Qed.

Lemma rooms_get_None w a :
  rooms_get (Some a) w = None -> a ∉ rooms w \/ roomObjs w !! a = None.
Proof.
  unfold rooms_get. case_bool_decide as Hin; [|auto].
  destruct (roomObjs w !! a) as [r|] eqn:Hr; [done | auto].
Qed.

Section Sweep.

Variable n : nat.
Variable bg : M unit.
Hypothesis bg_spec : forall w,
  (length (rooms w) < n)%nat ->
  exists w', bg w = Ret tt w' /\ Swept w w' /\ AllNonEmpty w'.

(** The body of [rooms.forEach] in [getAvailableRooms]. *)
Let visit (roomId : string) : M unit :=
  w <- gets id ;;
  match rooms_get (Some roomId) w with
  | Some room =>
      r <- thisRoom room ;;
      when (length (room_players r) =? 0)%nat (cleanupRoomWith bg room)
  | None => ret tt
  end.

Lemma sweep_loop ids : forall w,
  (length (rooms w) <= n)%nat ->
  exists w', forEach ids visit w = Ret tt w' /\ Swept w w' /\
    forall a r, a ∈ ids -> a ∈ rooms w' -> roomObjs w' !! a = Some r ->
                room_players r <> [].
Proof.
  induction ids as [|x ids IH]; intros w Hlen.
  - exists w. split; [reflexivity|]. split; [apply Swept_refl|].
    intros a r Ha. by apply elem_of_nil in Ha.
  - cbn [forEach]. unfold visit at 1. rewrite bind_assoc, bind_gets. unfold id at 1.
    destruct (rooms_get (Some x) w) as [room|] eqn:Hget.
    + apply rooms_get_Some in Hget as (-> & Hin & r & Hr).
      rewrite bind_assoc. mrun (thisRoom_eq _ _ _ Hr).
      destruct (length (room_players r) =? 0)%nat eqn:Hempty; cbn [when].
      * apply Nat.eqb_eq, length_zero_iff_nil in Hempty.
        destruct (cleanupRoomWith_empty bg x w r Hr Hempty) as (w1 & Hc & Hs1 & Hrooms1).
        destruct (bg_spec w1) as (w2 & Hbg & Hs2 & Hne2).
        { rewrite Hrooms1. pose proof (keys_delete_length x (rooms w) Hin). lia. }
        erewrite bind_eq; [|rewrite Hc; exact Hbg].
        destruct (IH w2) as (w' & Hloop & Hs' & Hpost).
        { pose proof (sublist_length _ _ (swept_rooms _ _ Hs2)).
          pose proof (sublist_length _ _ (swept_rooms _ _ Hs1)). lia. }
        exists w'. split; [exact Hloop|].
        split; [eauto using Swept_trans|].
        intros a r' Ha Hin' Hr'. apply elem_of_cons in Ha as [->|Ha]; [|eauto].
        exfalso. apply (keys_delete_not_in x (rooms w)). rewrite <- Hrooms1.
        eapply elem_of_sublist; [|apply Hs2].
        eapply elem_of_sublist; [exact Hin'|apply Hs'].
      * apply Nat.eqb_neq in Hempty.
        assert (room_players r <> []) as Hne by (intros E; rewrite E in Hempty; done).
        rewrite bind_ret.
        destruct (IH w Hlen) as (w' & Hloop & Hs' & Hpost).
        exists w'. split; [exact Hloop|]. split; [exact Hs'|].
        intros a r' Ha Hin' Hr'. apply elem_of_cons in Ha as [->|Ha]; [|eauto].
        rewrite (Swept_nonempty_same _ _ _ _ Hs' Hr Hne) in Hr'. congruence.
    + rewrite bind_ret.
      destruct (IH w Hlen) as (w' & Hloop & Hs' & Hpost).
      exists w'. split; [exact Hloop|]. split; [exact Hs'|].
      intros a r' Ha Hin' Hr'. apply elem_of_cons in Ha as [->|Ha]; [|eauto].
      exfalso. apply rooms_get_None in Hget as [Hnot|Hnone].
      * apply Hnot. eapply elem_of_sublist; [exact Hin'|apply Hs'].
      * destruct (swept_objs _ _ Hs' x) as [E|(r0 & Hr0 & _)]; congruence.
Qed.

Lemma getAvailableRoomsWith_spec w :
  (length (rooms w) <= n)%nat ->
  exists l w', getAvailableRoomsWith bg w = Ret l w' /\ Swept w w' /\ AllNonEmpty w'.
Proof.
  intros Hlen. unfold getAvailableRoomsWith. rewrite bind_gets.
  destruct (sweep_loop (rooms w) w Hlen) as (w' & Hloop & Hs & Hpost).
  erewrite bind_eq; [|exact Hloop]. rewrite bind_gets.
  eexists _, w'. split; [reflexivity|]. split; [exact Hs|].
  intros a r Ha Hr. eapply Hpost; eauto.
  eapply elem_of_sublist; [exact Ha | apply Hs].
Qed.

End Sweep.

Lemma getRoomStatistics_eq w :
  exists st, getRoomStatistics w = Ret st (set_roomStatistics st w).
Proof. unfold getRoomStatistics. rewrite bind_gets, bind_modify. eauto. Qed.

Lemma Swept_stats_log w st evs :
  Forall is_list_update evs ->
  Swept w (set_log (log w ++ evs) (set_roomStatistics st w)).
Proof.
  intros Hevs. constructor; wsimpl; auto. eauto.
Qed.

Lemma AllNonEmpty_stats_log w st l :
  AllNonEmpty w -> AllNonEmpty (set_log l (set_roomStatistics st w)).
Proof. intros H a r. wsimpl. apply H. Qed.

Lemma broadcastGlobalRoomListUpdate_rec_spec n : forall w,
  (length (rooms w) < n)%nat ->
  exists w', broadcastGlobalRoomListUpdate_rec n w = Ret tt w' /\
             Swept w w' /\ AllNonEmpty w'.
Proof.
  induction n as [|n IH]; intros w Hlen; [lia|].
  cbn [broadcastGlobalRoomListUpdate_rec].
  destruct (getAvailableRoomsWith_spec n _ IH w) as (l & w1 & Hav & Hs1 & Hne1); [lia|].
  erewrite bind_eq; [|exact Hav].
  destruct (getRoomStatistics_eq w1) as (st & Hst).
  erewrite bind_eq; [|exact Hst].
  unfold emit, modify. eexists. split; [reflexivity|]. wsimpl. split.
  - eapply Swept_trans; [exact Hs1|].
    apply (Swept_stats_log w1 st [_]).
    constructor; [|constructor]. split; [reflexivity|]. eauto.
  - now apply AllNonEmpty_stats_log.
Qed.

Lemma broadcastGlobalRoomListUpdate_spec w :
  exists w', broadcastGlobalRoomListUpdate w = Ret tt w' /\
             Swept w w' /\ AllNonEmpty w'.
Proof.
  unfold broadcastGlobalRoomListUpdate.
  apply broadcastGlobalRoomListUpdate_rec_spec. lia.
Qed.

Lemma getAvailableRooms_spec w :
  exists l w', getAvailableRooms w = Ret l w' /\ Swept w w' /\ AllNonEmpty w'.
Proof.
  unfold getAvailableRooms.
  apply (getAvailableRoomsWith_spec (S (length (rooms w)))); [|lia].
  intros w0 _. apply broadcastGlobalRoomListUpdate_spec.
Qed.

Lemma cleanupRoom_spec this w r :
  roomObjs w !! this = Some r -> room_players r = [] ->
  exists w', cleanupRoom this w = Ret tt w' /\ Swept w w' /\ AllNonEmpty w' /\
             this ∉ rooms w'.
Proof.
  intros Hr Hempty. unfold cleanupRoom.
  destruct (cleanupRoomWith_empty broadcastGlobalRoomListUpdate this w r Hr Hempty)
    as (w1 & Hc & Hs1 & Hrooms1).
  destruct (broadcastGlobalRoomListUpdate_spec w1) as (w' & Hbg & Hs2 & Hne).
  exists w'. split; [now rewrite Hc|]. split; [eauto using Swept_trans|].
  split; [exact Hne|]. intros Hin.
  apply (keys_delete_not_in this (rooms w)). rewrite <- Hrooms1.
  eapply elem_of_sublist; [exact Hin | apply Hs2].
Qed.

(** ** Leaving a room *)

Lemma put_room_same this r w : roomObjs w !! this = Some r -> put_room this r w = w.
Proof.
  intros Hr. unfold put_room, set_roomObjs. rewrite (insert_id _ _ _ Hr).
  now destruct w.
Qed.

Lemma set_roomStatistics_same w : set_roomStatistics (roomStatistics w) w = w.
Proof. now destruct w. Qed.

Lemma status_set_status s r : _status (status_set s r) = s.
Proof. unfold status_set. case_decide; [done | reflexivity]. Qed.

Lemma status_set_players s r : room_players (status_set s r) = room_players r.
Proof. unfold status_set. case_decide; reflexivity. Qed.

Lemma status_set_gameState s r : gameState (status_set s r) = gameState r.
Proof. unfold status_set. case_decide; reflexivity. Qed.

Lemma status_set_timerInterval s r : timerInterval (status_set s r) = timerInterval r.
Proof. unfold status_set. case_decide; reflexivity. Qed.

Lemma status_set_host s r : host (status_set s r) = host r.
Proof. unfold status_set. case_decide; reflexivity. Qed.

Lemma set_status_eq this s w r :
  roomObjs w !! this = Some r ->
  exists st, set_status this s w
             = Ret tt (set_roomStatistics st (put_room this (status_set s r) w)).
Proof.
  intros Hr. unfold set_status, status_set. mrun (thisRoom_eq _ _ _ Hr).
  case_decide as Hs.
  - exists (roomStatistics w). rewrite (put_room_same _ _ _ Hr).
    now rewrite set_roomStatistics_same.
  - mrun (updRoom_eq _ (with_status (Some (_status r)) s) _ _ Hr).
    unfold updateStatistics.
    erewrite bind_eq; [|apply thisRoom_eq, put_room_lookup].
    unfold modify. eauto.
Qed.

Lemma clearInterval_eq x w :
  exists l, clearInterval x w = Ret tt (set_intervals l w) /\
            sublist l (intervals w).
Proof.
  destruct x as [h|]; cbn [clearInterval]; unfold modify, ret.
  - eexists. split; [reflexivity | apply sublist_filter].
  - exists (intervals w). split; [now destruct w | reflexivity].
Qed.

Lemma Swept_lookup w w' a r :
  Swept w w' -> roomObjs w !! a = Some r ->
  exists r', roomObjs w' !! a = Some r' /\
    room_players r' = room_players r /\ _status r' = _status r /\
    host r' = host r /\
    (room_players r <> [] -> r' = r).
Proof.
  intros Hs Hr. destruct (swept_objs _ _ Hs a) as [E|(r0 & Hr0 & He & E)].
  - exists r. rewrite E. auto.
  - assert (r0 = r) as -> by congruence.
    exists (cleaned r). split; [exact E|]. cbn. rewrite He. tauto.
Qed.

Lemma Swept_lookup_None w w' a :
  Swept w w' -> roomObjs w !! a = None -> roomObjs w' !! a = None.
Proof.
  intros Hs Hr. destruct (swept_objs _ _ Hs a) as [E|(r0 & Hr0 & _)]; congruence.
Qed.

Lemma endGameDueToInsufficientPlayers_spec this w r :
  roomObjs w !! this = Some r ->
  exists w' r', endGameDueToInsufficientPlayers this w = Ret tt w' /\
    AllNonEmpty w' /\
    roomObjs w' !! this = Some r' /\
    room_players r' = room_players r /\ _status r' = finished /\
    (room_players r <> [] -> r' = with_gameState None (status_set finished r)).
Proof.
  intros Hr. unfold endGameDueToInsufficientPlayers.
  mrun (thisRoom_eq _ _ _ Hr).
  destruct (clearInterval_eq (timerInterval r) w) as (l & Hcl & _).
  erewrite bind_eq; [|exact Hcl].
  erewrite bind_eq; [|apply broadcastToRoom_eq; wsimpl; exact Hr].
  erewrite bind_eq; [|apply broadcastToRoom_eq; wsimpl; exact Hr].
  edestruct (set_status_eq this finished) as (st & Hst); [|erewrite bind_eq; [|exact Hst]].
  { wsimpl. exact Hr. }
  erewrite bind_eq; [|apply updRoom_eq; wsimpl; apply lookup_insert_eq].
  match goal with |- exists w' r', broadcastGlobalRoomListUpdate ?w0 = _ /\ _ =>
    destruct (broadcastGlobalRoomListUpdate_spec w0) as (w' & Hbg & Hs & Hne) end.
  edestruct Swept_lookup as (r' & Hr' & Hp & Hst' & _ & Hsame);
    [exact Hs | wsimpl; apply lookup_insert_eq |].
  wsimpl. rewrite status_set_players in Hp, Hsame. rewrite status_set_status in Hst'.
  exists w', r'. auto 10.
Qed.

Lemma removePlayer_spec w this playerId r :
  roomObjs w !! this = Some r ->
  exists w' r', removePlayer this playerId w = Ret tt w' /\
    roomObjs w' !! this = Some r' /\
    (_status r' = _status r \/ _status r = playing) /\
    (playerId ∉ room_players r -> w' = w) /\
    (playerId ∈ room_players r ->
       AllNonEmpty w' /\
       room_players r' = keys_delete playerId (room_players r)).
Proof.
  intros Hr. unfold removePlayer. mrun (thisRoom_eq _ _ _ Hr).
  case_bool_decide as Hmem.
  2:{ exists w, r. split; [reflexivity|]. split; [exact Hr|]. split; [auto|].
      split; [auto | done]. }
  mrun (updRoom_eq _ (fun r => with_room_players (keys_delete playerId (room_players r)) r)
          _ _ Hr).
  rewrite bind_gets.
  erewrite bind_eq; [|apply broadcastToRoom_eq; apply put_room_lookup].
  erewrite bind_eq; [|apply thisRoom_eq; wsimpl; apply lookup_insert_eq].
  wsimpl.
  (* every way out ends in a sweep of the registry *)
  assert (Hexit : forall w0 r0,
    roomObjs w0 !! this = Some r0 ->
    room_players r0 = keys_delete playerId (room_players r) ->
    _status r0 = _status r ->
    exists w' r',
      (if bool_decide (_status r0 = playing) && (length (room_players r0) <=? 1)%nat
       then endGameDueToInsufficientPlayers this
       else if (length (room_players r0) =? 0)%nat then cleanupRoom this
       else broadcastGlobalRoomListUpdate) w0 = Ret tt w' /\
      roomObjs w' !! this = Some r' /\
      (_status r' = _status r \/ _status r = playing) /\
      (playerId ∉ room_players r -> w' = w) /\
      (playerId ∈ room_players r ->
         AllNonEmpty w' /\
         room_players r' = keys_delete playerId (room_players r))).
  { intros w0 r0 H0 Hp0 Hs0.
    destruct (bool_decide (_status r0 = playing)) eqn:Hplaying; cbn [andb].
    - apply bool_decide_eq_true in Hplaying.
      destruct (length (room_players r0) <=? 1)%nat.
      + destruct (endGameDueToInsufficientPlayers_spec this w0 r0 H0)
          as (w' & r' & He & Hne & Hr' & Hp' & _).
        exists w', r'. rewrite Hp', Hp0. split; [done|]. split; [done|].
        split; [right; congruence|]. split; [done | auto].
      + destruct (length (room_players r0) =? 0)%nat eqn:Hlen.
        * apply Nat.eqb_eq, length_zero_iff_nil in Hlen.
          destruct (cleanupRoom_spec this w0 r0 H0 Hlen) as (w' & Hc & Hs & Hne & _).
          destruct (Swept_lookup _ _ this _ Hs H0) as (r' & Hr' & Hp' & Hst' & _).
          exists w', r'. rewrite Hp', Hp0. split; [done|]. split; [done|].
          split; [left; congruence|]. split; [done | auto].
        * destruct (broadcastGlobalRoomListUpdate_spec w0) as (w' & Hbg & Hs & Hne).
          destruct (Swept_lookup _ _ this _ Hs H0) as (r' & Hr' & Hp' & Hst' & _).
          exists w', r'. rewrite Hp', Hp0. split; [done|]. split; [done|].
          split; [left; congruence|]. split; [done | auto].
    - destruct (length (room_players r0) =? 0)%nat eqn:Hlen.
      + apply Nat.eqb_eq, length_zero_iff_nil in Hlen.
        destruct (cleanupRoom_spec this w0 r0 H0 Hlen) as (w' & Hc & Hs & Hne & _).
        destruct (Swept_lookup _ _ this _ Hs H0) as (r' & Hr' & Hp' & Hst' & _).
        exists w', r'. rewrite Hp', Hp0. split; [done|]. split; [done|].
        split; [left; congruence|]. split; [done | auto].
      + destruct (broadcastGlobalRoomListUpdate_spec w0) as (w' & Hbg & Hs & Hne).
        destruct (Swept_lookup _ _ this _ Hs H0) as (r' & Hr' & Hp' & Hst' & _).
        exists w', r'. rewrite Hp', Hp0. split; [done|]. split; [done|].
        split; [left; congruence|]. split; [done | auto]. }
  destruct (keys_delete playerId (room_players r)) as [|newHostId rest] eqn:Hrest.
  - rewrite bind_ret.
    erewrite bind_eq; [|apply thisRoom_eq; wsimpl; apply lookup_insert_eq].
    erewrite bind_eq; [|apply broadcastToRoom_eq; wsimpl; apply lookup_insert_eq].
    apply Hexit; [wsimpl; apply lookup_insert_eq | reflexivity | reflexivity].
  - case_bool_decide as Hhost.
    + rewrite bind_assoc.
      erewrite bind_eq; [|apply updRoom_eq; wsimpl; apply lookup_insert_eq].
      erewrite bind_eq; [|apply broadcastToRoom_eq; apply put_room_lookup].
      erewrite bind_eq; [|apply thisRoom_eq; wsimpl; apply lookup_insert_eq].
      erewrite bind_eq; [|apply broadcastToRoom_eq; wsimpl; apply lookup_insert_eq].
      apply Hexit; [wsimpl; apply lookup_insert_eq | reflexivity | reflexivity].
    + rewrite bind_ret.
      erewrite bind_eq; [|apply thisRoom_eq; wsimpl; apply lookup_insert_eq].
      erewrite bind_eq; [|apply broadcastToRoom_eq; wsimpl; apply lookup_insert_eq].
      apply Hexit; [wsimpl; apply lookup_insert_eq | reflexivity | reflexivity].
Qed.

(** C3.  [removePlayer] returns.  When it removes a member, a room left
    without members is out of the registry afterwards, whatever its status
    was; in particular removing the only member deregisters the room.  A
    call for a player who is not a member changes nothing. *)
Theorem removePlayer_deregisters w this playerId r :
  roomObjs w !! this = Some r ->
  exists w', removePlayer this playerId w = Ret tt w' /\
    (playerId ∈ room_players r ->
     forall r', roomObjs w' !! this = Some r' -> room_players r' = [] ->
                this ∉ rooms w') /\
    (playerId ∉ room_players r -> w' = w) /\
    (room_players r = [playerId] ->
     (this ∉ rooms w') /\
     exists r', roomObjs w' !! this = Some r' /\ room_players r' = []).
Proof.
  intros Hr.
  destruct (removePlayer_spec w this playerId r Hr)
    as (w' & r' & Hrun & Hr' & _ & Hout & Hin).
  exists w'. split; [exact Hrun|]. split; [|split].
  - intros Hmem r'0 Hr'0 Hempty.
    destruct (Hin Hmem) as [Hne _]. intros Hreg. exact (Hne this r'0 Hreg Hr'0 Hempty).
  - exact Hout.
  - intros Hlast.
    assert (playerId ∈ room_players r) as Hmem by (rewrite Hlast; by left).
    destruct (Hin Hmem) as [Hne Hroster].
    assert (room_players r' = []) as Hempty.
    { rewrite Hroster, Hlast. unfold keys_delete. rewrite filter_cons.
      rewrite decide_False; [apply filter_nil|].
      intros H. apply negb_True in H. rewrite bool_decide_spec in H. done. }
    split; [|eauto]. intros Hreg. exact (Hne this r' Hreg Hr' Hempty).
Qed.

(** ** Guesses, scores and the winner *)

Lemma broadcast_events_ext w1 r1 w r p ex :
  playerObjs w1 = playerObjs w -> room_players r1 = room_players r ->
  broadcast_events w1 r1 p ex = broadcast_events w r p ex.
Proof. unfold broadcast_events, recipients. now intros -> ->. Qed.

Lemma checkForWinner_spec this w r gs :
  roomObjs w !! this = Some r ->
  gameState r = Some gs ->
  _status r = playing ->
  (length (room_players r) <=? 1)%nat = false ->
  exists w' r', checkForWinner this w = Ret tt w' /\
    roomObjs w' !! this = Some r' /\
    gameState r' = Some gs /\ room_players r' = room_players r /\
    timerInterval r' = timerInterval r /\
    timeouts w' = timeouts w /\ playerObjs w' = playerObjs w /\
    match find (fun e => jsnum_geb (snd e) WINNING_SCORE) (scores gs) with
    | Some (p, s) =>
        if bool_decide (p ∈ room_players r) then
          _status r' = finished /\
          exists post, log w' = (log w ++ broadcast_events w r (game_ended p s) None ++ post)%list
        else w' = w
    | None => w' = w
    end.
Proof.
  intros Hr Hgs Hst Hlen. unfold checkForWinner.
  mrun (thisGameState_eq _ _ _ _ Hr Hgs).
  assert (Hquiet :
    (r0 <- thisRoom this ;;
     if bool_decide (_status r0 = playing) && (length (room_players r0) <=? 1)%nat
     then endGameDueToInsufficientPlayers this else ret tt) w = Ret tt w).
  { mrun (thisRoom_eq _ _ _ Hr). now rewrite Hlen, andb_false_r. }
  destruct (find _ (scores gs)) as [[p s]|] eqn:Hfind; cbv beta iota.
  2:{ rewrite bind_ret. exists w, r. rewrite Hquiet. auto 10. }
  rewrite bind_assoc. mrun (thisRoom_eq _ _ _ Hr).
  case_bool_decide as Hmem.
  2:{ rewrite bind_ret. exists w, r. rewrite Hquiet. auto 10. }
  rewrite !bind_assoc.
  mrun (broadcastToRoom_eq this (game_ended p s) None _ _ Hr).
  rewrite !bind_assoc.
  edestruct (set_status_eq this finished) as (st & Hset);
    [|erewrite bind_eq; [|exact Hset]].
  { wsimpl. exact Hr. }
  rewrite !bind_assoc.
  match goal with |- context [clearInterval ?x ;; _] =>
    match goal with |- context [bind _ _ ?w0] =>
      destruct (clearInterval_eq x w0) as (l & Hcl & _) end end.
  erewrite bind_eq; [|exact Hcl]. clear Hcl.
  rewrite !bind_assoc.
  match goal with |- context [bind broadcastGlobalRoomListUpdate _ ?w0] =>
    destruct (broadcastGlobalRoomListUpdate_spec w0) as (w1 & Hbg & Hs & _) end.
  erewrite bind_eq; [|exact Hbg]. clear Hbg.
  assert (Hne : room_players (status_set finished r) <> []).
  { rewrite status_set_players. intros E. rewrite E in Hlen. discriminate. }
  assert (Hr1 : roomObjs w1 !! this = Some (status_set finished r)).
  { eapply Swept_nonempty_same; [exact Hs| |exact Hne]. wsimpl. apply lookup_insert_eq. }
  rewrite bind_assoc, bind_gets.
  erewrite bind_eq; [|apply broadcastToRoom_eq; exact Hr1].
  erewrite bind_eq; [|apply thisRoom_eq; wsimpl; exact Hr1].
  rewrite status_set_status. cbn [bool_decide decide_rel andb].
  replace (bool_decide (finished = playing)) with false by reflexivity.
  cbn [andb]. unfold ret.
  eexists _, _. split; [reflexivity|]. wsimpl.
  split; [exact Hr1|].
  rewrite status_set_gameState, status_set_players, status_set_timerInterval,
    status_set_status.
  rewrite (swept_timeouts _ _ Hs), (swept_playerObjs _ _ Hs). wsimpl.
  repeat (split; [done|]).
  destruct (swept_log _ _ Hs) as (evs & Hlog & _). rewrite Hlog. wsimpl.
  eexists. rewrite <- !app_assoc. reflexivity.
Qed.

Lemma two_members (l : list string) x y :
  x ∈ l -> y ∈ l -> x <> y -> (length l <=? 1)%nat = false.
Proof.
  intros Hx Hy Hne. apply Nat.leb_gt.
  destruct l as [|a [|b l]]; simpl; try lia.
  - by apply elem_of_nil in Hx.
  - apply list_elem_of_singleton in Hx, Hy. congruence.
Qed.

Lemma scores_get_add_eq k v t s :
  scores_get k t = Some s -> scores_get k (scores_add k v t) = Some (jsnum_add s v).
Proof.
  induction t as [|[k' s'] t IH]; simpl; [done|].
  case_decide as Hk; simpl.
  - rewrite decide_True by done. congruence.
  - rewrite decide_False by done. exact IH.
Qed.

Lemma scores_get_add_ne k k' v t :
  k' <> k -> scores_get k' (scores_add k v t) = scores_get k' t.
Proof.
  intros Hne. induction t as [|[k0 s0] t IH]; simpl.
  - rewrite decide_False by done. reflexivity.
  - destruct (decide (k0 = k)) as [->|Hk]; simpl.
    + rewrite !decide_False by done. reflexivity.
    + case_decide; [reflexivity | exact IH].
Qed.

Lemma scores_add_elem k v t q s :
  (q, s) ∈ scores_add k v t -> q = k \/ (q, s) ∈ t.
Proof.
  induction t as [|[k0 s0] t IH]; simpl.
  - intros H. apply list_elem_of_singleton in H. injection H as -> _. auto.
  - case_decide as Hk.
    + intros [H|H]%elem_of_cons; [injection H as -> _; auto|].
      right. by right.
    + intros [H|H]%elem_of_cons; [right; rewrite H; by left|].
      destruct (IH H) as [?|?]; [auto|]. right. by right.
Qed.

(** A guess that scores: what [handleGuess] does with it. *)
Lemma handleGuess_correct w this r gs drawer playerId word guess :
  roomObjs w !! this = Some r ->
  _status r = playing ->
  gameState r = Some gs ->
  drawingPlayerId gs = Some drawer ->
  playerId <> drawer ->
  currentWord gs = Some word ->
  guess_matches guess word = true ->
  drawer ∈ room_players r ->
  playerId ∈ room_players r ->
  let timeBonus := timer gs / 10 * 10 in
  let table := scores_add playerId (30 + timeBonus)
                 (scores_add drawer (40 + timeBonus) (scores gs)) in
  exists w' r', handleGuess this playerId guess w = Ret tt w' /\
    roomObjs w' !! this = Some r' /\
    gameState r' = Some (with_scores table gs) /\
    room_players r' = room_players r /\
    timeouts w' = (timeouts w ++ [this])%list /\
    match find (fun e => jsnum_geb (snd e) WINNING_SCORE) table with
    | Some (p, s) =>
        if bool_decide (p ∈ room_players r) then
          _status r' = finished /\
          exists post,
            log w' =
              (log w ++
               broadcast_events w r
                 (correct_guess playerId drawer (30 + timeBonus) (40 + timeBonus) table)
                 None ++
               broadcast_events w r (game_ended p s) None ++ post)%list
        else _status r' = playing
    | None => _status r' = playing
    end.
Proof.
  intros Hr Hst Hgs Hd Hne Hword Hmatch Hdm Hpm timeBonus table.
  unfold handleGuess. mrun (thisRoom_eq _ _ _ Hr).
  rewrite Hst. cbn [negb]. rewrite bool_decide_eq_true_2 by done. cbn [negb].
  mrun (thisGameState_eq _ _ _ _ Hr Hgs).
  rewrite Hd, bool_decide_eq_false_2 by congruence.
  rewrite Hword, Hmatch.
  rewrite !bool_decide_eq_true_2 by done. cbn [andb].
  mrun (updGameState_eq _
          (fun g => with_scores (scores_add drawer (40 + timer gs / 10 * 10) (scores g)) g)
          _ _ _ Hr Hgs).
  erewrite bind_eq; [|apply updGameState_eq; [apply put_room_lookup | reflexivity]].
  rewrite put_room_put_room. wsimpl.
  erewrite bind_eq;
    [|eapply thisGameState_eq; [wsimpl; apply lookup_insert_eq | reflexivity]].
  erewrite bind_eq; [|apply broadcastToRoom_eq; wsimpl; apply lookup_insert_eq].
  fold timeBonus. fold table.
  pose proof (two_members _ _ _ Hpm Hdm Hne) as Hlen.
  edestruct (checkForWinner_spec this) as
    (w1 & r1 & Hcheck & Hr1 & Hgs1 & Hp1 & Ht1 & Hto1 & Hpo1 & Hwin);
    [| | | |erewrite bind_eq; [|exact Hcheck]].
  { wsimpl. apply lookup_insert_eq. }
  { reflexivity. }
  { exact Hst. }
  { exact Hlen. }
  clear Hcheck. wsimpl.
  mrun (thisRoom_eq _ _ _ Hr1).
  destruct (clearInterval_eq (timerInterval r1) w1) as (l & Hcl & _).
  erewrite bind_eq; [|exact Hcl].
  unfold setTimeout_startNewRound, modify.
  eexists _, r1. split; [reflexivity|]. wsimpl.
  split; [exact Hr1|]. split; [exact Hgs1|]. split; [exact Hp1|].
  split; [now rewrite Hto1|].
  assert (Hquiet : forall w0, w1 = w0 -> roomObjs w0 !! this = Some
            (with_gameState (Some (with_scores table gs)) r) -> _status r1 = playing).
  { intros w0 -> H0. rewrite H0 in Hr1. injection Hr1 as <-. exact Hst. }
  destruct (find _ table) as [[p s]|];
    [|eapply Hquiet; [exact Hwin | wsimpl; apply lookup_insert_eq]].
  destruct (bool_decide (p ∈ room_players r));
    [|eapply Hquiet; [exact Hwin | wsimpl; apply lookup_insert_eq]].
  destruct Hwin as (Hfin & post & Hlog). split; [exact Hfin|].
  exists post. rewrite Hlog. wsimpl. rewrite <- !app_assoc. do 2 f_equal.
Qed.


(** C1, amended.  In a playing room whose scores are all below 1000, when
    a correct guess raises a score to 1000 or more, [game_ended] goes out
    to the room and the status becomes [finished].  The event names the
    first entry of the score table that is at 1000 or more, together with
    its score; that entry is the drawer's or the guesser's, and it is the
    participant whose score was raised whenever no other entry is at 1000
    or more. *)
Theorem winning_guess_ends_game w this r gs drawer playerId word guess q sc :
  roomObjs w !! this = Some r ->
  _status r = playing ->
  gameState r = Some gs ->
  drawingPlayerId gs = Some drawer ->
  playerId <> drawer ->
  currentWord gs = Some word ->
  guess_matches guess word = true ->
  drawer ∈ room_players r ->
  playerId ∈ room_players r ->
  forallb (fun e => negb (jsnum_geb (snd e) WINNING_SCORE)) (scores gs) = true ->
  let timeBonus := timer gs / 10 * 10 in
  let table := scores_add playerId (30 + timeBonus)
                 (scores_add drawer (40 + timeBonus) (scores gs)) in
  (q, sc) ∈ table ->
  jsnum_geb sc WINNING_SCORE = true ->
  exists w' r' winner winnerScore post,
    handleGuess this playerId guess w = Ret tt w' /\
    roomObjs w' !! this = Some r' /\
    _status r' = finished /\
    find (fun e => jsnum_geb (snd e) WINNING_SCORE) table = Some (winner, winnerScore) /\
    (winner = drawer \/ winner = playerId) /\
    ((forall q' sc', (q', sc') ∈ table -> jsnum_geb sc' WINNING_SCORE = true ->
                     q' = q) -> winner = q) /\
    log w' =
      (log w ++
       broadcast_events w r
         (correct_guess playerId drawer (30 + timeBonus) (40 + timeBonus) table) None ++
       broadcast_events w r (game_ended winner winnerScore) None ++ post)%list.
Proof.
  intros Hr Hst Hgs Hd Hne Hword Hmatch Hdm Hpm Hbelow timeBonus table Hq Hsc.
  destruct (handleGuess_correct w this r gs drawer playerId word guess
              Hr Hst Hgs Hd Hne Hword Hmatch Hdm Hpm)
    as (w' & r' & Hrun & Hr' & _ & _ & _ & Hwin).
  fold timeBonus in Hwin. fold table in Hwin.
  destruct (find (fun e => jsnum_geb (snd e) WINNING_SCORE) table)
    as [[p s]|] eqn:Hfind.
  2:{ exfalso. apply list_elem_of_In in Hq.
      pose proof (find_none _ _ Hfind (q, sc) Hq) as Hno. cbn [snd] in Hno.
      congruence. }
  apply find_some in Hfind as Hp. destruct Hp as [Hin Hge]. cbn [snd] in Hge.
  apply list_elem_of_In in Hin.
  assert (Hwho : p = drawer \/ p = playerId).
  { apply scores_add_elem in Hin as [->|Hin]; [auto|].
    apply scores_add_elem in Hin as [->|Hin]; [auto|].
    exfalso. rewrite forallb_forall in Hbelow.
    apply list_elem_of_In, Hbelow in Hin. cbn [snd] in Hin.
    rewrite Hge in Hin. discriminate. }
  rewrite bool_decide_eq_true_2 in Hwin by (destruct Hwho; subst; done).
  destruct Hwin as (Hfin & post & Hlog).
  exists w', r', p, s, post. repeat (split; [done|]).
  split; [|exact Hlog]. intros Huniq. eauto.
Qed.

(** ** Rounds *)

Lemma startTimer_spec w this r :
  roomObjs w !! this = Some r ->
  exists w', startTimer this w = Ret tt w' /\
    roomObjs w' = <[this := with_timerInterval (Some (nextHandle w)) r]> (roomObjs w) /\
    log w' = log w /\ rooms w' = rooms w /\ playerObjs w' = playerObjs w /\
    players w' = players w /\ timeouts w' = timeouts w /\
    currentPlayer w' = currentPlayer w /\ wordLists w' = wordLists w /\
    (nextHandle w, this) ∈ intervals w'.
Proof.
  intros Hr. unfold startTimer. mrun (thisRoom_eq _ _ _ Hr).
  destruct (clearInterval_eq (timerInterval r) w) as (l & Hcl & _).
  erewrite bind_eq; [|exact Hcl].
  unfold setInterval. rewrite bind_assoc, bind_gets, bind_assoc, bind_modify, bind_ret.
  erewrite updRoom_eq; [|wsimpl; exact Hr].
  eexists. split; [reflexivity|]. wsimpl. repeat (split; [reflexivity|]).
  apply elem_of_app. right. by left.
Qed.

Lemma startNewRound_spec w this r gs rnd :
  roomObjs w !! this = Some r ->
  gameState r = Some gs ->
  let gs' := nextRound (wordsOf (wordLists w) (language r)) (room_players r) gs rnd in
  exists w', startNewRound this rnd w = Ret tt w' /\
    roomObjs w' =
      <[this := with_timerInterval (Some (nextHandle w)) (with_gameState (Some gs') r)]>
        (roomObjs w) /\
    log w' =
      (log w ++ broadcast_events w r
                  (new_round (drawingPlayerId gs') (currentWord gs') gs') None)%list /\
    rooms w' = rooms w /\ playerObjs w' = playerObjs w /\
    players w' = players w /\ timeouts w' = timeouts w /\
    currentPlayer w' = currentPlayer w /\ wordLists w' = wordLists w /\
    (nextHandle w, this) ∈ intervals w'.
Proof.
  intros Hr Hgs gs'. unfold startNewRound.
  mrun (thisGameState_eq _ _ _ _ Hr Hgs). mrun (thisRoom_eq _ _ _ Hr).
  erewrite bind_eq; [|apply updGameState_eq; [exact Hr | exact Hgs]].
  erewrite bind_eq; [|apply updGameState_eq; [apply put_room_lookup | reflexivity]].
  rewrite put_room_put_room.
  erewrite bind_eq; [|apply getRandomWord_eq; [apply put_room_lookup | reflexivity]].
  rewrite put_room_put_room.
  erewrite bind_eq; [|apply updGameState_eq; [apply put_room_lookup | reflexivity]].
  rewrite put_room_put_room.
  erewrite bind_eq; [|apply updGameState_eq; [apply put_room_lookup | reflexivity]].
  rewrite put_room_put_room.
  erewrite bind_eq; [|apply updGameState_eq; [apply put_room_lookup | reflexivity]].
  rewrite put_room_put_room.
  erewrite bind_eq; [|eapply thisGameState_eq; [apply put_room_lookup | reflexivity]].
  erewrite bind_eq; [|apply broadcastToRoom_eq; apply put_room_lookup].
  edestruct (startTimer_spec) as (w' & Hrun & Hobjs & Hlog & Hrest);
    [|rewrite Hrun].
  { wsimpl. apply lookup_insert_eq. }
  exists w'. split; [reflexivity|]. wsimpl.
  split; [rewrite Hobjs; wsimpl; apply insert_insert_eq|].
  split; [rewrite Hlog; wsimpl; reflexivity|].
  exact Hrest.
Qed.

(** ** Starting a game *)

Lemma with_gameState_same r gs : gameState r = Some gs -> with_gameState (Some gs) r = r.
Proof. destruct r; simpl; now intros ->. Qed.

Lemma with_scores_same gs : with_scores (scores gs) gs = gs.
Proof. now destruct gs. Qed.

Lemma forEach_scores this roster : forall w r gs,
  roomObjs w !! this = Some r ->
  gameState r = Some gs ->
  forEach roster (fun playerId =>
    updGameState this (fun g => with_scores (scores_set playerId (Num 0) (scores g)) g)) w
  = Ret tt (put_room this
              (with_gameState
                 (Some (with_scores
                          (foldl (fun table playerId => scores_set playerId (Num 0) table)
                                 (scores gs) roster) gs)) r) w).
Proof.
  induction roster as [|p roster IH]; intros w r gs Hr Hgs; cbn [forEach foldl].
  - rewrite with_scores_same, (with_gameState_same _ _ Hgs).
    now rewrite (put_room_same _ _ _ Hr).
  - erewrite bind_eq; [|apply updGameState_eq; [exact Hr | exact Hgs]].
    erewrite IH; [|apply put_room_lookup | reflexivity].
    rewrite put_room_put_room. reflexivity.
Qed.

Lemma scores_get_set k k' v t :
  scores_get k' (scores_set k v t)
  = if decide (k' = k) then Some v else scores_get k' t.
Proof.
  induction t as [|[k0 s0] t IH]; simpl.
  - repeat case_decide; congruence.
  - destruct (decide (k0 = k)) as [->|Hk]; simpl.
    + repeat case_decide; congruence.
    + rewrite IH. repeat case_decide; congruence.
Qed.

Lemma initialScores_get roster p :
  scores_get p (initialScores roster)
  = if bool_decide (p ∈ roster) then Some (Num 0) else None.
Proof.
  unfold initialScores.
  assert (Hgen : forall t,
    scores_get p (foldl (fun table playerId => scores_set playerId (Num 0) table) t roster)
    = if bool_decide (p ∈ roster) then Some (Num 0) else scores_get p t).
  { induction roster as [|x roster IH]; intros t; cbn [foldl].
    - reflexivity.
    - rewrite IH, scores_get_set.
      destruct (decide (p = x)) as [->|Hne].
      + rewrite (bool_decide_eq_true_2 (x ∈ x :: roster)) by (by left).
        now case_bool_decide.
      + case_bool_decide as H1; case_bool_decide as H2; try reflexivity.
        * exfalso. apply H2. by right.
        * exfalso. apply elem_of_cons in H2 as [?|?]; done. }
  apply Hgen.
Qed.

Lemma startGame_refused w this r rnd :
  roomObjs w !! this = Some r ->
  _status r <> waiting \/ (length (room_players r) < 2)%nat ->
  startGame this rnd w = Ret false w.
Proof.
  intros Hr Hguard. unfold startGame. mrun (thisRoom_eq _ _ _ Hr).
  destruct Hguard as [Hs|Hl].
  - now rewrite bool_decide_eq_false_2 by done.
  - apply Nat.ltb_lt in Hl. rewrite Hl. now rewrite orb_true_r.
Qed.



(** ** Rotation of the drawer *)

Lemma nth_error_lookup {A} (l : list A) i : nth_error l i = l !! i.
Proof. revert i. induction l as [|x l IH]; intros [|i]; simpl; auto. Qed.

Lemma rotate_Permutation {A} c (l : list A) : rotate c l ≡ₚ l.
Proof.
  unfold rotate. rewrite Permutation_app_comm. now rewrite take_drop.
Qed.

Lemma next_index_mod i n :
  -1 <= i -> 0 < n -> Z.rem (i + 1) n = (i + 1) mod n.
Proof. intros. apply Z.rem_mod_nonneg; lia. Qed.

Lemma drawersOf_eq this rnds : forall w r gs i,
  roomObjs w !! this = Some r ->
  gameState r = Some gs ->
  currentPlayerIndex gs = Num i ->
  -1 <= i ->
  room_players r <> [] ->
  drawersOf this rnds w
  = map (fun j : nat =>
           room_players r !!
             Z.to_nat ((i + 1 + Z.of_nat j) mod Z.of_nat (length (room_players r))))
        (seq 0 (length rnds)).
Proof.
  induction rnds as [|rnd rnds IH]; intros w r gs i Hr Hgs Hi Hlow Hne; [reflexivity|].
  cbn [drawersOf length seq map].
  destruct (startNewRound_spec w this r gs rnd Hr Hgs) as (w' & Hrun & Hobjs & _).
  rewrite Hrun. cbn [world_of].
  assert (Hn : 0 < Z.of_nat (length (room_players r))).
  { destruct (room_players r); [done | cbn [length]; lia]. }
  assert (Hr' : roomObjs w' !! this = Some
            (with_timerInterval (Some (nextHandle w))
               (with_gameState
                  (Some (nextRound (wordsOf (wordLists w) (language r))
                           (room_players r) gs rnd)) r))).
  { rewrite Hobjs. apply lookup_insert_eq. }
  f_equal.
  - unfold drawerOf. rewrite Hr'. cbn [gameState with_gameState
      with_timerInterval drawingPlayerId nextRound].
    rewrite Hi. cbn [jsnum_add jsnum_rem js_index].
    destruct (Z.eqb_spec (Z.of_nat (length (room_players r))) 0) as [E|_]; [lia|].
    rewrite next_index_mod by lia. rewrite Z.add_0_r. unfold js_index.
    destruct (Z.ltb_spec ((i + 1) mod Z.of_nat (length (room_players r))) 0) as [E|_].
    + pose proof (Z.mod_pos_bound (i + 1) _ Hn). lia.
    + apply nth_error_lookup.
  - erewrite IH; [|exact Hr'|reflexivity| | |].
    + cbn [room_players with_timerInterval with_gameState].
      rewrite <- fmap_S_seq. rewrite <- list_fmap_compose.
      apply list_fmap_ext. intros _ j _. cbn [compose]. do 2 f_equal.
      rewrite Nat2Z.inj_succ.
      replace (Z.rem (i + 1) (Z.of_nat (length (room_players r))) + 1 + Z.of_nat j)
        with ((i + 1) mod (Z.of_nat (length (room_players r))) + (1 + Z.of_nat j)).
      * rewrite Zplus_mod_idemp_l. f_equal. lia.
      * rewrite next_index_mod by lia. lia.
    + cbn [currentPlayerIndex nextRound]. rewrite Hi. cbn [jsnum_add jsnum_rem].
      destruct (Z.eqb_spec (Z.of_nat (length (room_players r))) 0) as [E|_]; [lia|].
      reflexivity.
    + rewrite next_index_mod by lia.
      pose proof (Z.mod_pos_bound (i + 1) _ Hn). lia.
    + exact Hne.
Qed.

(** C7, amended.  For rounds that follow one another on an unchanged
    roster: with two members or more the drawer of a round differs from the
    drawer of the round before, and the drawers of any [n] consecutive
    rounds, [n] the roster size, are the roster members, each once. *)
Theorem drawer_rotation w this r gs i rnds :
  roomObjs w !! this = Some r ->
  gameState r = Some gs ->
  currentPlayerIndex gs = Num i ->
  -1 <= i ->
  NoDup (room_players r) ->
  room_players r <> [] ->
  let n := length (room_players r) in
  let drawers := drawersOf this rnds w in
  (forall k d d',
     (2 <= n)%nat -> drawers !! k = Some d -> drawers !! S k = Some d' ->
     d <> d' /\
     exists p p', d = Some p /\ d' = Some p' /\
                  p ∈ room_players r /\ p' ∈ room_players r) /\
  (forall k, (k + n <= length rnds)%nat ->
     take n (drop k drawers) ≡ₚ map Some (room_players r)).
Proof.
  intros Hr Hgs Hi Hlow Hnodup Hne n drawers.
  assert (Hn : (0 < n)%nat).
  { subst n. destruct (room_players r); [done | cbn [length]; lia]. }
  assert (Hdrawers : drawers =
    map (fun j : nat => room_players r !! Z.to_nat ((i + 1 + Z.of_nat j) mod Z.of_nat n))
        (seq 0 (length rnds))).
  { apply (drawersOf_eq this rnds w r gs i Hr Hgs Hi Hlow Hne). }
  assert (Hbound : forall j : nat,
            (Z.to_nat ((i + 1 + Z.of_nat j) mod Z.of_nat n) < n)%nat).
  { intros j. pose proof (Z.mod_pos_bound (i + 1 + Z.of_nat j) (Z.of_nat n)). lia. }
  split.
  - intros k d d' Hn2 Hd Hd'. rewrite Hdrawers in Hd, Hd'.
    change (map ?f ?l) with (f <$> l) in Hd, Hd'.
    rewrite list_lookup_fmap in Hd, Hd'.
    destruct (seq 0 (length rnds) !! k) as [j|] eqn:Hj; [|done].
    destruct (seq 0 (length rnds) !! S k) as [j'|] eqn:Hj'; [|done].
    apply lookup_seq in Hj as [-> _]. apply lookup_seq in Hj' as [-> _].
    cbn [fmap option_fmap option_map] in Hd, Hd'.
    injection Hd as <-. injection Hd' as <-. cbn [Nat.add].
    destruct (lookup_lt_is_Some_2 (room_players r) _ (Hbound k)) as [p Hp].
    destruct (lookup_lt_is_Some_2 (room_players r) _ (Hbound (S k))) as [p' Hp'].
    rewrite Hp, Hp'. split.
    + intros [= <-].
      pose proof (NoDup_lookup _ _ _ _ Hnodup Hp Hp') as Heq.
      apply Z2Nat.inj in Heq.
      * rewrite Nat2Z.inj_succ in Heq.
        assert (2 <= Z.of_nat n) as Hn2' by lia.
        replace (i + 1 + Z.succ (Z.of_nat k)) with (i + 1 + Z.of_nat k + 1) in Heq by lia.
        revert Heq Hn2'. generalize (Z.of_nat n) (i + 1 + Z.of_nat k).
        intros m x Heq Hm.
        assert ((x + 1 - x) mod m = 0) as Hz.
        { rewrite Zminus_mod, <- Heq. now rewrite Z.sub_diag, Z.mod_0_l by lia. }
        replace (x + 1 - x) with 1 in Hz by lia.
        rewrite Z.mod_1_l in Hz by lia. discriminate.
      * apply Z.mod_pos_bound. lia.
      * apply Z.mod_pos_bound. lia.
    + exists p, p'. repeat split; try reflexivity;
        eapply list_elem_of_lookup_2; eauto.
  - intros k Hk. rewrite Hdrawers.
    change (map ?f ?l) with (f <$> l).
    rewrite <- fmap_drop, <- fmap_take, drop_seq, take_seq.
    replace (n `min` (length rnds - k))%nat with n by lia.
    transitivity
      (Some <$> rotate (Z.to_nat ((i + 1 + Z.of_nat k) mod Z.of_nat n)) (room_players r)).
    2:{ rewrite rotate_Permutation. reflexivity. }
    match goal with |- ?l1 ≡ₚ ?l2 => assert (l1 = l2) as ->; [|reflexivity] end.
    apply list_eq. intros j. rewrite !list_lookup_fmap.
    destruct (decide (j < n)%nat) as [Hj|Hj].
    + rewrite lookup_seq_lt by done. cbn [fmap option_fmap option_map].
      rewrite lookup_rotate_r by done. cbn [Nat.add].
      destruct (lookup_lt_is_Some_2 (room_players r) _ (Hbound (k + j)%nat)) as [p Hp].
      assert (rotate_nat_add (Z.to_nat ((i + 1 + Z.of_nat k) mod Z.of_nat n)) j
                (length (room_players r))
              = Z.to_nat ((i + 1 + Z.of_nat (k + j)) mod Z.of_nat n)) as ->.
      { unfold rotate_nat_add. fold n. f_equal.
        rewrite Z2Nat.id by (apply Z.mod_pos_bound; lia).
        rewrite Zplus_mod_idemp_l. f_equal. lia. }
      now rewrite Hp.
    + rewrite !lookup_ge_None_2; [reflexivity| |].
      * rewrite length_rotate. fold n. lia.
      * rewrite length_seq. lia.
Qed.

(** ** What every computation keeps *)

Section Respects.

Context (rho : RoomRel) `{!Good rho}.

Lemma lift_refl w : lift rho w w.
Proof. intros a r Hr. exists r. split; [done|]. now apply good_frame. Qed.

Lemma lift_trans w1 w2 w3 : lift rho w1 w2 -> lift rho w2 w3 -> lift rho w1 w3.
Proof.
  intros H12 H23 a r Hr.
  destruct (H12 a r Hr) as (r2 & Hr2 & Hrho12).
  destruct (H23 a r2 Hr2) as (r3 & Hr3 & Hrho23).
  exists r3. split; [done|]. eapply good_trans; eauto.
Qed.

Lemma lift_same_objs w w' : roomObjs w' = roomObjs w -> lift rho w w'.
Proof. intros E a r Hr. exists r. rewrite E. split; [done|]. now apply good_frame. Qed.

Lemma resp_ret {A} (a : A) : respects (lift rho) (ret a).
Proof. intros w. apply lift_refl. Qed.

Lemma resp_throw {A} e : respects (lift rho) (@throw A e).
Proof. intros w. apply lift_refl. Qed.

Lemma resp_gets {A} (f : World -> A) : respects (lift rho) (gets f).
Proof. intros w. apply lift_refl. Qed.

Lemma resp_bind {A B} (m : M A) (k : A -> M B) :
  respects (lift rho) m -> (forall a, respects (lift rho) (k a)) ->
  respects (lift rho) (x <- m ;; k x).
Proof.
  intros Hm Hk w. unfold bind. specialize (Hm w).
  destruct (m w) as [a w1|e w1]; cbn [world_of] in *; [|exact Hm].
  eapply lift_trans; [exact Hm | apply Hk].
Qed.

Lemma resp_try_catch {A} (m : M A) (h : Err -> M A) :
  respects (lift rho) m -> (forall e, respects (lift rho) (h e)) ->
  respects (lift rho) (try_catch m h).
Proof.
  intros Hm Hh w. unfold try_catch. specialize (Hm w).
  destruct (m w) as [a w1|e w1]; cbn [world_of] in *; [exact Hm|].
  eapply lift_trans; [exact Hm | apply Hh].
Qed.

Lemma resp_forEach {A} (l : list A) (f : A -> M unit) :
  (forall x, respects (lift rho) (f x)) -> respects (lift rho) (forEach l f).
Proof.
  intros Hf. induction l as [|x l IH]; cbn [forEach].
  - apply resp_ret.
  - apply resp_bind; auto.
Qed.

Lemma resp_modify (f : World -> World) :
  (forall w, roomObjs (f w) = roomObjs w) -> respects (lift rho) (modify f).
Proof. intros Hf w. apply lift_same_objs, Hf. Qed.

Lemma resp_emit a p : respects (lift rho) (emit a p).
Proof. now apply resp_modify. Qed.

Lemma resp_thisRoom this : respects (lift rho) (thisRoom this).
Proof. intros w. unfold thisRoom. destruct (roomObjs w !! this); apply lift_refl. Qed.

Lemma resp_updRoom_with this f :
  (forall r, rho this r (f r)) -> respects (lift rho) (updRoom this f).
Proof.
  intros Hf w a r Hr. unfold updRoom, modify. wsimpl.
  rewrite lookup_alter. case_decide as Heq.
  - subst a. rewrite Hr. cbn. eauto.
  - exists r. split; [done|]. now apply good_frame.
Qed.

Lemma resp_updRoom this f :
  (forall r, _status (f r) = _status r) ->
  (forall r, room_players (f r) ⊆ room_players r) ->
  respects (lift rho) (updRoom this f).
Proof. intros Hs Hp. apply resp_updRoom_with. intros r. now apply good_frame. Qed.

End Respects.

Lemma keys_delete_subseteq k l : keys_delete k l ⊆ l.
Proof. intros x Hx. unfold keys_delete in Hx. now apply list_elem_of_filter in Hx. Qed.

Create HintDb resp.

Ltac resp_side :=
  intros; wsimpl;
  first [ reflexivity | apply keys_delete_subseteq | apply list_subseteq_nil | done ].

Ltac resp_step :=
  match goal with
  | |- respects (lift ?rh) (ret _) => apply (resp_ret rh)
  | |- respects (lift ?rh) (throw _) => apply (resp_throw rh)
  | |- respects (lift ?rh) (gets _) => apply (resp_gets rh)
  | |- respects (lift ?rh) (emit _ _) => apply (resp_emit rh)
  | |- respects (lift ?rh) (thisRoom _) => apply (resp_thisRoom rh)
  | |- respects (lift ?rh) (bind _ _) => apply (resp_bind rh); [|intros ?]
  | |- respects (lift ?rh) (try_catch _ _) => apply (resp_try_catch rh); [|intros ?]
  | |- respects (lift ?rh) (forEach _ _) => apply (resp_forEach rh); intros ?
  | |- respects (lift ?rh) (modify _) => apply (resp_modify rh); intros ?; reflexivity
  | |- respects (lift ?rh) (updRoom _ _) => apply (resp_updRoom rh); resp_side
  | |- respects _ (when ?b _) => destruct b; cbn [when]
  | |- respects _ (match ?x with _ => _ end) => destruct x
  | |- respects _ _ => solve [eauto with resp]
  end.

Ltac resp := repeat resp_step.

Section Methods.

Context (rho : RoomRel) `{!Good rho}.

Lemma thisGameState_resp this : respects (lift rho) (thisGameState this).
Proof. unfold thisGameState. resp. Qed.
#[local] Hint Resolve thisGameState_resp : resp.

Lemma updGameState_resp this f : respects (lift rho) (updGameState this f).
Proof. unfold updGameState. resp. Qed.
#[local] Hint Resolve updGameState_resp : resp.

Lemma setInterval_resp this : respects (lift rho) (setInterval this).
Proof. unfold setInterval. resp. Qed.
#[local] Hint Resolve setInterval_resp : resp.

Lemma clearInterval_resp x : respects (lift rho) (clearInterval x).
Proof. unfold clearInterval. resp. Qed.
#[local] Hint Resolve clearInterval_resp : resp.

Lemma setTimeout_resp this : respects (lift rho) (setTimeout_startNewRound this).
Proof. unfold setTimeout_startNewRound. resp. Qed.
#[local] Hint Resolve setTimeout_resp : resp.

Lemma broadcastToRoom_resp this p ex : respects (lift rho) (broadcastToRoom this p ex).
Proof. unfold broadcastToRoom. resp. Qed.
#[local] Hint Resolve broadcastToRoom_resp : resp.

Lemma updateStatistics_resp this action :
  respects (lift rho) (updateStatistics this action).
Proof. unfold updateStatistics. resp. Qed.
#[local] Hint Resolve updateStatistics_resp : resp.

Lemma set_status_resp this s :
  allows rho this s -> respects (lift rho) (set_status this s).
Proof.
  intros Hs. unfold set_status. apply (resp_bind rho); [resp|]. intros r.
  destruct (decide (_status r = s)); [resp|].
  apply (resp_bind rho); [|intros ?; resp].
  apply (resp_updRoom_with rho). intros r0. apply Hs; [reflexivity|done].
Qed.
#[local] Hint Resolve set_status_resp : resp.

Lemma getRoomStatistics_resp : respects (lift rho) getRoomStatistics.
Proof. unfold getRoomStatistics. resp. Qed.
#[local] Hint Resolve getRoomStatistics_resp : resp.

Lemma cleanupRoomWith_resp bg this :
  respects (lift rho) bg -> respects (lift rho) (cleanupRoomWith bg this).
Proof. intros Hbg. unfold cleanupRoomWith. resp. Qed.
#[local] Hint Resolve cleanupRoomWith_resp : resp.

Lemma getAvailableRoomsWith_resp bg :
  respects (lift rho) bg -> respects (lift rho) (getAvailableRoomsWith bg).
Proof. intros Hbg. unfold getAvailableRoomsWith. resp. Qed.
#[local] Hint Resolve getAvailableRoomsWith_resp : resp.

Lemma broadcastGlobalRoomListUpdate_rec_resp n :
  respects (lift rho) (broadcastGlobalRoomListUpdate_rec n).
Proof.
  induction n as [|n IH]; cbn [broadcastGlobalRoomListUpdate_rec]; resp.
Qed.
#[local] Hint Resolve broadcastGlobalRoomListUpdate_rec_resp : resp.

Lemma broadcastGlobalRoomListUpdate_resp :
  respects (lift rho) broadcastGlobalRoomListUpdate.
Proof.
  intros w. unfold broadcastGlobalRoomListUpdate.
  apply broadcastGlobalRoomListUpdate_rec_resp.
Qed.
#[local] Hint Resolve broadcastGlobalRoomListUpdate_resp : resp.

Lemma cleanupRoom_resp this : respects (lift rho) (cleanupRoom this).
Proof. unfold cleanupRoom. resp. Qed.
#[local] Hint Resolve cleanupRoom_resp : resp.

Lemma getAvailableRooms_resp : respects (lift rho) getAvailableRooms.
Proof. unfold getAvailableRooms. resp. Qed.
#[local] Hint Resolve getAvailableRooms_resp : resp.

Lemma addPlayer_resp this playerId :
  lets_join rho this -> respects (lift rho) (addPlayer this playerId).
Proof.
  intros Hj. unfold addPlayer. apply (resp_bind rho); [resp|]. intros r.
  destruct (_ <=? _)%nat; [resp|].
  apply (resp_bind rho); [|intros ?; resp].
  apply (resp_updRoom_with rho). intros r0. now apply Hj.
Qed.
#[local] Hint Resolve addPlayer_resp : resp.

Lemma GameRoom_new_resp roomId hostId roomName lang :
  replaces rho roomId ->
  respects (lift rho) (GameRoom_new roomId hostId roomName lang).
Proof.
  intros Hnew.
  assert (lets_join rho roomId) as Hadm by (intros r r' _; apply Hnew).
  unfold GameRoom_new. apply (resp_bind rho); [|intros ?; resp].
  intros w a r Hr. unfold modify. wsimpl.
  destruct (decide (a = roomId)) as [->|Hne].
  - rewrite lookup_insert_eq. eauto.
  - rewrite lookup_insert_ne by done. exists r. split; [done|].
    now apply good_frame.
Qed.
#[local] Hint Resolve GameRoom_new_resp : resp.

Lemma endGameDueToInsufficientPlayers_resp this :
  allows rho this finished ->
  respects (lift rho) (endGameDueToInsufficientPlayers this).
Proof. intros Hs. unfold endGameDueToInsufficientPlayers. resp. Qed.
#[local] Hint Resolve endGameDueToInsufficientPlayers_resp : resp.

Lemma removePlayer_resp this playerId :
  allows rho this finished -> respects (lift rho) (removePlayer this playerId).
Proof. intros Hs. unfold removePlayer. resp. Qed.
#[local] Hint Resolve removePlayer_resp : resp.

Lemma addChatMessage_resp this sender message :
  respects (lift rho) (addChatMessage this sender message).
Proof. unfold addChatMessage. resp. Qed.
#[local] Hint Resolve addChatMessage_resp : resp.

Lemma getChatHistory_resp this : respects (lift rho) (getChatHistory this).
Proof. unfold getChatHistory. resp. Qed.
#[local] Hint Resolve getChatHistory_resp : resp.

Lemma getRandomWord_resp this rnd : respects (lift rho) (getRandomWord this rnd).
Proof. unfold getRandomWord. resp. Qed.
#[local] Hint Resolve getRandomWord_resp : resp.

Lemma startTimer_resp this : respects (lift rho) (startTimer this).
Proof. unfold startTimer. resp. Qed.
#[local] Hint Resolve startTimer_resp : resp.

Lemma startNewRound_resp this rnd : respects (lift rho) (startNewRound this rnd).
Proof. unfold startNewRound. resp. Qed.
#[local] Hint Resolve startNewRound_resp : resp.

Lemma endRound_resp this : respects (lift rho) (endRound this).
Proof. unfold endRound. resp. Qed.
#[local] Hint Resolve endRound_resp : resp.

Lemma timerTick_resp this : respects (lift rho) (timerTick this).
Proof. unfold timerTick. resp. Qed.
#[local] Hint Resolve timerTick_resp : resp.

Lemma checkForWinner_resp this :
  allows rho this finished -> respects (lift rho) (checkForWinner this).
Proof. intros Hs. unfold checkForWinner. resp. Qed.
#[local] Hint Resolve checkForWinner_resp : resp.

Lemma handleGuess_resp this playerId guess :
  allows rho this finished -> respects (lift rho) (handleGuess this playerId guess).
Proof. intros Hs. unfold handleGuess. resp. Qed.
#[local] Hint Resolve handleGuess_resp : resp.

Lemma updateCanvas_resp this data : respects (lift rho) (updateCanvas this data).
Proof. unfold updateCanvas. resp. Qed.
#[local] Hint Resolve updateCanvas_resp : resp.

Lemma startGame_resp this rnd :
  allows rho this playing -> respects (lift rho) (startGame this rnd).
Proof. intros Hs. unfold startGame. resp. Qed.
#[local] Hint Resolve startGame_resp : resp.

Lemma resetGame_resp this :
  allows rho this waiting -> respects (lift rho) (resetGame this).
Proof. intros Hs. unfold resetGame. resp. Qed.
#[local] Hint Resolve resetGame_resp : resp.

End Methods.

#[local] Hint Resolve thisGameState_resp updGameState_resp setInterval_resp
  clearInterval_resp setTimeout_resp broadcastToRoom_resp updateStatistics_resp
  set_status_resp getRoomStatistics_resp cleanupRoomWith_resp
  getAvailableRoomsWith_resp broadcastGlobalRoomListUpdate_rec_resp
  broadcastGlobalRoomListUpdate_resp cleanupRoom_resp getAvailableRooms_resp
  addPlayer_resp GameRoom_new_resp endGameDueToInsufficientPlayers_resp
  removePlayer_resp addChatMessage_resp getChatHistory_resp getRandomWord_resp
  startTimer_resp startNewRound_resp endRound_resp timerTick_resp
  checkForWinner_resp handleGuess_resp updateCanvas_resp startGame_resp
  resetGame_resp : resp.

(** ** Statuses and rosters along a reaction *)

#[export] Instance rho_gen_Good S J : Good (rho_gen S J).
Proof.
  constructor.
  - intros a r1 r2 r3 [Hj12 Hs12] [Hj23 Hs23]. split.
    + destruct Hj12 as [?|H12]; [auto|]. destruct Hj23 as [?|H23]; [auto|].
      right. by etransitivity.
    + destruct Hs23 as [E|?]; [|auto]. rewrite E. exact Hs12.
  - intros a r r' Hs Hp. split; auto.
Qed.

#[export] Instance rho_ends_Good : Good rho_ends.
Proof.
  constructor.
  - intros a r1 r2 r3 [Hp12 Hs12] [Hp23 Hs23]. split; [by etransitivity|].
    destruct Hs12 as [E12|[E1 E2]]; destruct Hs23 as [E23|[E3 E4]];
      try (left; congruence); try (right; split; congruence).
  - intros a r r' Hs Hp. split; auto.
Qed.

#[export] Instance rho_starts_Good : Good rho_starts.
Proof.
  constructor.
  - intros a r1 r2 r3 [Hp12 Hs12] [Hp23 Hs23]. split; [by etransitivity|].
    destruct Hs12 as [E12|[E1 E2]]; destruct Hs23 as [E23|[E3 E4]];
      try (left; congruence); try (right; split; congruence).
  - intros a r r' Hs Hp. split; auto.
Qed.

#[local] Hint Resolve rho_gen_Good rho_ends_Good rho_starts_Good : resp.

(** A computation on room [this] that can only move [this] to status [s']
    ([rho_gen]), and does nothing unless [this] has status [s], moves no
    room except from [s] to [s']. *)
Lemma guarded_move {A} (m : M A) this (s s' : Status) :
  respects (lift (rho_gen (fun a st => a = this /\ st = s') (fun _ => False))) m ->
  (forall w r, roomObjs w !! this = Some r -> _status r <> s -> world_of (m w) = w) ->
  (forall w, roomObjs w !! this = None -> world_of (m w) = w) ->
  forall w a r, roomObjs w !! a = Some r ->
  exists r', roomObjs (world_of (m w)) !! a = Some r' /\
    room_players r' ⊆ room_players r /\
    (_status r' = _status r \/ (_status r = s /\ _status r' = s')).
Proof.
  intros Hgen Hguard Habsent w a r Ha.
  destruct (roomObjs w !! this) as [r0|] eqn:Hthis.
  - destruct (decide (_status r0 = s)) as [Hs|Hs].
    + destruct (Hgen w a r Ha) as (r' & Hr' & [[[]|Hp] Hst]).
      exists r'. split; [done|]. split; [done|].
      destruct Hst as [?|[-> ->]]; [auto|].
      right. split; [congruence | done].
    + rewrite (Hguard w r0 Hthis Hs). exists r. split; [done|]. split; [done | auto].
  - rewrite (Habsent w Hthis). exists r. split; [done|]. split; [done | auto].
Qed.

Lemma handleGuess_ends this playerId guess :
  respects (lift rho_ends) (handleGuess this playerId guess).
Proof.
  intros w a r Ha.
  apply (guarded_move (handleGuess this playerId guess) this playing finished);
    [| | |exact Ha].
  - apply handleGuess_resp; [apply rho_gen_Good|].
    intros r0 r' Hs Hp. split; auto.
  - intros w0 r0 H0 Hs. unfold handleGuess. mrun (thisRoom_eq _ _ _ H0).
    now rewrite bool_decide_eq_false_2 by done.
  - intros w0 H0. unfold handleGuess, bind, thisRoom. now rewrite H0.
Qed.

Lemma startGame_starts this rnd : respects (lift rho_starts) (startGame this rnd).
Proof.
  intros w a r Ha.
  apply (guarded_move (startGame this rnd) this waiting playing); [| | |exact Ha].
  - apply startGame_resp; [apply rho_gen_Good|].
    intros r0 r' Hs Hp. split; auto.
  - intros w0 r0 H0 Hs. unfold startGame. mrun (thisRoom_eq _ _ _ H0).
    now rewrite bool_decide_eq_false_2 by done.
  - intros w0 H0. unfold startGame, bind, thisRoom. now rewrite H0.
Qed.

Lemma removePlayer_ends this playerId :
  respects (lift rho_ends) (removePlayer this playerId).
Proof.
  intros w a r Ha.
  assert (Hgen : respects
            (lift (rho_gen (fun a st => a = this /\ st = finished) (fun _ => False)))
            (removePlayer this playerId)).
  { apply removePlayer_resp; [apply rho_gen_Good|].
    intros r0 r' Hs Hp. split; auto. }
  destruct (Hgen w a r Ha) as (r' & Hr' & [[[]|Hp] Hst]).
  exists r'. split; [done|]. split; [done|].
  destruct Hst as [?|[-> Hfin]]; [auto|].
  destruct (removePlayer_spec w this playerId r Ha)
    as (w' & r'' & Hrun & Hr'' & Hcase & _).
  rewrite Hrun in Hr'. cbn [world_of] in Hr'.
  assert (r'' = r') as -> by congruence.
  destruct Hcase as [?|?]; auto.
Qed.

#[local] Hint Resolve handleGuess_ends startGame_starts removePlayer_ends : resp.

Section Handlers.

Context (rho : RoomRel) `{!Good rho}.

Lemma handleConnection_resp sock : respects (lift rho) (handleConnection sock).
Proof. unfold handleConnection. resp. Qed.

Lemma handleGetRooms_resp sock : respects (lift rho) (handleGetRooms sock).
Proof. unfold handleGetRooms. resp. Qed.

Lemma handleCreateRoom_resp sock n rn l roomId playerId :
  replaces rho roomId ->
  respects (lift rho) (handleCreateRoom sock n rn l roomId playerId).
Proof. intros Hnew. unfold handleCreateRoom. resp. Qed.

Lemma handleJoinRoom_resp sock rid n playerId :
  (forall this, lets_join rho this) ->
  respects (lift rho) (handleJoinRoom sock rid n playerId).
Proof. intros Hadm. unfold handleJoinRoom. resp. Qed.

Lemma handleResetGame_resp sock :
  (forall this, allows rho this waiting) ->
  respects (lift rho) (handleResetGame sock).
Proof. intros Hs. unfold handleResetGame. resp. Qed.

Lemma handleUpdateCanvas_resp sock data :
  respects (lift rho) (handleUpdateCanvas sock data).
Proof. unfold handleUpdateCanvas. resp. Qed.

End Handlers.

Lemma handleStartGame_starts sock rnd :
  respects (lift rho_starts) (handleStartGame sock rnd).
Proof. unfold handleStartGame. resp. Qed.

Lemma handleSendMessage_ends sock message :
  respects (lift rho_ends) (handleSendMessage sock message).
Proof. unfold handleSendMessage. resp. Qed.

Lemma handleLeaveRoom_ends sock : respects (lift rho_ends) (handleLeaveRoom sock).
Proof. unfold handleLeaveRoom. resp. Qed.

Lemma handleDisconnect_ends sock : respects (lift rho_ends) (handleDisconnect sock).
Proof. unfold handleDisconnect. resp. Qed.

Lemma handleJoinRoom_rooms sock roomId_ playerName_ playerId w a r :
  roomObjs w !! a = Some r ->
  exists r',
    roomObjs (world_of (handleJoinRoom sock roomId_ playerName_ playerId w)) !! a
    = Some r' /\
    _status r' = _status r /\
    (_status r <> waiting -> room_players r' ⊆ room_players r).
Proof.
  intros Ha.
  assert (Hsame : forall w', roomObjs w' = roomObjs w ->
            exists r', roomObjs w' !! a = Some r' /\ _status r' = _status r /\
                       (_status r <> waiting -> room_players r' ⊆ room_players r)).
  { intros w' E. exists r. rewrite E. auto. }
  unfold handleJoinRoom.
  destruct (truthy roomId_) as [roomId|]; [|now apply Hsame].
  destruct (truthy playerName_) as [name|]; [|now apply Hsame].
  rewrite bind_gets. unfold id.
  destruct (rooms_get (Some roomId) w) as [room|] eqn:Hget; [|now apply Hsame].
  apply rooms_get_Some in Hget as (-> & Hreg & r0 & Hr0).
  mrun (thisRoom_eq _ _ _ Hr0).
  case_bool_decide as Hst; cbn [negb]; [|now apply Hsame].
  set (rho := rho_gen (fun _ _ => False) (fun this => this = roomId)).
  assert (lets_join rho roomId) as Hadm by (intros r1 r2 Hs; split; auto).
  match goal with |- context [world_of (try_catch ?m ?h w)] =>
    assert (respects (lift rho) (try_catch m h)) as Hresp by resp;
    destruct (Hresp w a r Ha) as (r' & Hr' & [Hj Hs]) end.
  exists r'. split; [exact Hr'|]. split; [destruct Hs; done|].
  intros Hnw. destruct Hj as [->|Hp]; [|exact Hp].
  exfalso. congruence.
Qed.

Lemma rho_gen_step i a r r' :
  rho_gen (fun _ _ => False) (fun _ => False) a r r' -> rho_step i a r r'.
Proof. intros [[[]|Hp] [Hs|[]]]. split; [left; exact Hs | auto]. Qed.

Lemma rho_ends_step i a r r' : rho_ends a r r' -> rho_step i a r r'.
Proof.
  intros [Hp Hs]. split; [|auto].
  destruct Hs as [?|[? ?]]; [left; done | do 3 right; done].
Qed.

Lemma lift_weaken (rho rho' : RoomRel) w w' :
  (forall a r r', rho a r r' -> rho' a r r') -> lift rho w w' -> lift rho' w w'.
Proof.
  intros Hsub H a r Ha. destruct (H a r Ha) as (r' & Hr' & Hrho). eauto.
Qed.

(** Every reaction, whether it completes or throws, keeps the room objects
    in place and moves each of them as [rho_step] allows. *)
Lemma react_rooms i w : enabled i w -> lift (rho_step i) w (world_of (react i w)).
Proof.
  intros Hen.
  assert (Hquiet : forall m : M unit,
    respects (lift (rho_gen (fun _ _ => False) (fun _ => False))) m ->
    lift (rho_step i) w (world_of (m w))).
  { intros m Hm. eapply lift_weaken; [apply rho_gen_step | apply Hm]. }
  assert (Hends : forall m : M unit,
    respects (lift rho_ends) m -> lift (rho_step i) w (world_of (m w))).
  { intros m Hm. eapply lift_weaken; [apply rho_ends_step | apply Hm]. }
  destruct i; cbn [react enabled] in *.
  - apply Hquiet, handleConnection_resp, _.
  - destruct Hen as [Hfresh _].
    intros a r Ha.
    assert (a <> roomId) as Hne by congruence.
    destruct (handleCreateRoom_resp
                (rho_gen (fun a _ => a = roomId) (fun a => a = roomId))
                sock playerName_ roomName_ language_ roomId playerId
                ltac:(intros r1 r2; split; auto) w a r Ha)
      as (r' & Hr' & [Hj Hs]).
    exists r'. split; [exact Hr'|]. split.
    + left. destruct Hs; done.
    + intros _. destruct Hj; done.
  - intros a r Ha.
    destruct (handleJoinRoom_rooms sock roomId_ playerName_ playerId w a r Ha)
      as (r' & Hr' & Hs & Hp).
    exists r'. split; [exact Hr'|]. split; [left; exact Hs | exact Hp].
  - intros a r Ha.
    destruct (handleStartGame_starts sock rnd w a r Ha) as (r' & Hr' & Hp & Hs).
    exists r'. split; [exact Hr'|]. split; [|auto].
    destruct Hs as [?|[? ?]]; [left; done|]. right. left. eauto.
  - intros a r Ha.
    destruct (handleResetGame_resp
                (rho_gen (fun _ s => s = waiting) (fun _ => False)) sock
                ltac:(intros this r1 r2 ? ?; split; auto) w a r Ha)
      as (r' & Hr' & [Hj Hs]).
    exists r'. split; [exact Hr'|]. split.
    + destruct Hs as [?|?]; [left; done|]. right. right. left. eauto.
    + intros _. destruct Hj; done.
  - apply Hends, handleSendMessage_ends.
  - apply Hquiet, handleUpdateCanvas_resp, _.
  - apply Hquiet. unfold handleClearCanvas. apply handleUpdateCanvas_resp, _.
  - apply Hquiet, handleGetRooms_resp, _.
  - apply Hends, handleLeaveRoom_ends.
  - apply Hends, handleDisconnect_ends.
  - apply Hquiet, timerTick_resp, _.
  - apply Hquiet. resp.
Qed.


(** C10.  A join request for a registered room whose status is not
    [waiting] changes the world by one [error] event to the caller and by
    nothing else; and no reaction of the server adds a member to a room
    that is not waiting. *)
Theorem join_needs_waiting sock roomId playerName_ playerId w r :
  roomId ∈ rooms w ->
  roomObjs w !! roomId = Some r ->
  _status r <> waiting ->
  (exists message,
     handleJoinRoom sock (Some roomId) playerName_ playerId w
     = Ret tt (set_log (log w ++ [mkEmit (to_socket sock) (error message)]) w)) /\
  (forall i w0 a r0,
     enabled i w0 -> roomObjs w0 !! a = Some r0 -> _status r0 <> waiting ->
     exists r', roomObjs (world_of (react i w0)) !! a = Some r' /\
                room_players r' ⊆ room_players r0).
Proof.
  intros Hreg Hr Hst. split.
  - unfold handleJoinRoom.
    destruct (truthy (Some roomId)) as [rid|] eqn:Hrid; [|eauto].
    assert (rid = roomId) as ->.
    { cbn [truthy] in Hrid. case_decide; congruence. }
    destruct (truthy playerName_) as [name|]; [|eauto].
    rewrite bind_gets. unfold id.
    assert (rooms_get (Some roomId) w = Some roomId) as ->.
    { unfold rooms_get. rewrite bool_decide_eq_true_2 by done. now rewrite Hr. }
    mrun (thisRoom_eq _ _ _ Hr).
    rewrite bool_decide_eq_false_2 by done. cbn [negb]. eauto.
  - intros i w0 a r0 Hen Ha Hnw.
    destruct (react_rooms i w0 Hen a r0 Ha) as (r' & Hr' & _ & Hp).
    eauto.
Qed.

(** ** The claims about guesses, timers and statuses at sample runs *)

(** C5, amended.  [handleGuess] lower-cases and trims the guess and
    lower-cases, without trimming, the secret word, and scores the guess
    exactly when the two results are equal.  So a guess that differs from
    a secret word only in letter case and in white space around the guess
    is correct when the secret word itself has no white space around it;
    and a guess that fails the test changes nothing. *)
Theorem guess_normalization pre core post word :
  all_ws pre = true ->
  all_ws post = true ->
  toLowerCase core = toLowerCase word ->
  trim word = word ->
  guess_matches (pre ++ core ++ post) word = true /\
  (forall guess,
     guess_matches guess word = true <-> trim (toLowerCase guess) = toLowerCase word) /\
  (forall w this r gs playerId guess,
     roomObjs w !! this = Some r -> gameState r = Some gs ->
     currentWord gs = Some word -> guess_matches guess word = false ->
     handleGuess this playerId guess w = Ret tt w).
Proof.
  intros Hpre Hpost Hcore Hword. split; [|split].
  - unfold guess_matches. apply bool_decide_eq_true.
    rewrite !toLowerCase_app.
    rewrite trim_ws_around by (now rewrite all_ws_lower).
    now rewrite Hcore, trim_lower, Hword.
  - intros guess. unfold guess_matches. apply bool_decide_eq_true.
  - intros w this r gs playerId guess Hr Hgs Hcw Hno.
    unfold handleGuess. mrun (thisRoom_eq _ _ _ Hr).
    destruct (negb (bool_decide (_status r = playing))); [reflexivity|].
    mrun (thisGameState_eq _ _ _ _ Hr Hgs).
    destruct (bool_decide (Some playerId = drawingPlayerId gs)); [reflexivity|].
    now rewrite Hcw, Hno.
Qed.

Lemma guess_normalization_witness :
  guess_matches (" " ++ "CaT" ++ "  ") "cat" = true.
Proof.
  apply (guess_normalization " " "CaT" "  " "cat"); reflexivity.
Defined.

(** C5 as stated fails: the secret word is not trimmed, so in a game
    whose word is "cat " (with a trailing space) neither the guess "cat"
    nor the word itself, typed as it is, is a correct guess. *)
Lemma word_not_trimmed :
  currentWord (the_round spaced_game "r1") = Some "cat " /\
  trim (toLowerCase "cat") = trim (toLowerCase "cat ") /\
  handleGuess "r1" "pB" "cat" spaced_game = Ret tt spaced_game /\
  handleGuess "r1" "pB" "cat " spaced_game = Ret tt spaced_game.
Proof. repeat split; vm_compute; reflexivity. Qed.

(** C4: the delayed continuation is not guarded.  The countdown of a round
    runs out, the host resets the game within the three seconds, and the
    timeout, still pending, calls [startNewRound] on the room without a
    [gameState]: a [TypeError] escapes the callback. *)
Theorem stale_timeout_throws :
  _status (the_room reset_pending "r1") = waiting /\
  gameState (the_room reset_pending "r1") = None /\
  enabled (on_timeout 0%nat "r1" 0%nat) reset_pending /\
  react (on_timeout 0%nat "r1" 0%nat) reset_pending
  = Throw (TypeError "Cannot read properties of null")
      (set_timeouts [] reset_pending).
Proof. repeat split; vm_compute; reflexivity. Qed.

(** The same continuation after a game was won: the room is finished, and
    the timeout still starts a round, with a [new_round] event, a new
    drawer and word, and the countdown armed again. *)
Lemma stale_timeout_after_win :
  let w' := world_of (react (on_timeout 0%nat "r1" 0%nat) game_won) in
  _status (the_room game_won "r1") = finished /\
  enabled (on_timeout 0%nat "r1" 0%nat) game_won /\
  existsb is_new_round (drop (length (log game_won)) (log w')) = true /\
  drawerOf game_won "r1" = Some "pA" /\ drawerOf w' "r1" = Some "pB" /\
  intervals game_won = [] /\ intervals w' <> [].
Proof. repeat split; vm_compute; (reflexivity || discriminate). Qed.

(** C1 as stated fails.  Bob's guess raises Bob's score from 950 to 1040,
    and Alice's, the drawer's, from 950 to 1050: [game_ended] names Alice,
    the first in the score table, and no event names Bob.  (And three
    seconds later a [new_round] event follows, see above.) *)
Lemma winning_guess_not_named :
  scores_get "pB" (scores (the_round game_late "r1")) = Some (Num 950) /\
  scores_get "pB" (scores (the_round game_won "r1")) = Some (Num 1040) /\
  _status (the_room game_won "r1") = finished /\
  existsb (names_winner "pA") (log game_won) = true /\
  existsb (names_winner "pB") (log game_won) = false.
Proof. repeat split; vm_compute; reflexivity. Qed.


(** C7 as stated fails when a member leaves between two rounds: Bob draws
    the second round, Alice leaves, and with two members on the roster Bob
    draws the third round as well. *)
Lemma drawer_repeats_after_leave :
  drawerOf trio_round2 "r1" = Some "pB" /\
  room_players (the_room trio_round3 "r1") = ["pB"; "pC"] /\
  drawerOf trio_round3 "r1" = Some "pB".
Proof. repeat split; vm_compute; reflexivity. Qed.

(** ** The theorems at sample runs *)

Ltac at_sample :=
  first [ exact I
        | reflexivity
        | discriminate
        | lia
        | vm_compute; reflexivity
        | vm_compute; discriminate
        | compute_done ].

Lemma winning_guess_ends_game_witness :
  exists w' r',
    handleGuess "r1" "pB" "cat" game_late = Ret tt w' /\
    roomObjs w' !! "r1" = Some r' /\ _status r' = finished.
Proof.
  destruct (winning_guess_ends_game game_late "r1"
              (the_room game_late "r1") (the_round game_late "r1")
              "pA" "pB" "cat" "cat" "pA" (Num 1050))
    as (w' & r' & winner & winnerScore & post & Hrun & Hr' & Hfin & _);
    [at_sample..|].
  exists w', r'. auto.
Defined.


Lemma removePlayer_deregisters_witness :
  exists w', removePlayer "r1" "pA" lobby1 = Ret tt w' /\ "r1" ∉ rooms w'.
Proof.
  destruct (removePlayer_deregisters lobby1 "r1" "pA" (the_room lobby1 "r1"))
    as (w' & Hrun & _ & _ & Hlast); [at_sample|].
  exists w'. split; [exact Hrun|]. apply Hlast. at_sample.
Defined.


Lemma drawer_rotation_witness :
  take 2 (drop 1 (drawersOf "r1" [0; 0; 0; 0]%nat game2))
  ≡ₚ [Some "pA"; Some "pB"].
Proof.
  destruct (drawer_rotation game2 "r1" (the_room game2 "r1")
              (the_round game2 "r1") 0 [0; 0; 0; 0]%nat)
    as [_ Hcycle]; [at_sample..|].
  apply (Hcycle 1%nat). vm_compute. lia.
Defined.



Lemma join_needs_waiting_witness :
  exists message,
    handleJoinRoom 3%nat (Some "r1") (Some "Carol") "pC" game2
    = Ret tt (set_log (log game2 ++ [mkEmit (to_socket 3%nat) (error message)]) game2).
Proof.
  apply (join_needs_waiting 3%nat "r1" (Some "Carol") "pC" game2
           (the_room game2 "r1")); at_sample.
Defined.

(** ** The registry sweep in closed form *)

Lemma getRoomStatistics_recount w :
  getRoomStatistics w = Ret (recount w) (set_roomStatistics (recount w) w).
Proof. reflexivity. Qed.

Lemma sweep_quiet bg ids : forall w,
  Populated w ->
  forEach ids (fun roomId =>
    w <- gets id ;;
    match rooms_get (Some roomId) w with
    | Some room =>
        r <- thisRoom room ;;
        when (length (room_players r) =? 0)%nat (cleanupRoomWith bg room)
    | None => ret tt
    end) w = Ret tt w.
Proof.
  induction ids as [|x ids IH]; intros w Hpop; [reflexivity|].
  cbn [forEach]. rewrite bind_assoc, bind_gets. unfold id at 1.
  destruct (rooms_get (Some x) w) as [room|] eqn:Hget.
  - apply rooms_get_Some in Hget as (-> & Hin & _).
    destruct (Hpop x Hin) as (r & Hr & Hne).
    rewrite bind_assoc. mrun (thisRoom_eq _ _ _ Hr).
    destruct (room_players r) as [|p l] eqn:E; [done|].
    cbn [length Nat.eqb when]. rewrite bind_ret. now apply IH.
  - rewrite bind_ret. now apply IH.
Qed.

Lemma getAvailableRoomsWith_quiet bg w :
  Populated w -> getAvailableRoomsWith bg w = Ret (listing w) w.
Proof.
  intros Hpop. unfold getAvailableRoomsWith. rewrite bind_gets.
  erewrite bind_eq; [|apply sweep_quiet, Hpop]. reflexivity.
Qed.

Lemma broadcastGlobalRoomListUpdate_rec_quiet n w :
  Populated w -> broadcastGlobalRoomListUpdate_rec (S n) w = Ret tt (announce w).
Proof.
  intros Hpop. cbn [broadcastGlobalRoomListUpdate_rec].
  erewrite bind_eq; [|apply getAvailableRoomsWith_quiet, Hpop].
  reflexivity.
Qed.

Lemma broadcastGlobalRoomListUpdate_quiet w :
  Populated w -> broadcastGlobalRoomListUpdate w = Ret tt (announce w).
Proof.
  intros. unfold broadcastGlobalRoomListUpdate.
  now apply broadcastGlobalRoomListUpdate_rec_quiet.
Qed.

Lemma getAvailableRooms_quiet w :
  Populated w -> getAvailableRooms w = Ret (listing w) w.
Proof. apply getAvailableRoomsWith_quiet. Qed.

Lemma with_timerInterval_same r : timerInterval r = None -> with_timerInterval None r = r.
Proof. destruct r; cbn; now intros ->. Qed.

Lemma updateStatistics_eq this action w r :
  roomObjs w !! this = Some r ->
  exists st, updateStatistics this action w = Ret tt (set_roomStatistics st w).
Proof.
  intros Hr. unfold updateStatistics. mrun (thisRoom_eq _ _ _ Hr).
  unfold modify. eauto.
Qed.

Lemma cleanupRoomWith_eq bg this w r :
  roomObjs w !! this = Some r -> room_players r = [] ->
  exists st, cleanupRoomWith bg this w = bg (set_roomStatistics st (cleanedW this r w)).
Proof.
  intros Hr Hempty. unfold cleanupRoomWith.
  rewrite bind_modify.
  erewrite bind_eq; [|apply thisRoom_eq; wsimpl; exact Hr].
  rewrite Hempty. cbn [forEach].
  destruct (timerInterval r) as [h|] eqn:Htimer.
  - rewrite bind_assoc. unfold clearInterval at 1. rewrite bind_modify.
    erewrite bind_eq; [|apply updRoom_eq; wsimpl; exact Hr].
    rewrite bind_ret.
    erewrite bind_eq; [|apply updRoom_eq; apply put_room_lookup].
    rewrite put_room_put_room.
    edestruct (updateStatistics_eq this act_remove) as (st & Hst); [apply put_room_lookup|].
    erewrite bind_eq; [|exact Hst]. clear Hst.
    rewrite bind_modify.
    erewrite bind_eq; [|apply updRoom_eq; wsimpl; apply lookup_insert_eq].
    exists st. f_equal. unfold cleanedW, cleaned, put_room, disarm. rewrite Htimer. wsimpl.
    unfold set_roomObjs. wsimpl. rewrite !insert_insert_eq. reflexivity.
  - rewrite !bind_ret.
    erewrite bind_eq; [|apply updRoom_eq; wsimpl; exact Hr].
    edestruct (updateStatistics_eq this act_remove) as (st & Hst); [apply put_room_lookup|].
    erewrite bind_eq; [|exact Hst]. clear Hst.
    rewrite bind_modify.
    erewrite bind_eq; [|apply updRoom_eq; wsimpl; apply lookup_insert_eq].
    exists st. f_equal. unfold cleanedW, cleaned, put_room, disarm. rewrite Htimer. wsimpl.
    unfold set_roomObjs. wsimpl. rewrite !insert_insert_eq.
    rewrite (with_timerInterval_same r Htimer). reflexivity.
Qed.

Lemma Populated_cleanedW this r w :
  PopulatedBut this w -> Populated (cleanedW this r w).
Proof.
  intros Hpop a Ha. unfold cleanedW in *. wsimpl.
  assert (a <> this) as Hne.
  { intros ->. by apply keys_delete_not_in in Ha. }
  rewrite lookup_insert_ne by done.
  apply Hpop; [|done]. eapply elem_of_sublist; [exact Ha | apply keys_delete_sublist].
Qed.

Lemma Populated_announce w : Populated w -> Populated (announce w).
Proof. intros H a. unfold announce. wsimpl. apply H. Qed.

Lemma Populated_stats st w : Populated w -> Populated (set_roomStatistics st w).
Proof. intros H a. wsimpl. apply H. Qed.

Lemma announce_stats st w : announce (set_roomStatistics st w) = announce w.
Proof. reflexivity. Qed.

(** [cleanupRoom] on a room without members, the other rooms having some. *)
Lemma cleanupRoom_eq this w r :
  roomObjs w !! this = Some r -> room_players r = [] -> PopulatedBut this w ->
  cleanupRoom this w = Ret tt (announce (cleanedW this r w)).
Proof.
  intros Hr Hempty Hpop. unfold cleanupRoom.
  destruct (cleanupRoomWith_eq broadcastGlobalRoomListUpdate this w r Hr Hempty)
    as (st & ->).
  rewrite broadcastGlobalRoomListUpdate_quiet; [reflexivity|].
  apply Populated_stats, Populated_cleanedW, Hpop.
Qed.

Lemma sweep_one n this r ids : forall w,
  roomObjs w !! this = Some r -> room_players r = [] -> this ∈ rooms w ->
  PopulatedBut this w ->
  forEach ids (fun roomId =>
    w <- gets id ;;
    match rooms_get (Some roomId) w with
    | Some room =>
        r <- thisRoom room ;;
        when (length (room_players r) =? 0)%nat
             (cleanupRoomWith (broadcastGlobalRoomListUpdate_rec (S n)) room)
    | None => ret tt
    end) w
  = Ret tt (if bool_decide (this ∈ ids) then announce (cleanedW this r w) else w).
Proof.
  induction ids as [|x ids IH]; intros w Hr Hempty Hin Hpop; [reflexivity|].
  cbn [forEach]. rewrite bind_assoc, bind_gets. unfold id at 1.
  destruct (decide (x = this)) as [->|Hne].
  - rewrite bool_decide_eq_true_2 by left.
    assert (rooms_get (Some this) w = Some this) as ->.
    { unfold rooms_get. rewrite bool_decide_eq_true_2 by done. now rewrite Hr. }
    rewrite bind_assoc. mrun (thisRoom_eq _ _ _ Hr). rewrite Hempty. cbn [length Nat.eqb when].
    destruct (cleanupRoomWith_eq (broadcastGlobalRoomListUpdate_rec (S n)) this w r Hr Hempty)
      as (st & Hc).
    assert (Populated (cleanedW this r w)) as Hpc by now apply Populated_cleanedW.
    erewrite bind_eq.
    2:{ rewrite Hc. apply broadcastGlobalRoomListUpdate_rec_quiet.
        now apply Populated_stats. }
    rewrite announce_stats. apply sweep_quiet. now apply Populated_announce.
  - assert (bool_decide (this ∈ x :: ids) = bool_decide (this ∈ ids)) as ->.
    { apply bool_decide_ext. rewrite elem_of_cons.
      split; [intros [?|?]; congruence || done | auto]. }
    destruct (rooms_get (Some x) w) as [room|] eqn:Hget.
    + apply rooms_get_Some in Hget as (-> & Hinx & _).
      destruct (Hpop x Hinx Hne) as (rx & Hrx & Hnex).
      rewrite bind_assoc. mrun (thisRoom_eq _ _ _ Hrx).
      destruct (room_players rx) as [|p l] eqn:E; [done|].
      cbn [length Nat.eqb when]. rewrite bind_ret. now apply IH.
    + rewrite bind_ret. now apply IH.
Qed.

(** [broadcastGlobalRoomListUpdate] when exactly the registered room
    [this] has no member: the sweep cleans it, which broadcasts the list
    once, and the caller's broadcast follows. *)
Lemma broadcastGlobalRoomListUpdate_one this w r :
  roomObjs w !! this = Some r -> room_players r = [] -> this ∈ rooms w ->
  PopulatedBut this w ->
  broadcastGlobalRoomListUpdate w = Ret tt (announce (announce (cleanedW this r w))).
Proof.
  intros Hr Hempty Hin Hpop. unfold broadcastGlobalRoomListUpdate.
  destruct (length (rooms w)) as [|n] eqn:Hlen.
  { apply length_zero_iff_nil in Hlen. rewrite Hlen in Hin. by apply elem_of_nil in Hin. }
  cbn [broadcastGlobalRoomListUpdate_rec].
  unfold getAvailableRoomsWith. rewrite bind_assoc, bind_gets.
  erewrite bind_eq.
  2:{ erewrite bind_eq; [|apply (sweep_one _ this r); eauto].
      rewrite bool_decide_eq_true_2 by done. rewrite bind_gets. reflexivity. }
  reflexivity.
Qed.

(** ** Invariants of the reachable worlds *)

Ltac base_names H :=
  destruct H as [Hbrooms Hbwords Hbreg Hbregnd Hbint Hbintnd Hbarmed Hbto Hbchat].

(** [Base] looks at seven components of the world. *)
Lemma Base_ext w w' :
  Base w ->
  wordLists w' = wordLists w -> rooms w' = rooms w -> roomObjs w' = roomObjs w ->
  roomChatHistory w' = roomChatHistory w -> intervals w' = intervals w ->
  nextHandle w' = nextHandle w -> timeouts w' = timeouts w ->
  Base w'.
Proof.
  intros HB E1 E2 E3 E4 E5 E6 E7. base_names HB.
  constructor; rewrite ?E1, ?E2, ?E3, ?E4, ?E5, ?E6, ?E7; assumption.
Qed.

Ltac base_ext H := apply (Base_ext _ _ H); reflexivity.

Lemma armed_sublist a l l' : sublist l l' -> armed a l -> armed a l'.
Proof. intros Hs [h Hh]. exists h. eapply elem_of_sublist; eauto. Qed.

Lemma disarm_sublist x l : sublist (disarm x l) l.
Proof. destruct x; cbn; [apply sublist_filter | reflexivity]. Qed.

(** After [clearInterval] of its handle a room is not armed. *)
Lemma disarm_not_armed this r w :
  Base w -> roomObjs w !! this = Some r ->
  ~ armed this (disarm (timerInterval r) (intervals w)).
Proof.
  intros HB Hr [h Hin].
  assert ((h, this) ∈ intervals w) as Hin0.
  { eapply elem_of_sublist; [exact Hin | apply disarm_sublist]. }
  destruct (base_intervals _ HB h this Hin0) as (_ & r0 & Hr0 & Ht).
  assert (r0 = r) as -> by congruence.
  rewrite Ht in Hin. cbn [disarm] in Hin.
  apply list_elem_of_filter in Hin as [Hf _]. cbn in Hf.
  rewrite Nat.eqb_refl in Hf. done.
Qed.

(** [Base] after a reaction changed the object of one room, disarmed
    intervals and left timeouts for that room. *)
Lemma Base_change this r r' w w' :
  Base w -> roomObjs w !! this = Some r ->
  room_ok r' -> (lists_ok (wordLists w) -> word_ok r -> word_ok r') ->
  timerInterval r' = timerInterval r ->
  (forall gs', gameState r' = Some gs' -> armed this (intervals w') -> 1 <= timer gs') ->
  wordLists w' = wordLists w -> rooms w' = rooms w ->
  roomObjs w' = <[this := r']> (roomObjs w) ->
  (forall a l, roomChatHistory w' !! a = Some l -> (length l <= 100)%nat) ->
  sublist (intervals w') (intervals w) -> nextHandle w' = nextHandle w ->
  (forall a, a ∈ timeouts w' -> a ∈ timeouts w \/ a = this) ->
  Base w'.
Proof.
  intros HB Hr Hok Hword Htimer Harm E1 E2 E3 Hchat Hint E4 Hto. base_names HB.
  constructor; rewrite ?E1, ?E2, ?E3, ?E4; try assumption.
  - intros a r0. destruct (decide (a = this)) as [->|Hne].
    + rewrite lookup_insert_eq. intros [= <-]. exact Hok.
    + rewrite lookup_insert_ne by done. eauto.
  - intros Hl a r0. destruct (decide (a = this)) as [->|Hne].
    + rewrite lookup_insert_eq. intros [= <-]. eauto.
    + rewrite lookup_insert_ne by done. eauto.
  - intros a Ha. destruct (decide (a = this)) as [->|Hne].
    + rewrite lookup_insert_eq. eauto.
    + rewrite lookup_insert_ne by done. eauto.
  - intros h a Hin.
    assert ((h, a) ∈ intervals w) as Hin0 by (eapply elem_of_sublist; eauto).
    destruct (Hbint h a Hin0) as (Hlt & r0 & Hr0 & Ht).
    split; [exact Hlt|]. destruct (decide (a = this)) as [->|Hne].
    + rewrite lookup_insert_eq. exists r'. split; [done|]. congruence.
    + rewrite lookup_insert_ne by done. eauto.
  - eapply sublist_NoDup; eauto.
  - intros a r0 gs Ha. destruct (decide (a = this)) as [->|Hne].
    + rewrite lookup_insert_eq. intros [= <-] Hgs. eauto.
    + rewrite lookup_insert_ne by done. apply Hbarmed. eapply armed_sublist; eauto.
  - intros a Ha. destruct (Hto a Ha) as [H| ->].
    + destruct (decide (a = this)) as [->|Hne].
      * rewrite lookup_insert_eq. eauto.
      * rewrite lookup_insert_ne by done. eauto.
    + rewrite lookup_insert_eq. eauto.
Qed.

(** The side conditions of [Base_change] in the usual cases. *)
Lemma chat_kept w w' :
  Base w -> roomChatHistory w' = roomChatHistory w ->
  forall a l, roomChatHistory w' !! a = Some l -> (length l <= 100)%nat.
Proof. intros HB ->. apply HB. Qed.

Lemma timeouts_kept (this : string) w w' :
  timeouts w' = timeouts w -> forall a, a ∈ timeouts w' -> a ∈ timeouts w \/ a = this.
Proof. intros ->. auto. Qed.

Lemma armed_kept this r r' w l :
  Base w -> roomObjs w !! this = Some r -> sublist l (intervals w) ->
  (forall gs', gameState r' = Some gs' ->
     exists gs, gameState r = Some gs /\ timer gs' = timer gs) ->
  forall gs', gameState r' = Some gs' -> armed this l -> 1 <= timer gs'.
Proof.
  intros HB Hr Hl Hsame gs' Hgs' Ha.
  destruct (Hsame gs' Hgs') as (gs & Hgs & ->).
  eapply (base_armed _ HB); eauto. eapply armed_sublist; eauto.
Qed.

Lemma armed_null (this : string) r' (l : list (nat * string)) :
  gameState r' = None ->
  forall gs', gameState r' = Some gs' -> armed this l -> 1 <= timer gs'.
Proof. congruence. Qed.

Lemma Base_intervals l w :
  Base w -> sublist l (intervals w) -> Base (set_intervals l w).
Proof.
  intros HB Hsub. base_names HB. constructor; wsimpl; try assumption.
  - intros h a Hin. apply Hbint. eapply elem_of_sublist; eauto.
  - eapply sublist_NoDup; eauto.
  - intros a r gs Ha. apply Hbarmed. eapply armed_sublist; eauto.
Qed.

Lemma Base_set_timeouts l w :
  Base w -> (forall a, a ∈ l -> is_Some (roomObjs w !! a)) -> Base (set_timeouts l w).
Proof. intros HB Hl. base_names HB. constructor; wsimpl; assumption. Qed.

Lemma Base_set_chat m w :
  Base w -> (forall a l, m !! a = Some l -> (length l <= 100)%nat) ->
  Base (set_roomChatHistory m w).
Proof. intros HB Hl. base_names HB. constructor; wsimpl; assumption. Qed.

Lemma Base_log l w : Base w -> Base (set_log l w).
Proof. intros H. base_ext H. Qed.

Lemma room_ok_cleaned r :
  maxPlayers r = 8%nat -> _status r <> playing -> room_ok (cleaned r).
Proof.
  intros Hmax Hst. constructor; cbn; try done.
  - lia.
  - constructor.
Qed.

(** [Base] after [cleanupRoom] released a room whose object was [r0]. *)
Lemma Base_cleaned this r r0 w w' :
  Base w -> roomObjs w !! this = Some r ->
  maxPlayers r0 = 8%nat -> _status r0 <> playing ->
  timerInterval r0 = timerInterval r ->
  wordLists w' = wordLists w -> rooms w' = keys_delete this (rooms w) ->
  roomObjs w' = <[this := cleaned r0]> (roomObjs w) ->
  roomChatHistory w' = delete this (roomChatHistory w) ->
  intervals w' = disarm (timerInterval r0) (intervals w) ->
  nextHandle w' = nextHandle w -> timeouts w' = timeouts w ->
  Base w'.
Proof.
  intros HB Hr Hmax Hst Htimer E1 E2 E3 E4 E5 E6 E7.
  pose proof (disarm_not_armed this r w HB Hr) as Hdis. rewrite <- Htimer in Hdis.
  base_names HB.
  constructor; rewrite ?E1, ?E2, ?E3, ?E4, ?E5, ?E6, ?E7; try assumption.
  - intros a r1. destruct (decide (a = this)) as [->|Hne].
    + rewrite lookup_insert_eq. intros [= <-]. now apply room_ok_cleaned.
    + rewrite lookup_insert_ne by done. eauto.
  - intros Hl a r1. destruct (decide (a = this)) as [->|Hne].
    + rewrite lookup_insert_eq. intros [= <-] gs. cbn. done.
    + rewrite lookup_insert_ne by done. eauto.
  - intros a Ha. destruct (decide (a = this)) as [->|Hne].
    + rewrite lookup_insert_eq. eauto.
    + rewrite lookup_insert_ne by done. apply Hbreg.
      eapply elem_of_sublist; [exact Ha | apply keys_delete_sublist].
  - eapply sublist_NoDup; [eassumption | apply keys_delete_sublist].
  - intros h a Hin.
    assert ((h, a) ∈ intervals w) as Hin0.
    { eapply elem_of_sublist; [exact Hin | apply disarm_sublist]. }
    destruct (Hbint h a Hin0) as (Hlt & r1 & Hr1 & Ht).
    split; [exact Hlt|]. destruct (decide (a = this)) as [->|Hne].
    + exfalso. apply Hdis. now exists h.
    + rewrite lookup_insert_ne by done. eauto.
  - eapply sublist_NoDup; [eassumption | apply disarm_sublist].
  - intros a r1 gs Ha. destruct (decide (a = this)) as [->|Hne].
    + rewrite lookup_insert_eq. intros [= <-]. cbn. done.
    + rewrite lookup_insert_ne by done. apply Hbarmed.
      eapply armed_sublist; [apply disarm_sublist | exact Ha].
  - intros a Ha. destruct (decide (a = this)) as [->|Hne].
    + rewrite lookup_insert_eq. eauto.
    + rewrite lookup_insert_ne by done. eauto.
  - intros a l. destruct (decide (a = this)) as [->|Hne].
    + rewrite lookup_delete_eq. done.
    + rewrite lookup_delete_ne by done. eauto.
Qed.

Lemma recount_ext w w' :
  rooms w' = rooms w -> roomObjs w' = roomObjs w -> recount w' = recount w.
Proof.
  intros E1 E2. unfold recount, count_status, registered. now rewrite E1, E2.
Qed.

Lemma Inv_announce w : Base w -> Populated w -> Inv (announce w).
Proof.
  intros HB Hpop. constructor.
  - base_ext HB.
  - now apply Populated_announce.
  - reflexivity.
Qed.

Lemma registered_status_ext w w' :
  rooms w' = rooms w ->
  (forall a r, roomObjs w !! a = Some r ->
     exists r', roomObjs w' !! a = Some r' /\ _status r' = _status r) ->
  (forall a, roomObjs w !! a = None -> roomObjs w' !! a = None) ->
  forall s, count_status s w' = count_status s w.
Proof.
  intros E1 Hobj Hnone s. unfold count_status, registered. rewrite E1. f_equal.
  clear E1. induction (rooms w) as [|a l IH]; [reflexivity|].
  cbn [omap list_omap].
  destruct (roomObjs w !! a) as [r|] eqn:Hr.
  - destruct (Hobj a r Hr) as (r' & -> & Hs). cbn [fmap option_fmap option_map].
    rewrite !filter_cons. cbn [snd]. rewrite Hs.
    case_decide; cbn [length]; now rewrite IH.
  - rewrite (Hnone a Hr). cbn. exact IH.
Qed.

(** A change that leaves the registry, the statuses and the emptiness of
    the rooms alone keeps what holds between reactions. *)
Lemma Inv_quiet w w' :
  Inv w -> Base w' ->
  rooms w' = rooms w -> roomStatistics w' = roomStatistics w ->
  (forall a r, roomObjs w !! a = Some r ->
     exists r', roomObjs w' !! a = Some r' /\ _status r' = _status r /\
                (room_players r <> [] -> room_players r' <> [])) ->
  (forall a, roomObjs w !! a = None -> roomObjs w' !! a = None) ->
  Inv w'.
Proof.
  intros [HB Hpop Hst] HB' E1 E2 Hobj Hnone. constructor; [exact HB'| |].
  - intros a Ha. rewrite E1 in Ha. destruct (Hpop a Ha) as (r & Hr & Hne).
    destruct (Hobj a r Hr) as (r' & Hr' & _ & Hp). eauto.
  - assert (Hcount : forall s, count_status s w' = count_status s w).
    { apply registered_status_ext; [done| |done].
      intros a r Hr. destruct (Hobj a r Hr) as (r' & ? & ? & _). eauto. }
    rewrite E2, Hst. unfold recount. now rewrite E1, !Hcount.
Qed.

Lemma Inv_ext w w' :
  Inv w ->
  wordLists w' = wordLists w -> rooms w' = rooms w -> roomObjs w' = roomObjs w ->
  roomStatistics w' = roomStatistics w ->
  roomChatHistory w' = roomChatHistory w -> intervals w' = intervals w ->
  nextHandle w' = nextHandle w -> timeouts w' = timeouts w ->
  Inv w'.
Proof.
  intros [HB Hpop Hst] E1 E2 E3 E4 E5 E6 E7 E8. constructor.
  - now apply (Base_ext w).
  - intros a. rewrite E2, E3. apply Hpop.
  - rewrite E4, Hst. symmetry. now apply recount_ext.
Qed.

Ltac inv_ext H := apply (Inv_ext _ _ H); reflexivity.

Lemma Inv_stats w : Inv w -> set_roomStatistics (recount w) w = w.
Proof. intros [_ _ <-]. now destruct w. Qed.

Lemma Inv_log l w : Inv w -> Inv (set_log l w).
Proof. intros H. inv_ext H. Qed.
Lemma Inv_players s w : Inv w -> Inv (set_players s w).
Proof. intros H. inv_ext H. Qed.
Lemma Inv_playerObjs m w : Inv w -> Inv (set_playerObjs m w).
Proof. intros H. inv_ext H. Qed.
Lemma Inv_currentPlayer m w : Inv w -> Inv (set_currentPlayer m w).
Proof. intros H. inv_ext H. Qed.

Lemma Inv_of_Base w w' :
  Inv w -> Base w' ->
  rooms w' = rooms w -> roomObjs w' = roomObjs w ->
  roomStatistics w' = roomStatistics w -> Inv w'.
Proof.
  intros HI HB E1 E2 E3. apply (Inv_quiet w); auto.
  - intros a r Hr. rewrite E2. eauto.
  - intros a. now rewrite E2.
Qed.

Lemma Inv_intervals l w : Inv w -> sublist l (intervals w) -> Inv (set_intervals l w).
Proof.
  intros HI Hl. apply (Inv_of_Base w); try reflexivity; [exact HI|].
  apply Base_intervals; [apply HI | exact Hl].
Qed.

Lemma Inv_timeouts l w :
  Inv w -> (forall a, a ∈ l -> is_Some (roomObjs w !! a)) -> Inv (set_timeouts l w).
Proof.
  intros HI Hl. apply (Inv_of_Base w); try reflexivity; [exact HI|].
  apply Base_set_timeouts; [apply HI | exact Hl].
Qed.

Lemma Inv_chat m w :
  Inv w -> (forall a l, m !! a = Some l -> (length l <= 100)%nat) ->
  Inv (set_roomChatHistory m w).
Proof.
  intros HI Hl. apply (Inv_of_Base w); try reflexivity; [exact HI|].
  apply Base_set_chat; [apply HI | exact Hl].
Qed.

Lemma timeouts_snoc_ok this l w :
  (forall a, a ∈ l -> is_Some (roomObjs w !! a)) ->
  is_Some (roomObjs w !! this) ->
  forall a, a ∈ (l ++ [this])%list -> is_Some (roomObjs w !! a).
Proof.
  intros Hl Hthis a Ha. apply elem_of_app in Ha as [Ha|Ha]; [eauto|].
  apply list_elem_of_singleton in Ha as ->. exact Hthis.
Qed.

Lemma Populated_change this r r' w w' :
  Populated w -> roomObjs w !! this = Some r ->
  (room_players r <> [] -> room_players r' <> []) ->
  rooms w' = rooms w -> roomObjs w' = <[this := r']> (roomObjs w) ->
  Populated w'.
Proof.
  intros Hpop Hr Hp E1 E2 a Ha. rewrite E1 in Ha. rewrite E2.
  destruct (Hpop a Ha) as (r0 & Hr0 & Hne).
  destruct (decide (a = this)) as [->|Hna].
  - rewrite lookup_insert_eq. exists r'. split; [done|]. apply Hp. congruence.
  - rewrite lookup_insert_ne by done. eauto.
Qed.

(** A change of one room object that keeps its status and its roster. *)
Lemma Inv_change this r r' w w' :
  Inv w -> roomObjs w !! this = Some r -> Base w' ->
  _status r' = _status r -> room_players r' = room_players r ->
  rooms w' = rooms w -> roomObjs w' = <[this := r']> (roomObjs w) ->
  roomStatistics w' = roomStatistics w ->
  Inv w'.
Proof.
  intros HI Hr HB' Hst Hp E1 E2 E3.
  apply (Inv_quiet w); auto.
  - intros a r0 Hr0. rewrite E2. destruct (decide (a = this)) as [->|Hne].
    + rewrite lookup_insert_eq. exists r'. assert (r0 = r) as -> by congruence.
      rewrite Hp. auto.
    + rewrite lookup_insert_ne by done. eauto.
  - intros a Ha. rewrite E2. destruct (decide (a = this)) as [->|Hne]; [congruence|].
    now rewrite lookup_insert_ne.
Qed.

Lemma clearInterval_disarm x w :
  clearInterval x w = Ret tt (set_intervals (disarm x (intervals w)) w).
Proof. destruct x; cbn; [reflexivity | now destruct w]. Qed.

Lemma startTimer_eq w this r :
  roomObjs w !! this = Some r ->
  startTimer this w = Ret tt (rearm this (timerInterval r) r w).
Proof.
  intros Hr. unfold startTimer. mrun (thisRoom_eq _ _ _ Hr).
  rewrite (bind_eq _ _ _ _ _ (clearInterval_disarm _ _)).
  unfold setInterval. rewrite bind_assoc, bind_gets, bind_assoc, bind_modify, bind_ret.
  erewrite updRoom_eq; [|wsimpl; exact Hr]. reflexivity.
Qed.

Lemma startNewRound_eq w this r gs rnd :
  roomObjs w !! this = Some r ->
  gameState r = Some gs ->
  let gs' := nextRound (wordsOf (wordLists w) (language r)) (room_players r) gs rnd in
  startNewRound this rnd w
  = Ret tt
      (rearm this (timerInterval r) (with_gameState (Some gs') r)
         (set_log (log w ++ broadcast_events w r
                     (new_round (drawingPlayerId gs') (currentWord gs') gs') None) w)).
Proof.
  intros Hr Hgs gs'. unfold startNewRound.
  mrun (thisGameState_eq _ _ _ _ Hr Hgs). mrun (thisRoom_eq _ _ _ Hr).
  erewrite bind_eq; [|apply updGameState_eq; [exact Hr | exact Hgs]].
  erewrite bind_eq; [|apply updGameState_eq; [apply put_room_lookup | reflexivity]].
  rewrite put_room_put_room.
  erewrite bind_eq; [|apply getRandomWord_eq; [apply put_room_lookup | reflexivity]].
  rewrite put_room_put_room.
  erewrite bind_eq; [|apply updGameState_eq; [apply put_room_lookup | reflexivity]].
  rewrite put_room_put_room.
  erewrite bind_eq; [|apply updGameState_eq; [apply put_room_lookup | reflexivity]].
  rewrite put_room_put_room.
  erewrite bind_eq; [|apply updGameState_eq; [apply put_room_lookup | reflexivity]].
  rewrite put_room_put_room.
  erewrite bind_eq; [|eapply thisGameState_eq; [apply put_room_lookup | reflexivity]].
  erewrite bind_eq; [|apply broadcastToRoom_eq; apply put_room_lookup].
  erewrite startTimer_eq; [|wsimpl; apply lookup_insert_eq].
  f_equal. unfold rearm, put_room, set_roomObjs. wsimpl.
  rewrite insert_insert_eq. reflexivity.
Qed.

Lemma startNewRound_null w this r rnd :
  roomObjs w !! this = Some r -> gameState r = None ->
  startNewRound this rnd w = Throw (TypeError "Cannot read properties of null") w.
Proof.
  intros Hr Hgs. unfold startNewRound.
  now rewrite (bind_eq_throw _ _ _ _ _ (thisGameState_null _ _ _ Hr Hgs)).
Qed.

(** [Base] after a reaction started a round in one room. *)
Lemma Base_rearm this r r' w w' :
  Base w -> roomObjs w !! this = Some r ->
  room_ok r' -> (lists_ok (wordLists w) -> word_ok r -> word_ok r') ->
  (forall gs', gameState r' = Some gs' -> 1 <= timer gs') ->
  wordLists w' = wordLists w -> rooms w' = rooms w ->
  roomObjs w' = <[this := with_timerInterval (Some (nextHandle w)) r']> (roomObjs w) ->
  (forall a l, roomChatHistory w' !! a = Some l -> (length l <= 100)%nat) ->
  intervals w' = (disarm (timerInterval r) (intervals w) ++ [(nextHandle w, this)])%list ->
  nextHandle w' = S (nextHandle w) ->
  (forall a, a ∈ timeouts w' -> a ∈ timeouts w \/ a = this) ->
  Base w'.
Proof.
  intros HB Hr Hok Hword Harm E1 E2 E3 Hchat E4 E5 Hto.
  pose proof (disarm_not_armed this r w HB Hr) as Hdis.
  base_names HB.
  constructor; rewrite ?E1, ?E2, ?E3, ?E4, ?E5; try assumption.
  - intros a r0. destruct (decide (a = this)) as [->|Hne].
    + rewrite lookup_insert_eq. intros [= <-]. destruct Hok. constructor; assumption.
    + rewrite lookup_insert_ne by done. eauto.
  - intros Hl a r0. destruct (decide (a = this)) as [->|Hne].
    + rewrite lookup_insert_eq. intros [= <-]. apply (Hword Hl (Hbwords Hl _ _ Hr)).
    + rewrite lookup_insert_ne by done. eauto.
  - intros a Ha. destruct (decide (a = this)) as [->|Hne].
    + rewrite lookup_insert_eq. eauto.
    + rewrite lookup_insert_ne by done. eauto.
  - intros h a Hin. apply elem_of_app in Hin as [Hin|Hin].
    + assert ((h, a) ∈ intervals w) as Hin0.
      { eapply elem_of_sublist; [exact Hin | apply disarm_sublist]. }
      destruct (Hbint h a Hin0) as (Hlt & r0 & Hr0 & Ht).
      split; [lia|]. destruct (decide (a = this)) as [->|Hne].
      * exfalso. apply Hdis. now exists h.
      * rewrite lookup_insert_ne by done. eauto.
    + apply list_elem_of_singleton in Hin as [= -> ->]. split; [lia|].
      rewrite lookup_insert_eq. eauto.
  - apply NoDup_app. split; [|split].
    + eapply sublist_NoDup; [eassumption | apply disarm_sublist].
    + intros [h a] Hin Hin'. apply list_elem_of_singleton in Hin' as [= -> ->].
      assert ((nextHandle w, this) ∈ intervals w) as Hin0.
      { eapply elem_of_sublist; [exact Hin | apply disarm_sublist]. }
      destruct (Hbint _ _ Hin0) as (Hlt & _). lia.
    + apply NoDup_singleton.
  - intros a r0 gs Ha. destruct (decide (a = this)) as [->|Hne].
    + rewrite lookup_insert_eq. intros [= <-]. cbn. apply Harm.
    + rewrite lookup_insert_ne by done. apply Hbarmed.
      destruct Ha as [h Hin]. apply elem_of_app in Hin as [Hin|Hin].
      * exists h. eapply elem_of_sublist; [exact Hin | apply disarm_sublist].
      * apply list_elem_of_singleton in Hin as [= -> ->]. done.
  - intros a Ha. destruct (Hto a Ha) as [H| ->].
    + destruct (decide (a = this)) as [->|Hne].
      * rewrite lookup_insert_eq. eauto.
      * rewrite lookup_insert_ne by done. eauto.
    + rewrite lookup_insert_eq. eauto.
Qed.

Lemma score_ok_status s s' e : score_ok s e -> s' <> playing -> score_ok s' e.
Proof. intros (z & Hz & H0 & _) Hs. exists z. split; [done|]. split; [done|]. done. Qed.

Lemma round_ok_ext s roster gs gs' :
  round_ok s roster gs ->
  currentPlayerIndex gs' = currentPlayerIndex gs -> timer gs' = timer gs ->
  scores gs' = scores gs -> usedWords gs' = usedWords gs ->
  round_ok s roster gs'.
Proof.
  intros [Hi Ht Hs Hm Hu] E1 E2 E3 E4.
  constructor; rewrite ?E1, ?E2, ?E3, ?E4; auto.
Qed.

Lemma round_ok_weaken s s' roster roster' gs :
  round_ok s roster gs -> (s' = s \/ s' <> playing) ->
  (forall p, p ∈ roster' -> p ∈ roster) ->
  round_ok s' roster' gs.
Proof.
  intros [Hi Ht Hs Hm Hu] Hst Hsub. constructor; auto.
  destruct Hst as [->|Hst]; [exact Hs|].
  eapply Forall_impl; [exact Hs|]. intros e He. now apply (score_ok_status s).
Qed.

(** A room object that differs in status and game state only. *)
Lemma room_ok_roster r r' :
  room_ok r ->
  maxPlayers r' = maxPlayers r -> room_players r' = room_players r ->
  host r' = host r ->
  (_status r' = playing ->
     (2 <= length (room_players r))%nat /\ gameState r' <> None) ->
  (_status r' = waiting -> gameState r' = None) ->
  (gameState r' <> None -> room_players r <> []) ->
  (forall gs', gameState r' = Some gs' ->
     round_ok (_status r') (room_players r) gs') ->
  room_ok r'.
Proof.
  intros [Hmax Hcap Hnd Hhost Hfirst Hplay Hwait Hmem Hround] E1 E2 E3 Hp Hw Hm Hr.
  constructor; rewrite ?E1, ?E2, ?E3; auto.
Qed.

Lemma room_ok_gameState r gs gs' :
  room_ok r -> gameState r = Some gs ->
  round_ok (_status r) (room_players r) gs' ->
  room_ok (with_gameState (Some gs') r).
Proof.
  intros Hok Hgs Hrd. apply (room_ok_roster r); auto; cbn.
  - intros H. split; [apply (ok_playing _ Hok H) | done].
  - intros H. pose proof (ok_waiting _ Hok H). congruence.
  - intros _. apply (ok_members _ Hok). congruence.
  - intros gs0 [= <-]. exact Hrd.
Qed.

(** A reaction that replaced the game state of one room, disarmed
    intervals and left timeouts for that room. *)
Lemma Inv_gameState this r gs gs' w w' :
  Inv w -> roomObjs w !! this = Some r -> gameState r = Some gs ->
  round_ok (_status r) (room_players r) gs' ->
  (currentWord gs <> None -> currentWord gs' <> None) ->
  (armed this (intervals w') -> 1 <= timer gs') ->
  wordLists w' = wordLists w -> rooms w' = rooms w ->
  roomObjs w' = <[this := with_gameState (Some gs') r]> (roomObjs w) ->
  roomStatistics w' = roomStatistics w ->
  roomChatHistory w' = roomChatHistory w ->
  sublist (intervals w') (intervals w) -> nextHandle w' = nextHandle w ->
  (forall a, a ∈ timeouts w' -> a ∈ timeouts w \/ a = this) ->
  Inv w'.
Proof.
  intros HI Hr Hgs Hrd Hword Harm E1 E2 E3 E4 E5 Hint E6 Hto.
  apply (Inv_change this r (with_gameState (Some gs') r) w); auto.
  apply (Base_change this r (with_gameState (Some gs') r) w); auto.
  - apply HI.
  - eapply room_ok_gameState; eauto. eapply base_rooms; [apply HI | exact Hr].
  - intros _ Hw gs0 [= <-]. eauto.
  - intros gs0 [= <-]. exact Harm.
  - now apply (chat_kept w); [apply HI|].
Qed.

Lemma handleGetRooms_inv sock w :
  Inv w ->
  handleGetRooms sock w
  = Ret tt (set_log (log w ++ [mkEmit (to_socket sock)
                                 (room_list_updated (listing w) (recount w))]) w) /\
  Inv (world_of (handleGetRooms sock w)).
Proof.
  intros HI. assert (handleGetRooms sock w
    = Ret tt (set_log (log w ++ [mkEmit (to_socket sock)
                                   (room_list_updated (listing w) (recount w))]) w)) as E.
  { unfold handleGetRooms.
    rewrite (bind_eq _ _ _ _ _ (getAvailableRooms_quiet w (inv_populated _ HI))).
    rewrite (bind_eq _ _ _ _ _ (getRoomStatistics_recount w)).
    rewrite (Inv_stats w HI). reflexivity. }
  split; [exact E|]. rewrite E. inv_ext HI.
Qed.

Lemma handleConnection_inv sock w :
  Inv w ->
  exists w', handleConnection sock w = Ret tt w' /\ Inv w'.
Proof.
  intros HI. unfold handleConnection. rewrite bind_modify.
  erewrite bind_eq.
  2:{ apply getAvailableRooms_quiet. intros a. wsimpl. apply HI. }
  rewrite (bind_eq _ _ _ _ _ (getRoomStatistics_recount _)).
  eexists. split; [reflexivity|]. unfold emit, modify.
  destruct HI as [HB Hpop Hst]. constructor.
  - base_ext HB.
  - intros a. wsimpl. apply Hpop.
  - reflexivity.
Qed.

Lemma roomOf_Some w me room :
  roomOf w me = Some room ->
  room ∈ rooms w /\ exists r, roomObjs w !! room = Some r.
Proof.
  unfold roomOf. destruct (playerObjs w !! me ≫= player_room) as [a|]; [|done].
  intros H. apply rooms_get_Some in H as (-> & ? & ?). auto.
Qed.

Lemma Inv_room w a r : Inv w -> roomObjs w !! a = Some r -> room_ok r.
Proof. intros HI. apply HI. Qed.

Lemma Inv_playing w a r :
  Inv w -> roomObjs w !! a = Some r -> _status r = playing ->
  exists gs, gameState r = Some gs.
Proof.
  intros HI Hr Hp. destruct (ok_playing _ (Inv_room w a r HI Hr) Hp) as [_ Hgs].
  destruct (gameState r); [eauto | done].
Qed.

Lemma handleUpdateCanvas_inv sock data w :
  Inv w -> exists w', handleUpdateCanvas sock data w = Ret tt w' /\ Inv w'.
Proof.
  intros HI. unfold handleUpdateCanvas. rewrite bind_gets. unfold id.
  destruct (currentPlayer w !! sock) as [me|]; [|eauto].
  destruct (roomOf w me) as [room|] eqn:Hroom; [|eauto].
  apply roomOf_Some in Hroom as (Hreg & r & Hr).
  mrun (thisRoom_eq _ _ _ Hr).
  case_bool_decide as Hp; [|eauto].
  destruct (Inv_playing w room r HI Hr Hp) as (gs & Hgs).
  mrun (thisGameState_eq _ _ _ _ Hr Hgs).
  case_bool_decide as Hd; [|eauto].
  unfold updateCanvas. mrun (thisRoom_eq _ _ _ Hr). rewrite Hgs.
  erewrite bind_eq; [|apply updGameState_eq; eauto].
  erewrite broadcastToRoom_eq; [|apply put_room_lookup].
  eexists. split; [reflexivity|].
  apply (Inv_gameState room r gs (with_canvasData data gs) w); try reflexivity; auto.
  - apply (round_ok_ext _ _ gs); try reflexivity.
    apply (ok_round _ (Inv_room w room r HI Hr)), Hgs.
  - intros Ha. apply (base_armed _ (inv_base _ HI) room r gs); auto.
Qed.

Lemma handleClearCanvas_inv sock w :
  Inv w -> exists w', handleClearCanvas sock w = Ret tt w' /\ Inv w'.
Proof. apply handleUpdateCanvas_inv. Qed.

Lemma wordsOf_nonempty lists lang : lists_ok lists -> wordsOf lists lang <> [].
Proof.
  intros [He Hs]. unfold wordsOf, wordLists_get. repeat case_decide; assumption.
Qed.

Lemma pickWord_Some words used rnd :
  words <> [] -> fst (pickWord words used rnd) <> None.
Proof.
  intros Hw. unfold pickWord. cbn [fst].
  set (avail := filter _ words).
  destruct (length avail =? 0)%nat eqn:E.
  - destruct (nth_error_mod_Some words rnd Hw) as (x & -> & _). done.
  - apply Nat.eqb_neq in E.
    assert (avail <> []) as Ha by (intros Ha; rewrite Ha in E; done).
    destruct (nth_error_mod_Some avail rnd Ha) as (x & -> & _). done.
Qed.

(** The history of words holds no word twice. *)
Lemma pickWord_NoDup words used rnd :
  NoDup used -> NoDup (snd (pickWord words used rnd)).
Proof.
  intros Hnd. unfold pickWord. cbn [snd].
  set (avail := filter _ words).
  destruct (length avail =? 0)%nat eqn:E; [apply NoDup_singleton|].
  apply Nat.eqb_neq in E.
  assert (avail <> []) as Ha by (intros Ha; rewrite Ha in E; done).
  destruct (nth_error_mod_Some avail rnd Ha) as (x & -> & Hx).
  apply NoDup_app. split; [exact Hnd|]. split; [|apply NoDup_singleton].
  intros y Hy Hy'. apply list_elem_of_singleton in Hy' as ->.
  apply list_elem_of_filter in Hx as [Hf _].
  apply negb_True in Hf. rewrite bool_decide_spec in Hf. done.
Qed.

(** The callback of the countdown, for an interval that is armed. *)
Lemma timerTick_inv h this w :
  Inv w -> (h, this) ∈ intervals w ->
  exists w', timerTick this w = Ret tt w' /\ Inv w'.
Proof.
  intros HI Hin.
  destruct (base_intervals _ (inv_base _ HI) h this Hin) as (_ & r & Hr & Hh).
  unfold timerTick. mrun (thisRoom_eq _ _ _ Hr).
  assert (Hclear : exists w', clearInterval (timerInterval r) w = Ret tt w' /\ Inv w').
  { rewrite clearInterval_disarm. eexists. split; [reflexivity|].
    apply Inv_intervals; [exact HI | apply disarm_sublist]. }
  destruct (gameState r) as [gs|] eqn:Hgs; [|exact Hclear].
  case_decide as Hp; [|exact Hclear].
  assert (1 <= timer gs) as Htimer.
  { eapply (base_armed _ (inv_base _ HI)); eauto. now exists h. }
  pose proof (ok_round _ (Inv_room w this r HI Hr) gs Hgs) as Hrd.
  assert (round_ok (_status r) (room_players r) (with_timer (timer gs - 1) gs)) as Hrd'.
  { destruct Hrd as [Hi Ht Hs Hm Hu]. constructor; cbn; auto. lia. }
  erewrite bind_eq; [|apply updGameState_eq; eauto].
  erewrite bind_eq; [|apply broadcastToRoom_eq; apply put_room_lookup].
  destruct (timer gs - 1 <=? 0) eqn:Hzero.
  - rewrite (bind_eq _ _ _ _ _ (clearInterval_disarm _ _)).
    unfold endRound.
    erewrite bind_eq; [|eapply thisGameState_eq; [apply put_room_lookup | reflexivity]].
    erewrite bind_eq; [|apply broadcastToRoom_eq; apply put_room_lookup].
    eexists. split; [reflexivity|].
    apply (Inv_gameState this r gs (with_timer (timer gs - 1) gs) w);
      try reflexivity; auto.
    + intros Ha. exfalso. revert Ha. wsimpl.
      apply (disarm_not_armed this r w); [apply HI | exact Hr].
    + wsimpl. apply disarm_sublist.
    + wsimpl. intros a Ha. apply elem_of_app in Ha as [Ha|Ha]; [auto|].
      apply list_elem_of_singleton in Ha. auto.
  - eexists. split; [reflexivity|].
    apply (Inv_gameState this r gs (with_timer (timer gs - 1) gs) w);
      try reflexivity; auto.
    intros _. cbn. apply Z.leb_gt in Hzero. lia.
Qed.

Lemma next_index_ok i (n : nat) :
  -1 <= i -> (n <> 0)%nat ->
  exists j, jsnum_rem (jsnum_add (Num i) 1) (Z.of_nat n) = Num j /\ -1 <= j.
Proof.
  intros Hi Hn. cbn. destruct (Z.of_nat n =? 0) eqn:E; [apply Z.eqb_eq in E; lia|].
  eexists. split; [reflexivity|].
  pose proof (Z.rem_nonneg (i + 1) (Z.of_nat n)). lia.
Qed.

(** The delayed continuation: it throws when the room has no game state
    any more, and otherwise starts a round. *)
Lemma startNewRound_inv this rnd w r :
  Inv w -> roomObjs w !! this = Some r ->
  match gameState r with
  | None => startNewRound this rnd w
            = Throw (TypeError "Cannot read properties of null") w
  | Some _ => exists w', startNewRound this rnd w = Ret tt w' /\ Inv w'
  end.
Proof.
  intros HI Hr. destruct (gameState r) as [gs|] eqn:Hgs.
  2:{ now apply (startNewRound_null w this r). }
  rewrite (startNewRound_eq w this r gs rnd Hr Hgs).
  eexists. split; [reflexivity|].
  set (gs' := nextRound _ _ _ _).
  pose proof (Inv_room w this r HI Hr) as Hokr.
  pose proof (ok_round _ Hokr gs Hgs) as Hrd.
  assert (round_ok (_status r) (room_players r) gs') as Hrd'.
  { destruct Hrd as [(i & Hi & Hge) Ht Hs Hm Hu]. constructor; subst gs'; cbn; auto.
    - rewrite Hi. apply next_index_ok; [exact Hge|].
      intros E. apply length_zero_iff_nil in E. revert E.
      apply (ok_members _ Hokr). congruence.
    - lia.
    - now apply pickWord_NoDup. }
  apply (Inv_change this r (with_timerInterval (Some (nextHandle w))
                              (with_gameState (Some gs') r)) w); try reflexivity; auto.
  apply (Base_rearm this r (with_gameState (Some gs') r) w); try reflexivity; auto.
  - apply HI.
  - eapply room_ok_gameState; eauto.
  - intros Hl _ gs0 [= <-]. subst gs'. cbn [currentWord nextRound].
    apply pickWord_Some, wordsOf_nonempty, Hl.
  - intros gs0 [= <-]. subst gs'. cbn. lia.
  - apply (chat_kept w); [apply HI | reflexivity].
Qed.

Lemma status_set_maxPlayers s r : maxPlayers (status_set s r) = maxPlayers r.
Proof. unfold status_set. now case_decide. Qed.

(** [resetGame] on a room. *)
Lemma resetGame_inv this w r :
  Inv w -> roomObjs w !! this = Some r ->
  exists w', resetGame this w = Ret tt w' /\ Inv w' /\
    roomObjs w' !! this = Some (with_gameState None (status_set waiting r)) /\
    rooms w' = rooms w /\ intervals w' = intervals w /\ timeouts w' = timeouts w /\
    nextHandle w' = nextHandle w /\
    log w' = (log w ++ broadcast_events w r (game_reset (room_players r)) None ++
              [mkEmit to_all (room_list_updated (listing w') (recount w'))])%list.
Proof.
  intros HI Hr. unfold resetGame.
  destruct (set_status_eq this waiting w r Hr) as (st & Hst).
  rewrite (bind_eq _ _ _ _ _ Hst).
  erewrite bind_eq; [|apply updRoom_eq; wsimpl; apply lookup_insert_eq].
  erewrite bind_eq; [|apply thisRoom_eq; apply put_room_lookup].
  erewrite bind_eq; [|apply broadcastToRoom_eq; apply put_room_lookup].
  set (r' := with_gameState None (status_set waiting r)).
  match goal with |- exists w', broadcastGlobalRoomListUpdate ?w0 = _ /\ _ => set (w1 := w0) end.
  assert (roomObjs w1 = <[this := r']> (roomObjs w)) as Hobjs.
  { subst w1. wsimpl. now rewrite insert_insert_eq. }
  assert (Base w1) as HB1.
  { apply (Base_change this r r' w); try reflexivity; try exact Hobjs; try exact Hr.
    - apply HI.
    - apply (room_ok_roster r); subst r'; cbn;
        rewrite ?status_set_maxPlayers, ?status_set_players, ?status_set_host,
          ?status_set_status; try done.
      apply (Inv_room w this r HI Hr).
    - intros _ _ gs. subst r'. cbn. done.
    - subst r'. cbn. apply status_set_timerInterval.
    - now apply armed_null.
    - apply (chat_kept w); [apply HI | reflexivity].
    - now apply timeouts_kept. }
  assert (Populated w1) as Hpop1.
  { apply (Populated_change this r r' w); try reflexivity; try exact Hobjs; try exact Hr.
    - apply HI.
    - subst r'. cbn. now rewrite status_set_players. }
  rewrite (broadcastGlobalRoomListUpdate_quiet w1 Hpop1).
  eexists. split; [reflexivity|]. split; [now apply Inv_announce|].
  split; [unfold announce; wsimpl; fold (roomObjs w1); rewrite Hobjs;
          apply lookup_insert_eq|].
  repeat (split; [reflexivity|]).
  unfold announce. subst w1. wsimpl. rewrite <- app_assoc. f_equal.
  assert (room_players r' = room_players r) as Hp.
  { subst r'. cbn. apply status_set_players. }
  rewrite Hp. f_equal. now apply broadcast_events_ext.
Qed.

Lemma handleResetGame_inv sock w :
  Inv w -> exists w', handleResetGame sock w = Ret tt w' /\ Inv w'.
Proof.
  intros HI. unfold handleResetGame. rewrite bind_gets. unfold id.
  destruct (currentPlayer w !! sock) as [me|]; [|eauto].
  destruct (roomOf w me) as [room|] eqn:Hroom.
  2:{ eexists. split; [reflexivity|]. now apply Inv_log. }
  apply roomOf_Some in Hroom as (Hreg & r & Hr).
  mrun (thisRoom_eq _ _ _ Hr).
  destruct (negb (bool_decide (host r = me))).
  { eexists. split; [reflexivity|]. now apply Inv_log. }
  destruct (resetGame_inv room w r HI Hr) as (w' & Hrun & HI' & _). eauto.
Qed.

Lemma scores_set_Forall (P : string * jsnum -> Prop) k v t :
  Forall P t -> P (k, v) -> Forall P (scores_set k v t).
Proof.
  intros Ht Hkv. induction Ht as [|[k' s] t Hx Ht IH]; cbn.
  - constructor; [exact Hkv | constructor].
  - case_decide as E; [subst k'|]; constructor; auto.
Qed.

Lemma initialScores_Forall s roster : Forall (score_ok s) (initialScores roster).
Proof.
  unfold initialScores.
  assert (Hgen : forall t, Forall (score_ok s) t ->
    Forall (score_ok s)
      (foldl (fun table playerId => scores_set playerId (Num 0) table) t roster)).
  { induction roster as [|p roster IH]; intros t Ht; cbn [foldl]; [exact Ht|].
    apply IH. apply scores_set_Forall; [exact Ht|].
    exists 0. cbn. unfold WINNING_SCORE. split; [done|]. split; lia. }
  apply Hgen. constructor.
Qed.

Lemma startGame_inv this rnd w r :
  Inv w -> roomObjs w !! this = Some r ->
  exists b w', startGame this rnd w = Ret b w' /\ Inv w' /\
    (b = false -> w' = w) /\
    (b = true <-> _status r = waiting /\ (2 <= length (room_players r))%nat) /\
    (b = true ->
       roomObjs w' !! this
       = Some (with_timerInterval (Some (nextHandle w))
                 (with_gameState
                    (Some (nextRound (wordsOf (wordLists w) (language r))
                             (room_players r) (freshRound (room_players r)) rnd))
                    (with_status (Some waiting) playing r))) /\
       rooms w' = rooms w /\
       intervals w'
       = (disarm (timerInterval r) (intervals w) ++ [(nextHandle w, this)])%list /\
       timeouts w' = timeouts w).
Proof.
  intros HI Hr.
  destruct (decide (_status r = waiting /\ (2 <= length (room_players r))%nat))
    as [[Hst Hlen]|Hno].
  2:{ exists false, w. split; [|split; [exact HI|split; [done|split; [|done]]]].
      - apply (startGame_refused w this r rnd Hr).
        destruct (decide (_status r = waiting)); [right | left; done].
        destruct (le_lt_dec 2 (length (room_players r))); [exfalso; apply Hno; auto | lia].
      - split; [done | intros; contradiction]. }
  exists true. unfold startGame.
  mrun (thisRoom_eq _ _ _ Hr).
  rewrite Hst, bool_decide_eq_true_2 by done. cbn [negb orb].
  assert ((length (room_players r) <? 2)%nat = false) as -> by (apply Nat.ltb_ge; lia).
  destruct (set_status_eq this playing w r Hr) as (st & Hset).
  erewrite bind_eq; [|exact Hset]. clear Hset.
  unfold status_set. rewrite Hst. rewrite decide_False by done.
  erewrite bind_eq; [|apply updRoom_eq; wsimpl; apply lookup_insert_eq].
  erewrite bind_eq; [|eapply forEach_scores; [apply put_room_lookup | reflexivity]].
  rewrite put_room_put_room.
  set (fresh := freshRound (room_players r)).
  set (started := with_gameState (Some fresh) (with_status (Some waiting) playing r)).
  match goal with |- context [put_room this ?o (set_roomStatistics _ _)] =>
    change o with started end.
  erewrite bind_eq;
    [|apply (thisGameState_eq _ _ started fresh); [apply put_room_lookup | reflexivity]].
  erewrite bind_eq; [|eapply broadcastToRoom_eq; apply put_room_lookup].
  erewrite bind_eq;
    [|apply (startNewRound_eq _ this started fresh);
      [wsimpl; apply lookup_insert_eq | reflexivity]].
  set (gs' := nextRound _ _ fresh rnd).
  match goal with |- exists w', (_ <- broadcastGlobalRoomListUpdate ;; _) ?w0 = _ /\ _ =>
    set (w1 := w0) end.
  set (r' := with_gameState (Some gs') started).
  assert (roomObjs w1 = <[this := with_timerInterval (Some (nextHandle w)) r']> (roomObjs w))
    as Hobjs.
  { subst w1. unfold rearm, put_room. wsimpl. now rewrite !insert_insert_eq. }
  pose proof (Inv_room w this r HI Hr) as Hokr.
  assert (room_players r <> []) as Hne.
  { intros E. rewrite E in Hlen. cbn in Hlen. lia. }
  assert (Base w1) as HB1.
  { apply (Base_rearm this r r' w); try reflexivity; try exact Hobjs; try exact Hr.
    - apply HI.
    - apply (room_ok_roster r); subst r' started; cbn; try done.
      intros gs0 [= <-]. subst gs'. constructor; cbn.
      + apply next_index_ok; [lia|]. intros E. apply length_zero_iff_nil in E. done.
      + lia.
      + apply initialScores_Forall.
      + intros p Hp. rewrite initialScores_get, bool_decide_eq_true_2 by done. eauto.
      + apply pickWord_NoDup. constructor.
    - intros Hl _ gs0 [= <-]. subst gs'. cbn [currentWord nextRound].
      apply pickWord_Some, wordsOf_nonempty, Hl.
    - intros gs0 [= <-]. subst gs'. cbn. lia.
    - apply (chat_kept w); [apply HI | reflexivity].
    - now apply timeouts_kept. }
  assert (Populated w1) as Hpop1.
  { apply (Populated_change this r (with_timerInterval (Some (nextHandle w)) r') w);
      try reflexivity; try exact Hobjs; try exact Hr; [apply HI | done]. }
  rewrite (bind_eq _ _ _ _ _ (broadcastGlobalRoomListUpdate_quiet w1 Hpop1)).
  eexists. split; [reflexivity|]. split; [now apply Inv_announce|].
  split; [done|]. split; [split; auto|]. intros _.
  split; [unfold announce; wsimpl; fold (roomObjs w1); rewrite Hobjs;
          apply lookup_insert_eq|].
  repeat (split; [reflexivity|]). reflexivity.
Qed.

Lemma handleStartGame_inv sock rnd w :
  Inv w -> exists w', handleStartGame sock rnd w = Ret tt w' /\ Inv w'.
Proof.
  intros HI. unfold handleStartGame. rewrite bind_gets. unfold id.
  destruct (currentPlayer w !! sock) as [me|]; [|eauto].
  destruct (roomOf w me) as [room|] eqn:Hroom.
  2:{ eexists. split; [reflexivity|]. now apply Inv_log. }
  apply roomOf_Some in Hroom as (Hreg & r & Hr).
  mrun (thisRoom_eq _ _ _ Hr).
  destruct (negb (bool_decide (host r = me))).
  { eexists. split; [reflexivity|]. now apply Inv_log. }
  destruct (startGame_inv room rnd w r HI Hr) as (b & w' & Hrun & HI' & _).
  rewrite (bind_eq _ _ _ _ _ Hrun). destruct b; [eauto|].
  eexists. split; [reflexivity|]. now apply Inv_log.
Qed.

Lemma find_None_Forall {A} (f : A -> bool) l :
  find f l = None -> Forall (fun x => f x = false) l.
Proof.
  induction l as [|x l IH]; cbn; [constructor|].
  destruct (f x) eqn:E; [done|]. intros H. constructor; auto.
Qed.

Lemma find_Some_elem {A} (f : A -> bool) l x :
  find f l = Some x -> x ∈ l /\ f x = true.
Proof.
  induction l as [|y l IH]; cbn; [done|].
  destruct (f y) eqn:E.
  - intros [= <-]. split; [by left | done].
  - intros H. destruct (IH H). split; [by right | done].
Qed.

(** [checkForWinner] after a guess was scored: [w] is the world before
    the scoring and [w1] the world it has reached. *)
Lemma checkForWinner_inv this w w1 r gs gs1 :
  Inv w -> roomObjs w !! this = Some r -> _status r = playing ->
  gameState r = Some gs ->
  round_ok finished (room_players r) gs1 ->
  currentWord gs1 = currentWord gs -> timer gs1 = timer gs ->
  (forall q s, (q, s) ∈ scores gs1 -> jsnum_geb s WINNING_SCORE = true ->
               q ∈ room_players r) ->
  wordLists w1 = wordLists w -> rooms w1 = rooms w ->
  roomObjs w1 = <[this := with_gameState (Some gs1) r]> (roomObjs w) ->
  roomStatistics w1 = roomStatistics w ->
  roomChatHistory w1 = roomChatHistory w -> intervals w1 = intervals w ->
  nextHandle w1 = nextHandle w -> timeouts w1 = timeouts w ->
  exists w', checkForWinner this w1 = Ret tt w' /\ Inv w' /\
             is_Some (roomObjs w' !! this).
Proof.
  intros HI Hr Hp Hgs Hrd Hword Htimer Hwin E1 E2 E3 E4 E5 E6 E7 E8.
  pose proof (Inv_room w this r HI Hr) as Hokr.
  set (r1 := with_gameState (Some gs1) r) in *.
  assert (roomObjs w1 !! this = Some r1) as Hr1 by (rewrite E3; apply lookup_insert_eq).
  assert ((length (room_players r) <=? 1)%nat = false) as Hlen.
  { apply Nat.leb_gt. destruct (ok_playing _ Hokr Hp). lia. }
  assert (Hquiet : (r0 <- thisRoom this ;;
            if bool_decide (_status r0 = playing) && (length (room_players r0) <=? 1)%nat
            then endGameDueToInsufficientPlayers this else ret tt) w1 = Ret tt w1).
  { mrun (thisRoom_eq _ _ _ Hr1). subst r1. cbn [room_players with_gameState].
    rewrite Hlen, andb_false_r. reflexivity. }
  unfold checkForWinner.
  erewrite bind_eq; [|eapply thisGameState_eq; [exact Hr1 | reflexivity]].
  destruct (find _ (scores gs1)) as [[p s]|] eqn:Hfind.
  2:{ rewrite bind_ret, Hquiet. eexists. split; [reflexivity|]. split; [|eauto].
      apply (Inv_gameState this r gs gs1 w); auto.
      - destruct Hrd as [Hi Ht Hs Hm Hu]. constructor; auto.
        apply find_None_Forall in Hfind.
        rewrite Forall_forall in Hs, Hfind. apply Forall_forall. intros e He.
        destruct (Hs e He) as (z & Hz & H0 & _). exists z. split; [done|]. split; [done|].
        intros _. specialize (Hfind e He). cbn in Hfind. rewrite Hz in Hfind.
        cbn in Hfind. apply Z.leb_gt in Hfind. exact Hfind.
      - now rewrite Hword.
      - rewrite Htimer, E6. intros Ha.
        apply (base_armed _ (inv_base _ HI) this r gs); auto.
      - now rewrite E6.
      - now apply timeouts_kept. }
  apply find_Some_elem in Hfind as [Hin Hge]. cbn [snd] in Hge.
  pose proof (Hwin p s Hin Hge) as Hmem.
  rewrite bind_assoc. mrun (thisRoom_eq _ _ _ Hr1).
  subst r1. cbn [room_players with_gameState].
  rewrite bool_decide_eq_true_2 by done.
  set (r1 := with_gameState (Some gs1) r) in *.
  rewrite !bind_assoc.
  erewrite bind_eq; [|apply broadcastToRoom_eq; exact Hr1].
  edestruct (set_status_eq this finished) as (st & Hst);
    [|rewrite !bind_assoc; erewrite bind_eq; [|exact Hst]]; [wsimpl; exact Hr1|].
  clear Hst.
  rewrite !bind_assoc.
  rewrite (bind_eq _ _ _ _ _ (clearInterval_disarm _ _)).
  set (r' := status_set finished r1).
  match goal with
  |- exists w', (_ <- (_ <- broadcastGlobalRoomListUpdate ;; _) ;; _) ?w0 = _ /\ _ =>
    set (w2 := w0) end.
  assert (roomObjs w2 = <[this := r']> (roomObjs w)) as Hobjs.
  { subst w2. unfold put_room. wsimpl. rewrite E3. now rewrite insert_insert_eq. }
  assert (_status r' = finished) as Hfin by (subst r'; apply status_set_status).
  assert (Base w2) as HB2.
  { apply (Base_change this r r' w); try exact Hobjs; try exact Hr;
      try (subst w2; wsimpl; assumption).
    - apply HI.
    - apply (room_ok_roster r); subst r' r1;
        rewrite ?status_set_maxPlayers, ?status_set_players, ?status_set_host,
          ?status_set_status, ?status_set_gameState; cbn; try done.
      + intros _. apply (ok_members _ Hokr). congruence.
      + intros gs0 [= <-]. exact Hrd.
    - intros _ Hw gs0. subst r' r1. rewrite status_set_gameState. cbn.
      intros [= <-]. rewrite Hword. now apply Hw.
    - subst r' r1. now rewrite status_set_timerInterval.
    - intros gs0. subst r' r1. rewrite status_set_gameState. cbn. intros [= <-] Ha.
      rewrite Htimer. apply (base_armed _ (inv_base _ HI) this r gs); auto.
      revert Ha. subst w2. wsimpl. rewrite E6. apply armed_sublist, disarm_sublist.
    - apply (chat_kept w); [apply HI | subst w2; wsimpl; assumption].
    - subst w2. wsimpl. rewrite E6. apply disarm_sublist.
    - apply timeouts_kept. subst w2. wsimpl. assumption. }
  assert (Populated w2) as Hpop2.
  { apply (Populated_change this r r' w); try exact Hobjs; try exact Hr;
      try (subst w2; wsimpl; assumption).
    - apply HI.
    - subst r' r1. now rewrite status_set_players. }
  rewrite !bind_assoc.
  rewrite (bind_eq _ _ _ _ _ (broadcastGlobalRoomListUpdate_quiet w2 Hpop2)).
  rewrite bind_assoc, bind_gets.
  assert (roomObjs (announce w2) !! this = Some r') as Hr2.
  { unfold announce. wsimpl. fold (roomObjs w2). rewrite Hobjs. apply lookup_insert_eq. }
  erewrite bind_eq; [|apply broadcastToRoom_eq; exact Hr2].
  erewrite bind_eq; [|apply thisRoom_eq; wsimpl; exact Hr2].
  rewrite Hfin. cbn [bool_decide decide_rel andb].
  rewrite bool_decide_eq_false_2 by done. cbn [andb].
  eexists. split; [reflexivity|]. split.
  - apply Inv_log, Inv_announce; assumption.
  - wsimpl. rewrite Hr2. eauto.
Qed.

Lemma scores_add_Forall (P : string * jsnum -> Prop) k v t :
  Forall P t -> is_Some (scores_get k t) ->
  (forall s, P (k, s) -> P (k, jsnum_add s v)) ->
  Forall P (scores_add k v t).
Proof.
  intros Ht Hk Hadd. induction Ht as [|[k' s] t Hx Ht IH]; cbn in *.
  - destruct Hk as [? [=]].
  - case_decide as E; [subst k'|]; constructor; auto.
Qed.

Lemma scores_get_add_Some p k v t :
  is_Some (scores_get p t) -> is_Some (scores_get p (scores_add k v t)).
Proof.
  intros [s Hs]. destruct (decide (p = k)) as [->|Hne].
  - rewrite (scores_get_add_eq _ _ _ _ Hs). eauto.
  - rewrite scores_get_add_ne by done. eauto.
Qed.

Lemma score_ok_add s k z v :
  0 <= v -> score_ok s (k, z) -> score_ok finished (k, jsnum_add z v).
Proof.
  intros Hv (n & Hn & H0 & _). cbn in Hn. subst z. exists (n + v). cbn.
  split; [done|]. split; [lia | done].
Qed.

(** A guess: [handleGuess] returns, unless the word of the round is
    undefined, which takes an empty word list. *)
Lemma handleGuess_inv this playerId guess w r :
  Inv w -> roomObjs w !! this = Some r ->
  (exists w', handleGuess this playerId guess w = Ret tt w' /\ Inv w') \/
  (~ lists_ok (wordLists w) /\ exists e, handleGuess this playerId guess w = Throw e w).
Proof.
  intros HI Hr. unfold handleGuess. mrun (thisRoom_eq _ _ _ Hr).
  case_bool_decide as Hp; cbn [negb]; [|eauto].
  destruct (Inv_playing w this r HI Hr Hp) as (gs & Hgs).
  mrun (thisGameState_eq _ _ _ _ Hr Hgs).
  case_bool_decide as Hd; [eauto|].
  destruct (currentWord gs) as [word|] eqn:Hword.
  2:{ right. split; [|eauto]. intros Hl.
      exact (base_words _ (inv_base _ HI) Hl this r Hr gs Hgs Hword). }
  left.
  destruct (guess_matches guess word); [|eauto].
  destruct (drawingPlayerId gs) as [drawer|]; [|eauto].
  destruct (bool_decide (drawer ∈ room_players r) && bool_decide (playerId ∈ room_players r))
    eqn:Hboth; [|eauto].
  apply andb_true_iff in Hboth as [Hdm Hgm].
  apply bool_decide_eq_true in Hdm, Hgm.
  erewrite bind_eq; [|apply updGameState_eq; eauto].
  erewrite bind_eq; [|apply updGameState_eq; [apply put_room_lookup | reflexivity]].
  rewrite put_room_put_room.
  erewrite bind_eq; [|eapply thisGameState_eq; [apply put_room_lookup | reflexivity]].
  erewrite bind_eq; [|apply broadcastToRoom_eq; apply put_room_lookup].
  cbn [scores with_scores].
  set (bonus := timer gs / 10 * 10).
  set (table := scores_add playerId (30 + bonus) (scores_add drawer (40 + bonus) (scores gs))).
  set (gs1 := with_scores table (with_scores (scores_add drawer (40 + bonus) (scores gs)) gs)).
  match goal with |- exists w', (_ <- checkForWinner this ;; _) ?w0 = _ /\ _ =>
    set (w1 := w0) end.
  pose proof (Inv_room w this r HI Hr) as Hokr.
  pose proof (ok_round _ Hokr gs Hgs) as [Hi Ht Hs Hm Hu].
  assert (0 <= bonus) as Hbonus.
  { subst bonus. pose proof (Z.div_pos (timer gs) 10). lia. }
  assert (roomObjs w1 = <[this := with_gameState (Some gs1) r]> (roomObjs w)) as Hobjs.
  { subst w1. unfold put_room. wsimpl. reflexivity. }
  destruct (checkForWinner_inv this w w1 r gs gs1 HI Hr Hp Hgs)
    as (w2 & Hrun & HI2 & r2 & Hr2); try reflexivity; try exact Hobjs.
  { constructor; subst gs1; cbn; auto.
    - subst table. apply scores_add_Forall.
      + apply scores_add_Forall; [| apply Hm, Hdm |].
        * eapply Forall_impl; [exact Hs|]. intros e He.
          apply (score_ok_status _ _ _ He). done.
        * intros s. apply score_ok_add. lia.
      + apply scores_get_add_Some, Hm, Hgm.
      + intros s. apply score_ok_add. lia.
    - intros p Hpm. subst table. now apply scores_get_add_Some, scores_get_add_Some, Hm. }
  { intros q s Hin Hge. subst gs1 table. cbn in Hin.
    apply scores_add_elem in Hin as [->|Hin]; [done|].
    apply scores_add_elem in Hin as [->|Hin]; [done|].
    exfalso. rewrite Forall_forall in Hs.
    destruct (Hs _ Hin) as (z & Hz & _ & Hlt). cbn in Hz. subst s.
    cbn in Hge. apply Z.leb_le in Hge. specialize (Hlt Hp). lia. }
  rewrite (bind_eq _ _ _ _ _ Hrun).
  mrun (thisRoom_eq _ _ _ Hr2).
  rewrite (bind_eq _ _ _ _ _ (clearInterval_disarm _ _)).
  eexists. split; [reflexivity|].
  apply Inv_timeouts.
  - apply Inv_intervals; [exact HI2 | apply disarm_sublist].
  - apply timeouts_snoc_ok.
    + intros a Ha. apply (base_timeouts _ (inv_base _ HI2)). exact Ha.
    + wsimpl. eauto.
Qed.

Lemma chat_append_bounded (l : list (string * string)) x :
  let history := (l ++ [x])%list in
  (length (if (100 <? length history)%nat
           then drop (length history - 100) history else history) <= 100)%nat.
Proof.
  intros history. destruct (100 <? length history)%nat eqn:E.
  - rewrite length_drop. lia.
  - apply Nat.ltb_ge in E. exact E.
Qed.

Lemma addChatMessage_inv this sender message w :
  Inv w -> exists w', addChatMessage this sender message w = Ret tt w' /\ Inv w' /\
    roomObjs w' = roomObjs w /\ wordLists w' = wordLists w.
Proof.
  intros HI. unfold addChatMessage, modify. eexists. split; [reflexivity|].
  split; [|split; reflexivity].
  apply Inv_chat; [exact HI|].
  intros a l. destruct (decide (a = this)) as [->|Hne].
  - rewrite lookup_insert_eq. intros [= <-]. apply chat_append_bounded.
  - rewrite lookup_insert_ne by done. apply HI.
Qed.

Lemma handleSendMessage_inv sock message w :
  Inv w ->
  (exists w', handleSendMessage sock message w = Ret tt w' /\ Inv w') \/
  (~ lists_ok (wordLists w) /\
   exists e w', handleSendMessage sock message w = Throw e w').
Proof.
  intros HI. unfold handleSendMessage. rewrite bind_gets. unfold id.
  destruct (currentPlayer w !! sock) as [me|]; [|eauto].
  destruct (roomOf w me) as [room|] eqn:Hroom; [|eauto].
  apply roomOf_Some in Hroom as (Hreg & r & Hr).
  destruct (addChatMessage_inv room me message w HI) as (w1 & Hrun & HI1 & Hobjs & Hlists).
  rewrite (bind_eq _ _ _ _ _ Hrun).
  assert (roomObjs w1 !! room = Some r) as Hr1 by now rewrite Hobjs.
  erewrite bind_eq; [|apply broadcastToRoom_eq; exact Hr1].
  erewrite bind_eq; [|apply thisRoom_eq; wsimpl; exact Hr1].
  set (w2 := set_log _ w1).
  assert (Inv w2) as HI2 by now apply Inv_log.
  case_bool_decide as Hp; [|eauto].
  destruct (Inv_playing w2 room r HI2 Hr1 Hp) as (gs & Hgs).
  erewrite bind_eq; [|eapply thisGameState_eq; [exact Hr1 | exact Hgs]].
  destruct (negb (bool_decide (Some me = drawingPlayerId gs))); [|eauto].
  destruct (handleGuess_inv room me message w2 r HI2 Hr1) as [?|(Hl & e & He)]; [auto|].
  right. split; [|eauto]. subst w2. wsimpl. now rewrite <- Hlists.
Qed.

Lemma keys_delete_absent k l : k ∉ l -> keys_delete k l = l.
Proof.
  intros Hk. unfold keys_delete. induction l as [|x l IH]; [reflexivity|].
  rewrite filter_cons. rewrite decide_True.
  - f_equal. apply IH. intros H. apply Hk. by right.
  - apply negb_True. rewrite bool_decide_spec. intros ->. apply Hk. by left.
Qed.

Lemma keys_delete_head k l : keys_delete k (k :: l) = keys_delete k l.
Proof.
  unfold keys_delete. rewrite filter_cons. rewrite decide_False; [reflexivity|].
  intros H. apply negb_True in H. rewrite bool_decide_spec in H. done.
Qed.

Lemma keys_delete_other k x l : x <> k -> keys_delete k (x :: l) = x :: keys_delete k l.
Proof.
  intros Hne. unfold keys_delete. rewrite filter_cons. rewrite decide_True; [reflexivity|].
  apply negb_True. rewrite bool_decide_spec. done.
Qed.

Lemma keys_delete_length_NoDup k l :
  NoDup l -> k ∈ l -> S (length (keys_delete k l)) = length l.
Proof.
  induction 1 as [|x l Hx Hnd IH]; intros Hk; [by apply elem_of_nil in Hk|].
  destruct (decide (x = k)) as [->|Hne].
  - rewrite keys_delete_head, keys_delete_absent by done. reflexivity.
  - rewrite keys_delete_other by done. cbn [length]. f_equal. apply IH.
    apply elem_of_cons in Hk as [?|?]; [congruence | done].
Qed.

Lemma keys_delete_NoDup k l : NoDup l -> NoDup (keys_delete k l).
Proof. intros. now apply NoDup_filter. Qed.

Lemma keys_delete_first k x l :
  head l = Some x -> x <> k -> head (keys_delete k l) = Some x.
Proof.
  destruct l as [|y l]; [done|]. cbn [head]. intros [= ->] Hne.
  unfold keys_delete. rewrite filter_cons, decide_True; [reflexivity|].
  apply negb_True. now rewrite bool_decide_spec.
Qed.

Lemma keys_delete_elem k x l : x ∈ keys_delete k l -> x ∈ l.
Proof. intros H. eapply elem_of_sublist; [exact H | apply keys_delete_sublist]. Qed.

(** The three ways out of [removePlayer], from the world [w0] it has
    reached when [w] was the world at the call. *)
Lemma removePlayer_exit this playerId w w0 r r0 :
  Inv w -> roomObjs w !! this = Some r -> playerId ∈ room_players r ->
  wordLists w0 = wordLists w -> rooms w0 = rooms w ->
  roomObjs w0 = <[this := r0]> (roomObjs w) ->
  roomChatHistory w0 = roomChatHistory w -> intervals w0 = intervals w ->
  nextHandle w0 = nextHandle w -> timeouts w0 = timeouts w ->
  maxPlayers r0 = maxPlayers r ->
  room_players r0 = keys_delete playerId (room_players r) ->
  (room_players r0 <> [] -> host r0 ∈ room_players r0) ->
  (room_players r0 <> [] -> head (room_players r0) = Some (host r0)) ->
  gameState r0 = gameState r -> _status r0 = _status r ->
  timerInterval r0 = timerInterval r ->
  let ends :=
    bool_decide (_status r0 = playing) && (length (room_players r0) <=? 1)%nat in
  let empty := (length (room_players r0) =? 0)%nat in
  exists w' post,
    (if ends then endGameDueToInsufficientPlayers this
     else if empty then cleanupRoom this
     else broadcastGlobalRoomListUpdate) w0 = Ret tt w' /\ Inv w' /\
    roomObjs w' !! this
    = Some (if ends then with_gameState None (status_set finished r0)
            else if empty then cleaned r0 else r0) /\
    rooms w' = (if empty then keys_delete this (rooms w) else rooms w) /\
    intervals w'
    = (if ends || empty then disarm (timerInterval r0) (intervals w) else intervals w) /\
    roomChatHistory w'
    = (if empty then delete this (roomChatHistory w) else roomChatHistory w) /\
    timeouts w' = timeouts w /\
    players w' = players w0 /\ playerObjs w' = playerObjs w0 /\
    currentPlayer w' = currentPlayer w0 /\
    log w' =
      (log w0 ++
       (if ends
        then broadcast_events w0 r0
               (chat_message None (inl not_enough_players) kind_system) None ++
             broadcast_events w0 r0
               (game_ended_early
                  (if (length (room_players r0) =? 1)%nat
                   then head (room_players r0) else None)) None
        else []) ++ post)%list.
Proof.
  intros HI Hr Hmem E1 E2 E3 E4 E5 E6 E7 Hmax Hroster Hhost Hfirst Hgs Hst Htimer ends empty.
  subst ends empty.
  pose proof (Inv_room w this r HI Hr) as Hokr.
  assert (roomObjs w0 !! this = Some r0) as Hr0 by (rewrite E3; apply lookup_insert_eq).
  pose proof (keys_delete_length_NoDup playerId _ (ok_nodup _ Hokr) Hmem) as Hlen.
  rewrite <- Hroster in Hlen.
  assert (Hrest : (_status r0 = playing -> (2 <= length (room_players r0))%nat) ->
            room_players r0 <> [] -> room_ok r0).
  { intros Hpl Hne. constructor.
    - rewrite Hmax. apply Hokr.
    - pose proof (ok_capacity _ Hokr). lia.
    - rewrite Hroster. apply keys_delete_NoDup, Hokr.
    - exact Hhost.
    - exact Hfirst.
    - intros Hp. split; [auto|]. rewrite Hgs. apply (ok_playing _ Hokr). congruence.
    - intros Hw. rewrite Hgs. apply (ok_waiting _ Hokr). congruence.
    - intros _. exact Hne.
    - intros gs Hgs0. rewrite Hgs in Hgs0.
      apply (round_ok_weaken (_status r) _ (room_players r)).
      + now apply (ok_round _ Hokr).
      + left. exact Hst.
      + intros p. rewrite Hroster. apply keys_delete_elem. }
  assert (Hword : lists_ok (wordLists w) -> word_ok r -> word_ok r0).
  { intros _ Hw gs. rewrite Hgs. apply Hw. }
  assert (PopulatedBut this w0) as Hbut.
  { intros a Ha Hne. rewrite E2 in Ha. rewrite E3, lookup_insert_ne by done.
    apply HI, Ha. }
  destruct (bool_decide (_status r0 = playing) && (length (room_players r0) <=? 1)%nat)
    eqn:Hend.
  - apply andb_true_iff in Hend as [Hp Hle].
    apply bool_decide_eq_true in Hp. apply Nat.leb_le in Hle.
    assert (room_players r0 <> []) as Hne.
    { intros E. rewrite E in Hlen. cbn in Hlen.
      destruct (ok_playing _ Hokr) as [H2 _]; [congruence | lia]. }
    unfold endGameDueToInsufficientPlayers. mrun (thisRoom_eq _ _ _ Hr0).
    rewrite (bind_eq _ _ _ _ _ (clearInterval_disarm _ _)).
    erewrite bind_eq; [|apply broadcastToRoom_eq; wsimpl; exact Hr0].
    erewrite bind_eq; [|apply broadcastToRoom_eq; wsimpl; exact Hr0].
    edestruct (set_status_eq this finished) as (st & Hset);
      [|erewrite bind_eq; [|exact Hset]]; [wsimpl; exact Hr0|]. clear Hset.
    erewrite bind_eq; [|apply updRoom_eq; wsimpl; apply lookup_insert_eq].
    set (r3 := with_gameState None (status_set finished r0)).
    match goal with |- exists w' post, broadcastGlobalRoomListUpdate ?wx = _ /\ _ =>
      set (w3 := wx) end.
    assert (roomObjs w3 = <[this := r3]> (roomObjs w)) as Hobjs.
    { subst w3. unfold put_room. wsimpl. rewrite E3. now rewrite !insert_insert_eq. }
    assert (Base w3) as HB3.
    { apply (Base_change this r r3 w); try exact Hobjs; try exact Hr;
        try (subst w3; wsimpl; assumption); try apply HI.
      - subst r3. constructor; cbn;
          rewrite ?status_set_maxPlayers, ?status_set_players, ?status_set_host,
            ?status_set_status; try done.
        + rewrite Hmax. apply Hokr.
        + pose proof (ok_capacity _ Hokr). lia.
        + rewrite Hroster. apply keys_delete_NoDup, Hokr.
      - intros _ _ gs. subst r3. cbn. done.
      - subst r3. cbn. now rewrite status_set_timerInterval.
      - now apply armed_null.
      - apply (chat_kept w); [apply HI | subst w3; wsimpl; assumption].
      - subst w3. wsimpl. rewrite E5. apply disarm_sublist.
      - apply timeouts_kept. subst w3. wsimpl. assumption. }
    assert (Populated w3) as Hpop3.
    { apply (Populated_change this r r3 w); try exact Hobjs; try exact Hr;
        try (subst w3; wsimpl; assumption); try apply HI.
      intros _. subst r3. cbn. now rewrite status_set_players. }
    rewrite (broadcastGlobalRoomListUpdate_quiet w3 Hpop3).
    assert ((length (room_players r0) =? 0)%nat = false) as ->.
    { apply Nat.eqb_neq. intros E. apply length_zero_iff_nil in E. done. }
    exists (announce w3), [mkEmit to_all (room_list_updated (listing w3) (recount w3))].
    split; [reflexivity|]. split; [now apply Inv_announce|].
    split; [unfold announce; wsimpl; fold (roomObjs w3); rewrite Hobjs;
            apply lookup_insert_eq|].
    split; [subst w3; unfold announce; wsimpl; exact E2|].
    split; [subst w3; unfold announce; wsimpl; now rewrite E5|].
    split; [subst w3; unfold announce; wsimpl; exact E4|].
    split; [subst w3; unfold announce; wsimpl; exact E7|].
    repeat (split; [reflexivity|]).
    subst w3. unfold announce. wsimpl. now rewrite <- !app_assoc.
  - apply andb_false_iff in Hend.
    assert (Hplay : _status r0 = playing -> (2 <= length (room_players r0))%nat).
    { intros Hp. destruct Hend as [Hf|Hf].
      - apply bool_decide_eq_false in Hf. done.
      - apply Nat.leb_gt in Hf. lia. }
    destruct (length (room_players r0) =? 0)%nat eqn:Hzero.
    + apply Nat.eqb_eq, length_zero_iff_nil in Hzero.
      rewrite (cleanupRoom_eq this w0 r0 Hr0 Hzero Hbut).
      eexists _, [_]. split; [reflexivity|]. split.
      { apply Inv_announce.
        * apply (Base_cleaned this r r0 w); auto; unfold cleanedW; wsimpl;
            rewrite ?E1, ?E2, ?E3, ?E4, ?E5, ?E6, ?E7; try reflexivity; try apply HI.
          -- rewrite Hmax. apply Hokr.
          -- intros Hp. specialize (Hplay Hp). rewrite Hzero in Hplay. cbn in Hplay. lia.
          -- now rewrite insert_insert_eq.
        * now apply Populated_cleanedW. }
      split; [unfold announce, cleanedW; wsimpl; apply lookup_insert_eq|].
      split; [unfold announce, cleanedW; wsimpl; now rewrite E2|].
      split; [unfold announce, cleanedW; wsimpl; now rewrite E5|].
      split; [unfold announce, cleanedW; wsimpl; now rewrite E4|].
      split; [unfold announce, cleanedW; wsimpl; exact E7|].
      repeat (split; [reflexivity|]). reflexivity.
    + apply Nat.eqb_neq in Hzero.
      assert (room_players r0 <> []) as Hne by (intros E; rewrite E in Hzero; done).
      specialize (Hrest Hplay Hne).
      assert (Base w0) as HB0.
      { apply (Base_change this r r0 w); auto; try apply HI.
        - apply (armed_kept this r r0 w); [apply HI | exact Hr | now rewrite E5 |].
          intros gs' Hgs'. exists gs'. split; [congruence | done].
        - now apply (chat_kept w); [apply HI|].
        - now rewrite E5.
        - now apply timeouts_kept. }
      assert (Populated w0) as Hpop0.
      { apply (Populated_change this r r0 w); auto. apply HI. }
      rewrite (broadcastGlobalRoomListUpdate_quiet w0 Hpop0).
      eexists _, [_]. split; [reflexivity|]. split; [now apply Inv_announce|].
      split; [unfold announce; wsimpl; exact Hr0|].
      split; [unfold announce; wsimpl; exact E2|].
      split; [unfold announce; wsimpl; exact E5|].
      split; [unfold announce; wsimpl; exact E4|].
      split; [unfold announce; wsimpl; exact E7|].
      repeat (split; [reflexivity|]). reflexivity.
Qed.

Lemma status_set_hostPlayer s r : hostPlayer (status_set s r) = hostPlayer r.
Proof. unfold status_set. now case_decide. Qed.

Lemma removePlayer_result this playerId w r :
  Inv w -> roomObjs w !! this = Some r -> playerId ∈ room_players r ->
  exists w' post, removePlayer this playerId w = Ret tt w' /\ Inv w' /\
    roomObjs w' !! this = Some (after_leave playerId r) /\
    rooms w' = (if (length (keys_delete playerId (room_players r)) =? 0)%nat
                then keys_delete this (rooms w) else rooms w) /\
    intervals w'
    = (if bool_decide (_status r = playing)
          && (length (keys_delete playerId (room_players r)) <=? 1)%nat
          || (length (keys_delete playerId (room_players r)) =? 0)%nat
       then disarm (timerInterval r) (intervals w) else intervals w) /\
    roomChatHistory w'
    = (if (length (keys_delete playerId (room_players r)) =? 0)%nat
       then delete this (roomChatHistory w) else roomChatHistory w) /\
    timeouts w' = timeouts w /\
    players w' = players w /\ playerObjs w' = playerObjs w /\
    currentPlayer w' = currentPlayer w /\
    log w' = (log w ++ leave_events playerId w r ++ post)%list.
Proof.
  intros HI Hr Hmem. unfold removePlayer. mrun (thisRoom_eq _ _ _ Hr).
  rewrite bool_decide_eq_true_2 by done.
  pose proof (Inv_room w this r HI Hr) as Hokr.
  mrun (updRoom_eq _ (fun r => with_room_players (keys_delete playerId (room_players r)) r)
          _ _ Hr).
  rewrite bind_gets.
  erewrite bind_eq; [|apply broadcastToRoom_eq; apply put_room_lookup].
  erewrite bind_eq; [|apply thisRoom_eq; wsimpl; apply lookup_insert_eq].
  wsimpl. unfold leave_events, after_leave.
  destruct (keys_delete playerId (room_players r)) as [|newHostId rest] eqn:Hrest.
  - rewrite bind_ret.
    erewrite bind_eq; [|apply thisRoom_eq; wsimpl; apply lookup_insert_eq].
    erewrite bind_eq; [|apply broadcastToRoom_eq; wsimpl; apply lookup_insert_eq].
    edestruct (removePlayer_exit this playerId w) as
      (w' & post & Hrun & HI' & Hobj & Hrooms & Hiv & Hch & Hto & Hpl & Hpo & Hcp & Hlog);
      [exact HI | exact Hr | exact Hmem | ..].
    15:{ exists w', post. split; [exact Hrun|]. split; [exact HI'|].
         split; [exact Hobj|]. split; [exact Hrooms|].
         split; [exact Hiv|]. split; [exact Hch|]. split; [exact Hto|].
         split; [exact Hpl|]. split; [exact Hpo|]. split; [exact Hcp|].
         rewrite Hlog. wsimpl. rewrite <- !app_assoc. reflexivity. }
    all: try reflexivity; try exact Hrest.
    all: cbn; done.
  - case_bool_decide as Hhost.
    + rewrite bind_assoc.
      erewrite bind_eq; [|apply updRoom_eq; wsimpl; apply lookup_insert_eq].
      erewrite bind_eq; [|apply broadcastToRoom_eq; apply put_room_lookup].
      erewrite bind_eq; [|apply thisRoom_eq; wsimpl; apply lookup_insert_eq].
      erewrite bind_eq; [|apply broadcastToRoom_eq; wsimpl; apply lookup_insert_eq].
      edestruct (removePlayer_exit this playerId w) as
        (w' & post & Hrun & HI' & Hobj & Hrooms & Hiv & Hch & Hto & Hpl & Hpo & Hcp & Hlog);
        [exact HI | exact Hr | exact Hmem | ..].
      15:{ exists w', post. split; [exact Hrun|]. split; [exact HI'|].
           split; [exact Hobj|]. split; [exact Hrooms|].
           split; [exact Hiv|]. split; [exact Hch|]. split; [exact Hto|].
           split; [exact Hpl|]. split; [exact Hpo|]. split; [exact Hcp|].
           rewrite Hlog. wsimpl.
           destruct (bool_decide (_status r = playing) && _);
             cbn [length Nat.eqb]; wsimpl; rewrite ?status_set_host;
             rewrite <- !app_assoc; reflexivity. }
      all: try reflexivity; try (cbn; symmetry; exact Hrest).
      all: try (wsimpl; now rewrite insert_insert_eq).
      all: cbn; intros _; by left.
    + rewrite bind_ret.
      erewrite bind_eq; [|apply thisRoom_eq; wsimpl; apply lookup_insert_eq].
      erewrite bind_eq; [|apply broadcastToRoom_eq; wsimpl; apply lookup_insert_eq].
      edestruct (removePlayer_exit this playerId w) as
        (w' & post & Hrun & HI' & Hobj & Hrooms & Hiv & Hch & Hto & Hpl & Hpo & Hcp & Hlog);
        [exact HI | exact Hr | exact Hmem | ..].
      15:{ exists w', post. split; [exact Hrun|]. split; [exact HI'|].
           split; [exact Hobj|]. split; [exact Hrooms|].
           split; [exact Hiv|]. split; [exact Hch|]. split; [exact Hto|].
           split; [exact Hpl|]. split; [exact Hpo|]. split; [exact Hcp|].
           rewrite Hlog. wsimpl.
           destruct (bool_decide (_status r = playing) && _);
             cbn [length Nat.eqb]; wsimpl; rewrite ?status_set_host;
             rewrite <- !app_assoc; reflexivity. }
      all: try reflexivity; try (cbn; symmetry; exact Hrest).
      all: assert (room_players r <> []) as Hne
        by (intros E; rewrite E in Hmem; by apply elem_of_nil in Hmem).
      * cbn. intros _. rewrite <- Hrest. apply keys_delete_in; [|done].
        now apply (ok_host _ Hokr).
      * cbn [room_players with_room_players host]. intros _. rewrite <- Hrest.
        apply keys_delete_first; [|done].
        now apply (ok_first _ Hokr).
Qed.

Lemma removePlayer_inv this playerId w r :
  Inv w -> roomObjs w !! this = Some r ->
  exists w', removePlayer this playerId w = Ret tt w' /\ Inv w'.
Proof.
  intros HI Hr. destruct (decide (playerId ∈ room_players r)) as [Hmem|Hno].
  - destruct (removePlayer_result this playerId w r HI Hr Hmem) as (w' & _ & ? & ? & _).
    eauto.
  - exists w. split; [|exact HI]. unfold removePlayer. mrun (thisRoom_eq _ _ _ Hr).
    now rewrite bool_decide_eq_false_2.
Qed.

Lemma handleLeaveRoom_inv sock w :
  Inv w -> exists w', handleLeaveRoom sock w = Ret tt w' /\ Inv w'.
Proof.
  intros HI. unfold handleLeaveRoom. rewrite bind_gets. unfold id.
  destruct (currentPlayer w !! sock) as [me|]; [|eauto].
  assert (exists w1, match roomOf w me with
                     | Some room => removePlayer room me
                     | None => ret tt
                     end w = Ret tt w1 /\ Inv w1) as (w1 & Hrun & HI1).
  { destruct (roomOf w me) as [room|] eqn:Hroom; [|eauto].
    apply roomOf_Some in Hroom as (Hreg & r & Hr).
    now apply (removePlayer_inv room me w r). }
  rewrite (bind_eq _ _ _ _ _ Hrun). rewrite !bind_modify.
  eexists. split; [reflexivity|].
  apply Inv_log, Inv_currentPlayer, Inv_players, HI1.
Qed.

Lemma handleDisconnect_inv sock w :
  Inv w -> exists w', handleDisconnect sock w = Ret tt w' /\ Inv w'.
Proof.
  intros HI. unfold handleDisconnect. rewrite bind_gets. unfold id.
  destruct (currentPlayer w !! sock) as [me|]; [|eauto].
  assert (exists w1, match roomOf w me with
                     | Some room => removePlayer room me
                     | None => ret tt
                     end w = Ret tt w1 /\ Inv w1) as (w1 & Hrun & HI1).
  { destruct (roomOf w me) as [room|] eqn:Hroom; [|eauto].
    apply roomOf_Some in Hroom as (Hreg & r & Hr).
    now apply (removePlayer_inv room me w r). }
  rewrite (bind_eq _ _ _ _ _ Hrun).
  eexists. split; [reflexivity|]. apply Inv_players, HI1.
Qed.

Lemma keys_set_NoDup k l : NoDup l -> NoDup (keys_set k l).
Proof.
  intros Hnd. unfold keys_set. case_bool_decide as Hin; [exact Hnd|].
  apply NoDup_app. split; [exact Hnd|]. split; [|apply NoDup_singleton].
  intros x Hx Hx'. apply list_elem_of_singleton in Hx' as ->. done.
Qed.

Lemma keys_set_elem k x l : x ∈ keys_set k l <-> x ∈ l \/ x = k.
Proof.
  unfold keys_set. case_bool_decide as Hin.
  - split; [auto|]. intros [?| ->]; done.
  - rewrite elem_of_app, list_elem_of_singleton. done.
Qed.

Lemma keys_set_length k l : (length (keys_set k l) <= S (length l))%nat.
Proof.
  unfold keys_set. case_bool_decide; [lia|]. rewrite length_app. cbn. lia.
Qed.

Lemma keys_set_nonempty k l : keys_set k l <> [].
Proof.
  unfold keys_set. case_bool_decide as Hin.
  - intros ->. by apply elem_of_nil in Hin.
  - destruct l; done.
Qed.

(** [Base] after a room was created. *)
Lemma Base_new this r' w w' :
  Base w -> roomObjs w !! this = None ->
  room_ok r' -> gameState r' = None -> timerInterval r' = None ->
  wordLists w' = wordLists w -> rooms w' = keys_set this (rooms w) ->
  roomObjs w' = <[this := r']> (roomObjs w) ->
  roomChatHistory w' = <[this := []]> (roomChatHistory w) ->
  intervals w' = intervals w -> nextHandle w' = nextHandle w ->
  timeouts w' = timeouts w ->
  Base w'.
Proof.
  intros HB Hnone Hok Hgs Htimer E1 E2 E3 E4 E5 E6 E7. base_names HB.
  constructor; rewrite ?E1, ?E2, ?E3, ?E4, ?E5, ?E6, ?E7; try assumption.
  - intros a r0. destruct (decide (a = this)) as [->|Hne].
    + rewrite lookup_insert_eq. now intros [= <-].
    + rewrite lookup_insert_ne by done. eauto.
  - intros Hl a r0. destruct (decide (a = this)) as [->|Hne].
    + rewrite lookup_insert_eq. intros [= <-] gs. congruence.
    + rewrite lookup_insert_ne by done. eauto.
  - intros a Ha. apply keys_set_elem in Ha. destruct (decide (a = this)) as [->|Hne].
    + rewrite lookup_insert_eq. eauto.
    + rewrite lookup_insert_ne by done. destruct Ha; [eauto | done].
  - now apply keys_set_NoDup.
  - intros h a Hin. destruct (Hbint h a Hin) as (Hlt & r0 & Hr0 & Ht).
    split; [exact Hlt|]. rewrite lookup_insert_ne by congruence. eauto.
  - intros a r0 gs Ha. destruct (decide (a = this)) as [->|Hne].
    + rewrite lookup_insert_eq. intros [= <-]. congruence.
    + rewrite lookup_insert_ne by done. eauto.
  - intros a Ha. destruct (decide (a = this)) as [->|Hne].
    + rewrite lookup_insert_eq. eauto.
    + rewrite lookup_insert_ne by done. eauto.
  - intros a l. destruct (decide (a = this)) as [->|Hne].
    + rewrite lookup_insert_eq. intros [= <-]. cbn. lia.
    + rewrite lookup_insert_ne by done. eauto.
Qed.

Lemma handleCreateRoom_result sock n rn l roomId playerId name w :
  Inv w -> roomObjs w !! roomId = None -> truthy n = Some name ->
  let r' := mkGameRoom (default (name ++ "'s room") (truthy rn)) (default "en" l)
              [playerId] playerId (Some playerId) None waiting None 8%nat None in
  exists w', handleCreateRoom sock n rn l roomId playerId w = Ret tt w' /\ Inv w' /\
    roomObjs w' !! roomId = Some r' /\
    (forall a, a <> roomId -> roomObjs w' !! a = roomObjs w !! a) /\
    rooms w' = keys_set roomId (rooms w) /\
    roomChatHistory w' = <[roomId := []]> (roomChatHistory w) /\
    playerObjs w' !! playerId = Some (mkPlayer name sock (Some roomId)) /\
    (forall p, p <> playerId -> playerObjs w' !! p = playerObjs w !! p) /\
    currentPlayer w' = <[sock := playerId]> (currentPlayer w) /\
    players w' = {[playerId]} ∪ players w /\
    intervals w' = intervals w /\ timeouts w' = timeouts w /\
    log w'
    = (log w ++ [mkEmit (to_socket sock) (player_joined playerId [playerId] playerId);
                 mkEmit (to_socket sock) (room_created roomId playerId);
                 mkEmit to_all (room_list_updated (listing w') (recount w'))])%list.
Proof.
  intros HI Hfresh Hname r'. unfold handleCreateRoom. rewrite Hname.
  rewrite !bind_modify. unfold GameRoom_new.
  repeat (rewrite bind_assoc || rewrite bind_modify). unfold addPlayer.
  rewrite !bind_assoc.
  erewrite bind_eq; [|apply thisRoom_eq; wsimpl; apply lookup_insert_eq].
  cbn [maxPlayers room_players length Nat.leb].
  rewrite !bind_assoc.
  erewrite bind_eq; [|apply updRoom_eq; wsimpl; apply lookup_insert_eq].
  repeat (rewrite bind_assoc || rewrite bind_modify).
  erewrite bind_eq; [|apply thisRoom_eq; wsimpl; apply lookup_insert_eq].
  erewrite bind_eq; [|apply broadcastToRoom_eq; wsimpl; apply lookup_insert_eq].
  rewrite ?bind_assoc.
  edestruct (updateStatistics_eq roomId act_add) as (st & Hst);
    [|erewrite bind_eq; [|exact Hst]]; [wsimpl; apply lookup_insert_eq|]. clear Hst.
  rewrite bind_ret, bind_modify. unfold emit. rewrite bind_modify.
  match goal with |- exists w', broadcastGlobalRoomListUpdate ?wx = _ /\ _ =>
    set (w1 := wx) end.
  assert (roomObjs w1 = <[roomId := r']> (roomObjs w)) as Hobjs.
  { subst w1. unfold put_room. wsimpl. now rewrite !insert_insert_eq. }
  assert (room_players r' = [playerId]) as Hroster by reflexivity.
  assert (Base w1) as HB1.
  { apply (Base_new roomId r' w); try reflexivity; try exact Hobjs; try exact Hfresh.
    - apply HI.
    - constructor; rewrite ?Hroster; try done.
      + cbn. lia.
      + apply NoDup_singleton.
      + intros _. by left. }
  assert (Populated w1) as Hpop1.
  { intros a Ha. rewrite Hobjs. subst w1. wsimpl. apply keys_set_elem in Ha.
    destruct (decide (a = roomId)) as [->|Hne].
    - rewrite lookup_insert_eq. exists r'. split; [done|]. now rewrite Hroster.
    - rewrite lookup_insert_ne by done. destruct Ha as [Ha|Ha]; [|done].
      apply HI, Ha. }
  rewrite (broadcastGlobalRoomListUpdate_quiet w1 Hpop1).
  exists (announce w1). split; [reflexivity|]. split; [now apply Inv_announce|].
  assert (playerObjs w1 !! playerId = Some (mkPlayer name sock (Some roomId))) as Hme.
  { subst w1. wsimpl. rewrite lookup_alter_eq, lookup_insert_eq. reflexivity. }
  split; [unfold announce; wsimpl; fold (roomObjs w1); rewrite Hobjs;
          apply lookup_insert_eq|].
  split; [intros a Ha; unfold announce; wsimpl; fold (roomObjs w1); rewrite Hobjs;
          now apply lookup_insert_ne|].
  split; [reflexivity|]. split; [reflexivity|].
  split; [exact Hme|].
  split; [intros p Hp; subst w1; unfold announce; wsimpl;
          rewrite lookup_alter_ne, lookup_insert_ne by done; reflexivity|].
  split; [reflexivity|]. split; [reflexivity|].
  split; [reflexivity|]. split; [reflexivity|].
  assert (log w1
          = (log w ++ [mkEmit (to_socket sock) (player_joined playerId [playerId] playerId);
                       mkEmit (to_socket sock) (room_created roomId playerId)])%list)
    as Hlog1.
  { subst w1. wsimpl. unfold broadcast_events, recipients. wsimpl.
    change (keys_set playerId []) with [playerId]. cbn [omap list_omap].
    rewrite lookup_alter_eq, lookup_insert_eq. cbn. now rewrite <- app_assoc. }
  transitivity (log w1 ++ [mkEmit to_all (room_list_updated (listing w1) (recount w1))])%list;
    [reflexivity|].
  rewrite Hlog1, <- app_assoc. reflexivity.
Qed.

Lemma handleCreateRoom_inv sock n rn l roomId playerId w :
  Inv w -> roomObjs w !! roomId = None ->
  exists w', handleCreateRoom sock n rn l roomId playerId w = Ret tt w' /\ Inv w'.
Proof.
  intros HI Hfresh. destruct (truthy n) as [name|] eqn:Hname.
  - destruct (handleCreateRoom_result sock n rn l roomId playerId name w HI Hfresh Hname)
      as (w' & Hrun & HI' & _). eauto.
  - unfold handleCreateRoom. rewrite Hname.
    eexists. split; [reflexivity|]. now apply Inv_log.
Qed.

Lemma try_catch_ret {A} (m : M A) h w a w' :
  m w = Ret a w' -> try_catch m h w = Ret a w'.
Proof. unfold try_catch. now intros ->. Qed.

Lemma try_catch_throw {A} (m : M A) h w e w' :
  m w = Throw e w' -> try_catch m h w = h e w'.
Proof. unfold try_catch. now intros ->. Qed.

Lemma rooms_get_eq w a r :
  a ∈ rooms w -> roomObjs w !! a = Some r -> rooms_get (Some a) w = Some a.
Proof.
  intros Ha Hr. unfold rooms_get. now rewrite bool_decide_eq_true_2, Hr.
Qed.

(** A request to join a room that has eight members. *)
Lemma handleJoinRoom_full sock roomId_ playerName_ roomId name playerId w r :
  truthy roomId_ = Some roomId -> truthy playerName_ = Some name ->
  roomId ∈ rooms w -> roomObjs w !! roomId = Some r -> _status r = waiting ->
  (maxPlayers r <= length (room_players r))%nat ->
  handleJoinRoom sock roomId_ playerName_ playerId w
  = Ret tt
      (set_log (log w ++ [mkEmit (to_socket sock) (error "Room is full")])
         (set_currentPlayer (<[sock := playerId]> (currentPlayer w))
            (set_players ({[playerId]} ∪ players w)
               (set_playerObjs
                  (<[playerId := mkPlayer name sock (Some roomId)]> (playerObjs w)) w)))).
Proof.
  intros Hid Hname Hreg Hr Hst Hfull. unfold handleJoinRoom. rewrite Hid, Hname.
  rewrite bind_gets. unfold id. rewrite (rooms_get_eq w roomId r Hreg Hr).
  mrun (thisRoom_eq _ _ _ Hr). rewrite (bool_decide_eq_true_2 _ Hst). cbn [negb].
  erewrite try_catch_throw.
  2:{ rewrite !bind_modify. unfold addPlayer.
      rewrite !bind_assoc. erewrite bind_eq; [|apply thisRoom_eq; wsimpl; exact Hr].
      apply Nat.leb_le in Hfull. rewrite Hfull. reflexivity. }
  reflexivity.
Qed.

(** A request to join a waiting room that has a free place. *)
Lemma handleJoinRoom_joined sock roomId_ playerName_ roomId name playerId w r :
  Inv w -> truthy roomId_ = Some roomId -> truthy playerName_ = Some name ->
  roomId ∈ rooms w -> roomObjs w !! roomId = Some r -> _status r = waiting ->
  (length (room_players r) < maxPlayers r)%nat ->
  let r' := with_room_players (keys_set playerId (room_players r)) r in
  exists w', handleJoinRoom sock roomId_ playerName_ playerId w = Ret tt w' /\ Inv w' /\
    roomObjs w' !! roomId = Some r' /\
    (forall a, a <> roomId -> roomObjs w' !! a = roomObjs w !! a) /\
    rooms w' = rooms w /\
    roomChatHistory w' = roomChatHistory w /\
    playerObjs w' !! playerId = Some (mkPlayer name sock (Some roomId)) /\
    (forall p, p <> playerId -> playerObjs w' !! p = playerObjs w !! p) /\
    currentPlayer w' = <[sock := playerId]> (currentPlayer w) /\
    players w' = {[playerId]} ∪ players w /\
    intervals w' = intervals w /\ timeouts w' = timeouts w /\
    log w'
    = (log w ++ broadcast_events w' r'
                  (player_joined playerId (room_players r') (host r)) None
             ++ [mkEmit (to_socket sock)
                   (chat_history (default [] (roomChatHistory w !! roomId)));
                 mkEmit (to_socket sock)
                   (room_joined roomId playerId (room_players r') (host r));
                 mkEmit to_all (room_list_updated (listing w') (recount w'))])%list.
Proof.
  intros HI Hid Hname Hreg Hr Hst Hfree r'. unfold handleJoinRoom. rewrite Hid, Hname.
  rewrite bind_gets. unfold id. rewrite (rooms_get_eq w roomId r Hreg Hr).
  mrun (thisRoom_eq _ _ _ Hr). rewrite (bool_decide_eq_true_2 _ Hst). cbn [negb].
  pose proof (Inv_room w roomId r HI Hr) as Hokr.
  rewrite (ok_maxPlayers _ Hokr) in Hfree.
  set (w2 :=
    set_log (log w ++ broadcast_events
                        (set_playerObjs
                           (alter (fun p => mkPlayer (player_name p) (socket p) (Some roomId))
                              playerId
                              (<[playerId := mkPlayer name sock (Some roomId)]>
                                 (playerObjs w))) w) r'
                        (player_joined playerId (room_players r') (host r)) None
                   ++ [mkEmit (to_socket sock)
                         (chat_history (default [] (roomChatHistory w !! roomId)));
                       mkEmit (to_socket sock)
                         (room_joined roomId playerId (room_players r') (host r))])
      (set_playerObjs
         (alter (fun p => mkPlayer (player_name p) (socket p) (Some roomId)) playerId
            (<[playerId := mkPlayer name sock (Some roomId)]> (playerObjs w)))
         (put_room roomId r'
            (set_currentPlayer (<[sock := playerId]> (currentPlayer w))
               (set_players ({[playerId]} ∪ players w) w))))).
  assert ((modify (fun w =>
                 set_players ({[playerId]} ∪ players w)
                   (set_playerObjs
                      (<[playerId := mkPlayer name sock (Some roomId)]> (playerObjs w)) w)) ;;
               modify (fun w => set_currentPlayer (<[sock := playerId]> (currentPlayer w)) w) ;;
               addPlayer roomId playerId ;;
               chatHistory <- getChatHistory roomId ;;
               emit (to_socket sock) (chat_history chatHistory) ;;
               r <- thisRoom roomId ;;
               emit (to_socket sock)
                 (room_joined roomId playerId (room_players r) (host r)) ;;
               broadcastGlobalRoomListUpdate) w
              = broadcastGlobalRoomListUpdate w2) as Hrun.
  { rewrite !bind_modify. unfold addPlayer.
    rewrite !bind_assoc. erewrite bind_eq; [|apply thisRoom_eq; wsimpl; exact Hr].
    assert ((maxPlayers r <=? length (room_players r))%nat = false) as ->.
    { apply Nat.leb_gt. rewrite (ok_maxPlayers _ Hokr). exact Hfree. }
    rewrite !bind_assoc.
    erewrite bind_eq; [|apply updRoom_eq; wsimpl; exact Hr].
    repeat (rewrite bind_assoc || rewrite bind_modify).
    erewrite bind_eq; [|apply thisRoom_eq; wsimpl; apply lookup_insert_eq].
    erewrite bind_eq; [|apply broadcastToRoom_eq; wsimpl; apply lookup_insert_eq].
    unfold getChatHistory. rewrite bind_gets. unfold emit at 1. rewrite bind_modify.
    erewrite bind_eq; [|apply thisRoom_eq; wsimpl; apply lookup_insert_eq].
    unfold emit. rewrite bind_modify. f_equal. subst w2. unfold put_room. wsimpl.
    rewrite <- !app_assoc. reflexivity. }
  assert (roomObjs w2 = <[roomId := r']> (roomObjs w)) as Hobjs by reflexivity.
  assert (Base w2) as HB2.
  { pose proof (ok_waiting _ Hokr Hst) as Hnull.
    apply (Base_change roomId r r' w); try reflexivity; try exact Hr.
    + apply HI.
    + subst r'. constructor; cbn; try apply Hokr.
      * pose proof (keys_set_length playerId (room_players r)). lia.
      * apply keys_set_NoDup, Hokr.
      * intros _. apply keys_set_elem. left. apply (ok_host _ Hokr).
        destruct (inv_populated _ HI roomId Hreg) as (r0 & Hr0 & Hne). congruence.
      * intros _. destruct (inv_populated _ HI roomId Hreg) as (r0 & Hr0 & Hne).
        assert (r0 = r) as -> by congruence.
        pose proof (ok_first _ Hokr Hne) as Hfirst. unfold keys_set.
        case_bool_decide; [exact Hfirst|].
        destruct (room_players r); [done | exact Hfirst].
      * intros Hp. congruence.
      * intros _. apply keys_set_nonempty.
      * intros gs. congruence.
    + intros _ Hw gs. subst r'. cbn. apply Hw.
    + now apply armed_null.
    + apply (chat_kept w); [apply HI | reflexivity].
    + now apply timeouts_kept. }
  assert (Populated w2) as Hpop2.
  { apply (Populated_change roomId r r' w); try reflexivity; try exact Hr.
    + apply HI.
    + intros _. subst r'. cbn. apply keys_set_nonempty. }
  rewrite (broadcastGlobalRoomListUpdate_quiet w2 Hpop2) in Hrun.
  rewrite (try_catch_ret _ _ _ _ _ Hrun).
  exists (announce w2). split; [reflexivity|]. split; [now apply Inv_announce|].
  split; [apply lookup_insert_eq|].
  split; [intros a Ha; now apply lookup_insert_ne|].
  split; [reflexivity|]. split; [reflexivity|].
  split; [cbn; rewrite lookup_alter_eq, lookup_insert_eq; reflexivity|].
  split; [intros p Hp; cbn; rewrite lookup_alter_ne, lookup_insert_ne by done;
          reflexivity|].
  split; [reflexivity|]. split; [reflexivity|].
  split; [reflexivity|]. split; [reflexivity|].
  cbn. rewrite <- !app_assoc. reflexivity.
Qed.

Lemma handleJoinRoom_inv sock roomId_ playerName_ playerId w :
  Inv w ->
  exists w', handleJoinRoom sock roomId_ playerName_ playerId w = Ret tt w' /\ Inv w'.
Proof.
  intros HI.
  assert (Herr : forall message, exists w',
    emit (to_socket sock) (error message) w = Ret tt w' /\ Inv w').
  { intros message. eexists. split; [reflexivity|]. now apply Inv_log. }
  destruct (truthy roomId_) as [roomId|] eqn:Hid;
    [|unfold handleJoinRoom; rewrite Hid; apply Herr].
  destruct (truthy playerName_) as [name|] eqn:Hname;
    [|unfold handleJoinRoom; rewrite Hid, Hname; apply Herr].
  destruct (rooms_get (Some roomId) w) as [room|] eqn:Hget.
  2:{ unfold handleJoinRoom. rewrite Hid, Hname, bind_gets. unfold id. rewrite Hget.
      apply Herr. }
  apply rooms_get_Some in Hget as (-> & Hreg & r & Hr).
  destruct (decide (_status r = waiting)) as [Hst|Hst].
  2:{ unfold handleJoinRoom. rewrite Hid, Hname, bind_gets. unfold id.
      rewrite (rooms_get_eq w roomId r Hreg Hr). mrun (thisRoom_eq _ _ _ Hr).
      rewrite (bool_decide_eq_false_2 _ Hst). apply Herr. }
  destruct (le_lt_dec (maxPlayers r) (length (room_players r))) as [Hfull|Hfree].
  - rewrite (handleJoinRoom_full sock roomId_ playerName_ roomId name playerId w r);
      try assumption.
    eexists. split; [reflexivity|].
    apply Inv_log, Inv_currentPlayer, Inv_players, Inv_playerObjs, HI.
  - destruct (handleJoinRoom_joined sock roomId_ playerName_ roomId name playerId w r)
      as (w' & Hrun & HI' & _); try assumption.
    eauto.
Qed.

(** Every reaction keeps the invariant; and apart from the delayed
    continuation it returns, as long as no word list is empty. *)
Lemma react_inv i w :
  Inv w -> enabled i w ->
  (forall w', react i w = Ret tt w' -> Inv w') /\
  (lists_ok (wordLists w) -> is_timeout i = false ->
   exists w', react i w = Ret tt w').
Proof.
  intros HI Hen.
  assert (Htotal : forall m : M unit,
    (exists w', m w = Ret tt w' /\ Inv w') ->
    (forall w', m w = Ret tt w' -> Inv w') /\
    (lists_ok (wordLists w) -> is_timeout i = false -> exists w', m w = Ret tt w')).
  { intros m (w' & Hrun & HI'). split.
    - intros w0. rewrite Hrun. now intros [= <-].
    - eauto. }
  destruct i; cbn [react enabled] in *.
  - apply Htotal, handleConnection_inv, HI.
  - apply Htotal, handleCreateRoom_inv; [exact HI | apply Hen].
  - apply Htotal, handleJoinRoom_inv, HI.
  - apply Htotal, handleStartGame_inv, HI.
  - apply Htotal, handleResetGame_inv, HI.
  - destruct (handleSendMessage_inv sock message w HI) as [H|(Hl & e & w' & He)].
    + now apply Htotal.
    + split; [|done]. intros w0. rewrite He. done.
  - apply Htotal, handleUpdateCanvas_inv, HI.
  - apply Htotal, handleClearCanvas_inv, HI.
  - apply Htotal. destruct (handleGetRooms_inv sock w HI) as [E HI'].
    rewrite E in HI'. eauto.
  - apply Htotal, handleLeaveRoom_inv, HI.
  - apply Htotal, handleDisconnect_inv, HI.
  - apply Htotal, (timerTick_inv handle), Hen. exact HI.
  - split; [|done]. intros w'. rewrite bind_modify.
    set (w1 := set_timeouts _ w).
    assert (room ∈ timeouts w) as Hin by (eapply list_elem_of_lookup_2; exact Hen).
    destruct (base_timeouts _ (inv_base _ HI) room Hin) as [r Hr].
    assert (Inv w1) as HI1.
    { apply Inv_timeouts; [exact HI|]. intros a Ha.
      apply (base_timeouts _ (inv_base _ HI)).
      eapply elem_of_sublist; [exact Ha | apply sublist_delete]. }
    pose proof (startNewRound_inv room rnd w1 r HI1 Hr) as Hround.
    destruct (gameState r).
    + destruct Hround as (w2 & -> & HI2). now intros [= <-].
    + rewrite Hround. done.
Qed.

Lemma initial_Inv lists : Inv (initial lists).
Proof.
  assert (Hnil : forall (A : Type) (x : A), x ∈ @nil A -> False).
  { intros A x Hx. by apply elem_of_nil in Hx. }
  constructor.
  - constructor; cbn; try done; try constructor;
      try (intros; exfalso; eapply Hnil; eassumption);
      try (intros a r gs [h Ha]; exfalso; eapply Hnil, Ha).
  - intros a Ha. exfalso. eapply Hnil, Ha.
  - reflexivity.
Qed.

Lemma reachable_Inv w : reachable w -> Inv w.
Proof.
  induction 1 as [lists|w i w' Hreach IH [Hen Hrun]].
  - apply initial_Inv.
  - now apply (react_inv i w IH Hen).
Qed.

(** ** Sample worlds are reachable *)

Lemma enabledb_spec i w : enabledb i w = true -> enabled i w.
Proof.
  destruct i; cbn; try done.
  - destruct (roomObjs w !! roomId), (playerObjs w !! playerId); done.
  - destruct (playerObjs w !! playerId); done.
  - apply bool_decide_eq_true.
  - apply bool_decide_eq_true.
Qed.

Lemma run_steps_reachable inputs : forall w w',
  reachable w -> run_steps inputs w = Some w' -> reachable w'.
Proof.
  induction inputs as [|i rest IH]; intros w w' Hreach; cbn.
  - now intros [= <-].
  - destruct (enabledb i w) eqn:Hen; [|done].
    destruct (react i w) as [[] w1|] eqn:Hrun; [|done].
    apply IH. eapply reachable_step; [exact Hreach|].
    split; [apply enabledb_spec; exact Hen | exact Hrun].
Qed.

Lemma lobby1_reachable : reachable lobby1.
Proof.
  apply (run_steps_reachable
           [on_connection 1%nat;
            on_create_room 1%nat (Some "Alice") None None "r1" "pA"]
           (initial demo_lists)); [apply reachable_initial | vm_compute; reflexivity].
Qed.

Lemma lobby2_reachable : reachable lobby2.
Proof.
  apply (run_steps_reachable
           [on_connection 2%nat;
            on_join_room 2%nat (Some "r1") (Some "Bob") "pB"] lobby1);
    [apply lobby1_reachable | vm_compute; reflexivity].
Qed.

Lemma game2_reachable : reachable game2.
Proof.
  apply (run_steps_reachable [on_start_game 1%nat 0%nat] lobby2);
    [apply lobby2_reachable | vm_compute; reflexivity].
Qed.

Lemma game_late_reachable : reachable game_late.
Proof.
  apply (run_steps_reachable (quick_rounds 10 true) game2);
    [apply game2_reachable | vm_compute; reflexivity].
Qed.

Lemma round_over_reachable : reachable round_over.
Proof.
  apply (run_steps_reachable (replicate 60 (on_interval 0%nat "r1")) game2);
    [apply game2_reachable | vm_compute; reflexivity].
Qed.

Lemma reset_pending_reachable : reachable reset_pending.
Proof.
  apply (run_steps_reachable [on_reset_game 1%nat] round_over);
    [apply round_over_reachable | vm_compute; reflexivity].
Qed.

(** ** What holds in every reachable world *)

Lemma scores_get_elem p t s : scores_get p t = Some s -> (p, s) ∈ t.
Proof.
  induction t as [|[k v] t IH]; cbn; [done|].
  case_decide as E.
  - intros [= <-]. subst k. by left.
  - intros H. right. auto.
Qed.

(** X1.  In every reachable world the registry holds no room twice, and
    every registered room has its object, at least one member, and a host
    who is one of its members. *)
Theorem registered_rooms_populated w a :
  reachable w -> a ∈ rooms w ->
  NoDup (rooms w) /\
  exists r, roomObjs w !! a = Some r /\ room_players r <> [] /\
            host r ∈ room_players r.
Proof.
  intros Hreach Ha. pose proof (reachable_Inv w Hreach) as HI.
  split; [apply HI|].
  destruct (inv_populated _ HI a Ha) as (r & Hr & Hne).
  exists r. split; [exact Hr|]. split; [exact Hne|].
  now apply (ok_host _ (Inv_room w a r HI Hr)).
Qed.

Lemma registered_rooms_populated_witness :
  exists r, roomObjs game2 !! "r1" = Some r /\ room_players r <> [] /\
            host r ∈ room_players r.
Proof.
  apply (registered_rooms_populated game2 "r1"); [apply game2_reachable | compute_done].
Defined.

(** X2.  In every reachable world every room object has [maxPlayers = 8],
    at most eight members, and no member twice. *)
Theorem roster_within_capacity w a r :
  reachable w -> roomObjs w !! a = Some r ->
  maxPlayers r = 8%nat /\ (length (room_players r) <= 8)%nat /\
  NoDup (room_players r).
Proof.
  intros Hreach Hr. pose proof (Inv_room w a r (reachable_Inv w Hreach) Hr) as Hok.
  split; [apply Hok|]. split; apply Hok.
Qed.

Lemma roster_within_capacity_witness :
  (length (room_players (the_room lobby2 "r1")) <= 8)%nat.
Proof.
  apply (roster_within_capacity lobby2 "r1"); [apply lobby2_reachable | reflexivity].
Defined.

(** X3.  In every reachable world a room that is [playing] has at least
    two members and a [gameState]; a room that is [waiting] has none; and
    a room that has a [gameState] has a member. *)
Theorem game_state_follows_status w a r :
  reachable w -> roomObjs w !! a = Some r ->
  (_status r = playing ->
     (2 <= length (room_players r))%nat /\ exists gs, gameState r = Some gs) /\
  (_status r = waiting -> gameState r = None) /\
  (gameState r <> None -> room_players r <> []).
Proof.
  intros Hreach Hr. pose proof (reachable_Inv w Hreach) as HI.
  pose proof (Inv_room w a r HI Hr) as Hok.
  split; [|split; apply Hok].
  intros Hp. split; [apply (ok_playing _ Hok Hp)|].
  now apply (Inv_playing w a r).
Qed.

Lemma game_state_follows_status_witness :
  (2 <= length (room_players (the_room game2 "r1")))%nat /\
  exists gs, gameState (the_room game2 "r1") = Some gs.
Proof.
  apply (game_state_follows_status game2 "r1"); [apply game2_reachable | reflexivity ..].
Defined.

(** X4.  In every reachable world every entry of a score table is a
    number that is not negative, and below 1000 while the room is
    [playing]; and every member of the room has an entry. *)
Theorem scores_are_numbers w a r gs :
  reachable w -> roomObjs w !! a = Some r -> gameState r = Some gs ->
  (forall p s, (p, s) ∈ scores gs ->
     exists z, s = Num z /\ 0 <= z /\ (_status r = playing -> z < WINNING_SCORE)) /\
  (forall p, p ∈ room_players r ->
     exists z, scores_get p (scores gs) = Some (Num z) /\ 0 <= z).
Proof.
  intros Hreach Hr Hgs. pose proof (reachable_Inv w Hreach) as HI.
  destruct (ok_round _ (Inv_room w a r HI Hr) gs Hgs) as [_ _ Hs Hm _].
  rewrite Forall_forall in Hs. split.
  - intros p s Hin. destruct (Hs _ Hin) as (z & Hz & H0 & Hlt). exists z. auto.
  - intros p Hp. destruct (Hm p Hp) as [s Hget].
    destruct (Hs _ (scores_get_elem _ _ _ Hget)) as (z & Hz & H0 & _).
    cbn in Hz. subst s. eauto.
Qed.

Lemma scores_are_numbers_witness :
  exists z, scores_get "pB" (scores (the_round game_late "r1")) = Some (Num z) /\ 0 <= z.
Proof.
  apply (scores_are_numbers game_late "r1" (the_room game_late "r1"));
    [apply game_late_reachable | reflexivity | reflexivity | compute_done].
Defined.

(** X5.  In every reachable world the countdown of a round is between 0
    and 60, the index of the drawer is a number from -1 on, and while the
    room's interval is armed the countdown is at least 1. *)
Theorem countdown_in_range w a r gs :
  reachable w -> roomObjs w !! a = Some r -> gameState r = Some gs ->
  0 <= timer gs <= 60 /\
  (exists i, currentPlayerIndex gs = Num i /\ -1 <= i) /\
  (forall h, (h, a) ∈ intervals w -> 1 <= timer gs).
Proof.
  intros Hreach Hr Hgs. pose proof (reachable_Inv w Hreach) as HI.
  destruct (ok_round _ (Inv_room w a r HI Hr) gs Hgs) as [Hi Ht _ _ _].
  split; [exact Ht|]. split; [exact Hi|].
  intros h Hin. apply (base_armed _ (inv_base _ HI) a r gs); auto. now exists h.
Qed.

Lemma countdown_in_range_witness :
  0 <= timer (the_round round_over "r1") <= 60.
Proof.
  apply (countdown_in_range round_over "r1" (the_room round_over "r1"));
    [apply round_over_reachable | reflexivity | reflexivity].
Defined.

(** X6.  In every reachable world an armed interval belongs to a room
    object whose [timerInterval] is its handle, its handle was issued
    before, and no room has two armed intervals. *)
Theorem one_interval_per_room w h a :
  reachable w -> (h, a) ∈ intervals w ->
  (h < nextHandle w)%nat /\
  (exists r, roomObjs w !! a = Some r /\ timerInterval r = Some h) /\
  (forall h', (h', a) ∈ intervals w -> h' = h) /\
  NoDup (intervals w).
Proof.
  intros Hreach Hin. pose proof (reachable_Inv w Hreach) as HI.
  destruct (base_intervals _ (inv_base _ HI) h a Hin) as (Hlt & r & Hr & Ht).
  split; [exact Hlt|]. split; [eauto|]. split; [|apply HI].
  intros h' Hin'.
  destruct (base_intervals _ (inv_base _ HI) h' a Hin') as (_ & r' & Hr' & Ht').
  congruence.
Qed.

Lemma one_interval_per_room_witness :
  exists r, roomObjs game_late !! "r1" = Some r /\ timerInterval r = Some 10%nat.
Proof.
  apply (one_interval_per_room game_late 10 "r1");
    [apply game_late_reachable | compute_done].
Defined.

(** X7.  In every reachable world no chat history is longer than 100
    messages. *)
Theorem chat_history_bounded w a l :
  reachable w -> roomChatHistory w !! a = Some l -> (length l <= 100)%nat.
Proof. intros Hreach. apply (reachable_Inv w Hreach). Qed.

Lemma chat_history_bounded_witness :
  (length (default [] (roomChatHistory game_late !! "r1")) <= 100)%nat.
Proof.
  apply (chat_history_bounded game_late "r1"); [apply game_late_reachable | reflexivity].
Defined.

Lemma registered_length w :
  (forall a, a ∈ rooms w -> is_Some (roomObjs w !! a)) ->
  length (registered w) = length (rooms w).
Proof.
  unfold registered. induction (rooms w) as [|a l IH]; intros H; [reflexivity|].
  cbn [omap list_omap]. destruct (H a) as [r Hr]; [by left|].
  rewrite Hr. cbn [fmap option_fmap option_map length]. f_equal.
  apply IH. intros b Hb. apply H. by right.
Qed.

Lemma status_partition (l : list (string * GameRoom)) :
  (length (filter (fun e => bool_decide (_status (snd e) = waiting)) l)
   + length (filter (fun e => bool_decide (_status (snd e) = playing)) l)
   + length (filter (fun e => bool_decide (_status (snd e) = finished)) l))%nat
  = length l.
Proof.
  induction l as [|[a r] l IH]; [reflexivity|].
  rewrite !filter_cons. cbn [snd].
  destruct (_status r); repeat case_decide;
    repeat match goal with
    | H : Is_true (bool_decide _) |- _ => apply bool_decide_unpack in H
    | H : ~ Is_true (bool_decide _) |- _ => rewrite bool_decide_spec in H
    end; try done; cbn [length]; lia.
Qed.

(** X8.  In every reachable world the cached [roomStatistics] are the
    ones [getRoomStatistics] would recompute: [total] is the number of
    registered rooms and the sum of the three status counters. *)
Theorem statistics_agree_with_registry w :
  reachable w ->
  roomStatistics w = recount w /\
  total (roomStatistics w) = Z.of_nat (length (rooms w)) /\
  total (roomStatistics w)
  = n_waiting (roomStatistics w) + n_playing (roomStatistics w)
    + n_finished (roomStatistics w).
Proof.
  intros Hreach. pose proof (reachable_Inv w Hreach) as HI.
  rewrite (inv_statistics _ HI). split; [reflexivity|]. split; [reflexivity|].
  cbn. unfold count_status.
  rewrite <- (registered_length w) by apply HI.
  rewrite <- (status_partition (registered w)). lia.
Qed.



(** X10.  A pending [setTimeout] continuation of a reachable world
    refers to a room object.  When it fires, it throws a [TypeError] if
    that room has no [gameState] (the timeout has then left the pending
    list and nothing else changed), and otherwise [startNewRound]
    returns. *)
Theorem timeout_throws_iff_no_gameState w position room rnd :
  reachable w -> timeouts w !! position = Some room ->
  exists r, roomObjs w !! room = Some r /\
    match gameState r with
    | None =>
        react (on_timeout position room rnd) w
        = Throw (TypeError "Cannot read properties of null")
                (set_timeouts (delete position (timeouts w)) w)
    | Some gs =>
        exists w', react (on_timeout position room rnd) w = Ret tt w' /\
                   reachable w'
    end.
Proof.
  intros Hreach Hen. pose proof (reachable_Inv w Hreach) as HI.
  assert (room ∈ timeouts w) as Hin by (eapply list_elem_of_lookup_2; exact Hen).
  destruct (base_timeouts _ (inv_base _ HI) room Hin) as [r Hr].
  exists r. split; [exact Hr|]. cbn [react]. rewrite bind_modify.
  set (w1 := set_timeouts _ w).
  assert (Inv w1) as HI1.
  { apply Inv_timeouts; [exact HI|]. intros a Ha.
    apply (base_timeouts _ (inv_base _ HI)).
    eapply elem_of_sublist; [exact Ha | apply sublist_delete]. }
  pose proof (startNewRound_inv room rnd w1 r HI1 Hr) as Hround.
  destruct (gameState r) as [gs|] eqn:Hgs; [|exact Hround].
  destruct Hround as (w2 & Hrun & HI2). exists w2. split; [exact Hrun|].
  apply (reachable_step w (on_timeout position room rnd) w2 Hreach). split; [exact Hen|].
  cbn [react]. rewrite bind_modify. exact Hrun.
Qed.

Lemma timeout_throws_iff_no_gameState_witness :
  exists r, roomObjs reset_pending !! "r1" = Some r /\
    match gameState r with
    | None =>
        react (on_timeout 0%nat "r1" 0%nat) reset_pending
        = Throw (TypeError "Cannot read properties of null")
                (set_timeouts (delete 0%nat (timeouts reset_pending)) reset_pending)
    | Some gs =>
        exists w', react (on_timeout 0%nat "r1" 0%nat) reset_pending = Ret tt w' /\
                   reachable w'
    end.
Proof.
  apply (timeout_throws_iff_no_gameState reset_pending 0 "r1" 0);
    [apply reset_pending_reachable | reflexivity].
Defined.

(** ** The handlers from a reachable world *)

Lemma registered_elem w a r :
  (a, r) ∈ registered w <-> a ∈ rooms w /\ roomObjs w !! a = Some r.
Proof.
  unfold registered. rewrite list_elem_of_omap. split.
  - intros (b & Hb & Hf). destruct (roomObjs w !! b) as [r0|] eqn:E; [|done].
    cbn in Hf. injection Hf as <- <-. auto.
  - intros [Ha Hr]. exists a. split; [exact Ha|]. now rewrite Hr.
Qed.

Lemma listing_elem w p :
  p ∈ listing w <->
  exists a r, a ∈ rooms w /\ roomObjs w !! a = Some r /\ _status r = waiting /\
              p = serialize w a r.
Proof.
  unfold listing. rewrite list_elem_of_fmap. split.
  - intros ([a r] & -> & Hin). apply list_elem_of_filter in Hin as [Hw Hin].
    apply bool_decide_unpack in Hw. apply registered_elem in Hin as [Ha Hr].
    exists a, r. auto.
  - intros (a & r & Ha & Hr & Hw & ->). exists (a, r). split; [reflexivity|].
    apply list_elem_of_filter. split; [now apply bool_decide_pack|].
    now apply registered_elem.
Qed.

Lemma listing_ids w :
  map pr_id (listing w)
  = filter (fun a => bool_decide (_status <$> roomObjs w !! a = Some waiting)) (rooms w).
Proof.
  unfold listing, registered. induction (rooms w) as [|a l IH]; [reflexivity|].
  cbn [omap list_omap]. rewrite filter_cons.
  destruct (roomObjs w !! a) as [r|] eqn:Hr; cbn [fmap option_fmap option_map].
  - rewrite filter_cons. cbn [snd].
    destruct (decide (_status r = waiting)) as [Hs|Hs].
    + rewrite !decide_True by (apply bool_decide_pack; congruence).
      cbn [map fst serialize pr_id]. now f_equal.
    + rewrite !decide_False; [exact IH | ..];
        rewrite bool_decide_spec; congruence.
  - rewrite decide_False; [exact IH|]. rewrite bool_decide_spec. congruence.
Qed.

(** X11.  From a reachable world [getAvailableRooms] cleans nothing and
    changes nothing.  It returns the serialised registered rooms that are
    [waiting], and only those, in registry order; each has between 1 and
    8 players and a host name. *)
Theorem getAvailableRooms_lists_waiting_rooms w :
  reachable w ->
  exists l, getAvailableRooms w = Ret l w /\
    (forall p, p ∈ l <->
       exists a r, a ∈ rooms w /\ roomObjs w !! a = Some r /\ _status r = waiting /\
                   p = serialize w a r) /\
    (forall p, p ∈ l ->
       pr_status p = waiting /\ (1 <= pr_playerCount p <= 8)%nat /\
       pr_maxPlayers p = 8%nat /\ pr_host p <> None) /\
    map pr_id l
    = filter (fun a => bool_decide (_status <$> roomObjs w !! a = Some waiting)) (rooms w).
Proof.
  intros Hreach. pose proof (reachable_Inv w Hreach) as HI.
  exists (listing w). split; [apply getAvailableRooms_quiet, HI|].
  split; [apply listing_elem|]. split; [|apply listing_ids].
  intros p (a & r & Ha & Hr & Hw & ->)%listing_elem.
  pose proof (Inv_room w a r HI Hr) as Hok.
  destruct (inv_populated _ HI a Ha) as (r0 & Hr0 & Hne).
  assert (r0 = r) as -> by congruence.
  cbn [serialize pr_status pr_playerCount pr_maxPlayers pr_host].
  split; [exact Hw|]. split; [|split; [apply Hok|]].
  - split; [|apply Hok]. destruct (room_players r); [done | cbn; lia].
  - rewrite bool_decide_eq_true_2; [done|]. now apply (ok_host _ Hok).
Qed.

(** X12.  From a reachable world [get_rooms] and a new connection only
    send the caller one [room_list_updated] event with the list of
    [getAvailableRooms] and the statistics as they are (a connection also
    starts without a current player), and [broadcastGlobalRoomListUpdate]
    only sends the same event to everybody. *)
Theorem room_list_requests_are_read_only w sock :
  reachable w ->
  exists l, getAvailableRooms w = Ret l w /\
    handleGetRooms sock w
    = Ret tt (set_log (log w ++ [mkEmit (to_socket sock)
                                   (room_list_updated l (roomStatistics w))]) w) /\
    handleConnection sock w
    = Ret tt (set_log (log w ++ [mkEmit (to_socket sock)
                                   (room_list_updated l (roomStatistics w))])
                (set_currentPlayer (delete sock (currentPlayer w)) w)) /\
    broadcastGlobalRoomListUpdate w
    = Ret tt (set_log (log w ++ [mkEmit to_all
                                   (room_list_updated l (roomStatistics w))]) w).
Proof.
  intros Hreach. pose proof (reachable_Inv w Hreach) as HI.
  exists (listing w). split; [apply getAvailableRooms_quiet, HI|].
  pose proof (inv_statistics _ HI) as Hst. split; [|split].
  - unfold handleGetRooms. mrun (getAvailableRooms_quiet w (inv_populated _ HI)).
    mrun (getRoomStatistics_recount w). rewrite (Inv_stats w HI), Hst. reflexivity.
  - unfold handleConnection. rewrite bind_modify.
    set (w1 := set_currentPlayer _ w).
    assert (Inv w1) as HI1 by now apply Inv_currentPlayer.
    mrun (getAvailableRooms_quiet w1 (inv_populated _ HI1)).
    mrun (getRoomStatistics_recount w1). rewrite (Inv_stats w1 HI1), Hst. reflexivity.
  - rewrite (broadcastGlobalRoomListUpdate_quiet w (inv_populated _ HI)).
    unfold announce. rewrite (Inv_stats w HI), Hst. reflexivity.
Qed.

Lemma getAvailableRooms_lists_waiting_rooms_witness :
  exists l, getAvailableRooms lobby2 = Ret l lobby2 /\ map pr_id l = ["r1"].
Proof.
  destruct (getAvailableRooms_lists_waiting_rooms lobby2 lobby2_reachable)
    as (l & Hrun & _ & _ & Hids).
  exists l. split; [exact Hrun|]. rewrite Hids. reflexivity.
Defined.

Lemma room_list_requests_are_read_only_witness :
  exists l, getAvailableRooms game2 = Ret l game2 /\
    handleGetRooms 5%nat game2
    = Ret tt (set_log (log game2 ++ [mkEmit (to_socket 5%nat)
                                       (room_list_updated l (roomStatistics game2))])
                game2).
Proof.
  destruct (room_list_requests_are_read_only game2 5%nat game2_reachable)
    as (l & Hrun & Hget & _).
  exists l. split; assumption.
Defined.

Lemma after_leave_players playerId r :
  room_players (after_leave playerId r) = keys_delete playerId (room_players r).
Proof.
  unfold after_leave.
  destruct (keys_delete playerId (room_players r)) as [|x l] eqn:E;
    destruct (bool_decide (_status r = playing));
    destruct (bool_decide (host r = playerId));
    cbn [andb length Nat.leb Nat.eqb]; try destruct l; cbn;
    rewrite ?status_set_players; reflexivity.
Qed.

Lemma after_leave_host playerId r :
  host (after_leave playerId r)
  = match keys_delete playerId (room_players r) with
    | first :: _ => if bool_decide (host r = playerId) then first else host r
    | [] => host r
    end.
Proof.
  unfold after_leave.
  destruct (keys_delete playerId (room_players r)) as [|x l] eqn:E;
    destruct (bool_decide (_status r = playing));
    destruct (bool_decide (host r = playerId));
    cbn [andb length Nat.leb Nat.eqb]; try destruct l; cbn;
    rewrite ?status_set_host; reflexivity.
Qed.

Lemma keys_delete_not_elem k l : k ∉ keys_delete k l.
Proof.
  unfold keys_delete. intros Hin. apply list_elem_of_filter in Hin as [Hf _].
  rewrite bool_decide_eq_true_2 in Hf by reflexivity. done.
Qed.

(** X13.  When a member leaves, [removePlayer] takes exactly that
    player off the roster.  If the host left and somebody remains, the
    first remaining member is the new host; otherwise the host stays.  A
    room that keeps a member keeps its registration and has its host among
    the members. *)
Theorem leaving_host_hands_over w this r playerId :
  reachable w -> roomObjs w !! this = Some r -> playerId ∈ room_players r ->
  exists w' r', removePlayer this playerId w = Ret tt w' /\
    roomObjs w' !! this = Some r' /\
    room_players r' = keys_delete playerId (room_players r) /\
    (playerId ∉ room_players r') /\
    host r' = (match room_players r' with
               | first :: _ => if bool_decide (host r = playerId) then first else host r
               | [] => host r
               end) /\
    (room_players r' <> [] -> host r' ∈ room_players r' /\ rooms w' = rooms w).
Proof.
  intros Hreach Hr Hmem. pose proof (reachable_Inv w Hreach) as HI.
  destruct (removePlayer_result this playerId w r HI Hr Hmem)
    as (w' & post & Hrun & HI' & Hobj & Hrooms & _).
  exists w', (after_leave playerId r).
  split; [exact Hrun|]. split; [exact Hobj|].
  rewrite after_leave_players, after_leave_host.
  split; [reflexivity|]. split; [apply keys_delete_not_elem|]. split; [reflexivity|].
  intros Hne. split.
  - pose proof (ok_host _ (Inv_room w' this _ HI' Hobj)) as Hh.
    rewrite after_leave_players, after_leave_host in Hh. auto.
  - rewrite Hrooms. destruct (keys_delete playerId (room_players r)); [done | reflexivity].
Qed.

Lemma leaving_host_hands_over_witness :
  exists w' r', removePlayer "r1" "pA" lobby2 = Ret tt w' /\
    roomObjs w' !! "r1" = Some r' /\ room_players r' = ["pB"] /\ host r' = "pB".
Proof.
  destruct (leaving_host_hands_over lobby2 "r1" (the_room lobby2 "r1") "pA")
    as (w' & r' & Hrun & Hobj & Hroster & _ & Hhost & _);
    [apply lobby2_reachable | reflexivity | compute_done |].
  exists w', r'. split; [exact Hrun|]. split; [exact Hobj|].
  split; [exact Hroster|]. rewrite Hhost, Hroster. reflexivity.
Defined.

Lemma broadcast_events_elem w r payload p member :
  member ∈ room_players r -> playerObjs w !! member = Some p ->
  mkEmit (to_socket (socket p)) payload ∈ broadcast_events w r payload None.
Proof.
  intros Hin Hp. unfold broadcast_events. apply list_elem_of_fmap.
  exists (socket p). split; [reflexivity|]. unfold recipients.
  apply list_elem_of_omap. exists member. split; [exact Hin|]. now rewrite Hp.
Qed.

(** X14.  When one of the two players of a running game leaves, the
    game ends: the room is [finished] with the other player as its only
    member and host, the [gameState] is gone, no interval stays armed for
    the room, the room stays registered, and the player who remains is
    sent [game_ended_early] naming them. *)
Theorem leaving_a_two_player_game_ends_it w this r playerId other :
  reachable w -> roomObjs w !! this = Some r -> _status r = playing ->
  room_players r = [playerId; other] \/ room_players r = [other; playerId] ->
  exists w' r', removePlayer this playerId w = Ret tt w' /\
    roomObjs w' !! this = Some r' /\
    _status r' = finished /\ gameState r' = None /\
    room_players r' = [other] /\ host r' = other /\
    rooms w' = rooms w /\
    (forall h, (h, this) ∉ intervals w') /\
    (forall p, playerObjs w !! other = Some p ->
       mkEmit (to_socket (socket p)) (game_ended_early (Some other)) ∈ log w').
Proof.
  intros Hreach Hr Hst Hroster. pose proof (reachable_Inv w Hreach) as HI.
  pose proof (Inv_room w this r HI Hr) as Hok.
  assert (playerId <> other) as Hne.
  { pose proof (ok_nodup _ Hok) as Hnd. destruct Hroster as [E|E]; rewrite E in Hnd;
      apply NoDup_cons in Hnd as [Hnot _]; intros ->; apply Hnot; by left. }
  assert (playerId ∈ room_players r) as Hmem.
  { destruct Hroster as [-> | ->]; [by left | right; by left]. }
  assert (keys_delete playerId (room_players r) = [other]) as Hrest.
  { unfold keys_delete. destruct Hroster as [-> | ->];
      rewrite !filter_cons, filter_nil;
      rewrite ?(bool_decide_eq_true_2 (playerId = playerId)) by reflexivity;
      rewrite ?(bool_decide_eq_false_2 (other = playerId)) by congruence;
      reflexivity. }
  assert (host r = playerId \/ host r = other) as Hhost.
  { assert (host r ∈ room_players r) as Hh.
    { apply (ok_host _ Hok). intros E. rewrite E in Hmem. by apply elem_of_nil in Hmem. }
    destruct Hroster as [E|E]; rewrite E in Hh;
      apply elem_of_cons in Hh as [Hh|Hh%list_elem_of_singleton]; auto. }
  destruct (removePlayer_result this playerId w r HI Hr Hmem)
    as (w' & post & Hrun & HI' & Hobj & Hrooms & Hiv & _ & _ & _ & _ & _ & Hlog).
  exists w', (after_leave playerId r).
  split; [exact Hrun|]. split; [exact Hobj|].
  rewrite after_leave_players, after_leave_host, Hrest.
  rewrite Hrest in Hrooms, Hiv. cbn [length Nat.eqb Nat.leb] in Hrooms, Hiv.
  rewrite (bool_decide_eq_true_2 _ Hst) in Hiv. cbn [andb orb] in Hiv.
  assert (after_leave playerId r
          = with_gameState None (status_set finished
              (if bool_decide (host r = playerId)
               then with_host other (Some other)
                      (with_room_players [other] r)
               else with_room_players [other] r))) as Hshape.
  { unfold after_leave. rewrite Hrest, (bool_decide_eq_true_2 _ Hst). reflexivity. }
  split; [rewrite Hshape; cbn; apply status_set_status|].
  split; [rewrite Hshape; reflexivity|]. split; [reflexivity|].
  split; [case_bool_decide; [reflexivity | destruct Hhost; congruence]|].
  split; [exact Hrooms|]. split.
  - intros h Hin. apply (disarm_not_armed this r w (inv_base _ HI) Hr).
    exists h. now rewrite <- Hiv.
  - intros p Hp. rewrite Hlog.
    apply elem_of_app. right. apply elem_of_app. left.
    unfold leave_events. rewrite Hrest, (bool_decide_eq_true_2 _ Hst).
    cbn [length Nat.eqb Nat.leb andb head].
    rewrite !elem_of_app. right. right. right. right.
    apply (broadcast_events_elem w _ _ p other); [by left | exact Hp].
Qed.

Lemma leaving_a_two_player_game_ends_it_witness :
  exists w' r', removePlayer "r1" "pB" game2 = Ret tt w' /\
    roomObjs w' !! "r1" = Some r' /\ _status r' = finished /\ gameState r' = None /\
    room_players r' = ["pA"] /\ host r' = "pA".
Proof.
  destruct (leaving_a_two_player_game_ends_it game2 "r1" (the_room game2 "r1") "pB" "pA")
    as (w' & r' & Hrun & Hobj & Hst & Hgs & Hroster & Hhost & _);
    [apply game2_reachable | reflexivity | reflexivity | right; reflexivity |].
  exists w', r'. repeat split; assumption.
Defined.

(** X15.  When the only member of a room leaves, the room is released:
    it leaves the registry, its chat history is deleted, no interval stays
    armed for it, its object keeps no member, [gameState], [hostPlayer] or
    [timerInterval], and the statistics count the rooms that remain.
    Pending timeouts stay. *)
Theorem last_member_leaving_releases_room w this r playerId :
  reachable w -> roomObjs w !! this = Some r -> room_players r = [playerId] ->
  exists w' r', removePlayer this playerId w = Ret tt w' /\
    roomObjs w' !! this = Some r' /\
    room_players r' = [] /\ gameState r' = None /\ hostPlayer r' = None /\
    timerInterval r' = None /\ _status r' = _status r /\
    rooms w' = keys_delete this (rooms w) /\
    roomChatHistory w' = delete this (roomChatHistory w) /\
    (forall h, (h, this) ∉ intervals w') /\
    timeouts w' = timeouts w /\
    total (roomStatistics w') = Z.of_nat (length (rooms w')).
Proof.
  intros Hreach Hr Hroster. pose proof (reachable_Inv w Hreach) as HI.
  pose proof (Inv_room w this r HI Hr) as Hok.
  assert (playerId ∈ room_players r) as Hmem by (rewrite Hroster; by left).
  assert (keys_delete playerId (room_players r) = []) as Hrest.
  { unfold keys_delete. rewrite Hroster, filter_cons, filter_nil.
    now rewrite bool_decide_eq_true_2. }
  assert (_status r <> playing) as Hst.
  { intros Hp. destruct (ok_playing _ Hok Hp) as [H2 _]. rewrite Hroster in H2.
    cbn in H2. lia. }
  destruct (removePlayer_result this playerId w r HI Hr Hmem)
    as (w' & post & Hrun & HI' & Hobj & Hrooms & Hiv & Hch & Hto & _).
  rewrite Hrest in Hrooms, Hiv, Hch. cbn [length Nat.eqb Nat.leb] in Hrooms, Hiv, Hch.
  rewrite orb_true_r in Hiv.
  assert (after_leave playerId r = cleaned (with_room_players [] r)) as Hshape.
  { unfold after_leave. rewrite Hrest, (bool_decide_eq_false_2 _ Hst). reflexivity. }
  rewrite Hshape in Hobj.
  exists w', (cleaned (with_room_players [] r)).
  split; [exact Hrun|]. split; [exact Hobj|].
  repeat (split; [reflexivity|]).
  split; [exact Hrooms|]. split; [exact Hch|]. split.
  - intros h Hin. apply (disarm_not_armed this r w (inv_base _ HI) Hr).
    exists h. now rewrite <- Hiv.
  - split; [exact Hto|]. now rewrite (inv_statistics _ HI').
Qed.

Lemma last_member_leaving_releases_room_witness :
  exists w' r', removePlayer "r1" "pA" lobby1 = Ret tt w' /\
    roomObjs w' !! "r1" = Some r' /\ room_players r' = [] /\
    rooms w' = [] /\ roomChatHistory w' !! "r1" = None.
Proof.
  destruct (last_member_leaving_releases_room lobby1 "r1" (the_room lobby1 "r1") "pA")
    as (w' & r' & Hrun & Hobj & Hroster & _ & _ & _ & _ & Hrooms & Hch & _);
    [apply lobby1_reachable | reflexivity | reflexivity |].
  exists w', r'. split; [exact Hrun|]. split; [exact Hobj|]. split; [exact Hroster|].
  split; [rewrite Hrooms; reflexivity | rewrite Hch; apply lookup_delete_eq].
Defined.

(** X16.  A tick of an armed countdown never throws.  In a room that is
    [playing] it takes one second off a countdown of at least 1 and sends
    [timer_update] to the members; when that reaches 0 it also sends
    [round_ended] with the word, disarms the interval and queues one
    timeout.  In a room without [gameState] or not [playing] it only
    disarms the interval. *)
Theorem countdown_tick w h this :
  reachable w -> (h, this) ∈ intervals w ->
  exists r w', roomObjs w !! this = Some r /\ timerTick this w = Ret tt w' /\
    (forall gs, gameState r = Some gs -> _status r = playing ->
       1 <= timer gs /\
       roomObjs w' !! this
       = Some (with_gameState (Some (with_timer (timer gs - 1) gs)) r) /\
       (1 < timer gs ->
          intervals w' = intervals w /\ timeouts w' = timeouts w /\
          log w' = (log w ++ broadcast_events w r (timer_update (timer gs - 1)) None)%list) /\
       (timer gs = 1 ->
          (forall h', (h', this) ∉ intervals w') /\
          timeouts w' = (timeouts w ++ [this])%list /\
          log w' = (log w ++ broadcast_events w r (timer_update 0) None
                          ++ broadcast_events w r (round_ended (currentWord gs)) None)%list)) /\
    (gameState r = None \/ _status r <> playing ->
       w' = set_intervals (filter (fun e => negb (fst e =? h)%nat) (intervals w)) w /\
       (forall h', (h', this) ∉ intervals w')).
Proof.
  intros Hreach Hin. pose proof (reachable_Inv w Hreach) as HI.
  destruct (base_intervals _ (inv_base _ HI) h this Hin) as (_ & r & Hr & Hh).
  exists r. unfold timerTick. mrun (thisRoom_eq _ _ _ Hr).
  assert (Hclear : exists w', clearInterval (timerInterval r) w = Ret tt w' /\
            w' = set_intervals (filter (fun e => negb (fst e =? h)%nat) (intervals w)) w /\
            (forall h', (h', this) ∉ intervals w')).
  { rewrite clearInterval_disarm. eexists. split; [reflexivity|].
    split; [now rewrite Hh|]. intros h' Hin'.
    apply (disarm_not_armed this r w (inv_base _ HI) Hr). now exists h'. }
  destruct (gameState r) as [gs|] eqn:Hgs.
  2:{ destruct Hclear as (w' & Hrun & Hw'). exists w'. repeat split; try done; apply Hw'. }
  case_decide as Hp.
  2:{ destruct Hclear as (w' & Hrun & Hw'). exists w'. repeat split; try done; apply Hw'. }
  assert (1 <= timer gs) as Htimer.
  { eapply (base_armed _ (inv_base _ HI)); eauto. now exists h. }
  erewrite bind_eq; [|apply updGameState_eq; eauto].
  erewrite bind_eq; [|apply broadcastToRoom_eq; apply put_room_lookup].
  destruct (timer gs - 1 <=? 0) eqn:Hzero.
  - apply Z.leb_le in Hzero. assert (timer gs = 1) as Hone by lia.
    rewrite (bind_eq _ _ _ _ _ (clearInterval_disarm _ _)).
    unfold endRound.
    erewrite bind_eq; [|eapply thisGameState_eq; [apply put_room_lookup | reflexivity]].
    erewrite bind_eq; [|apply broadcastToRoom_eq; apply put_room_lookup].
    eexists. split; [exact Hr|]. split; [reflexivity|]. split; [|intros [?|?]; done].
    intros gs0 [= <-] _. split; [exact Htimer|].
    split; [wsimpl; apply lookup_insert_eq|]. split; [lia|]. intros _.
    split; [|split].
    + wsimpl. intros h' Hin'.
      apply (disarm_not_armed this r w (inv_base _ HI) Hr). now exists h'.
    + reflexivity.
    + wsimpl. rewrite Hone, <- app_assoc. reflexivity.
  - apply Z.leb_gt in Hzero.
    eexists. split; [exact Hr|]. split; [reflexivity|]. split; [|intros [?|?]; done].
    intros gs0 [= <-] _. split; [exact Htimer|].
    split; [wsimpl; apply lookup_insert_eq|]. split; [|lia]. intros _.
    repeat split.
Qed.

Lemma countdown_tick_witness :
  exists r w', roomObjs game2 !! "r1" = Some r /\ timerTick "r1" game2 = Ret tt w'.
Proof.
  destruct (countdown_tick game2 0 "r1") as (r & w' & Hr & Hrun & _);
    [apply game2_reachable | compute_done |].
  exists r, w'. split; assumption.
Defined.

(** X17.  [reset_game] from the host makes the room [waiting] without
    [gameState] and with the same members and host, and cancels no timer:
    the armed intervals and the pending timeouts are as before. *)
Theorem reset_keeps_timers w sock me this r :
  reachable w -> currentPlayer w !! sock = Some me -> roomOf w me = Some this ->
  roomObjs w !! this = Some r -> host r = me ->
  exists w' r', handleResetGame sock w = Ret tt w' /\
    roomObjs w' !! this = Some r' /\
    _status r' = waiting /\ gameState r' = None /\
    room_players r' = room_players r /\ host r' = host r /\
    timerInterval r' = timerInterval r /\
    rooms w' = rooms w /\ intervals w' = intervals w /\ timeouts w' = timeouts w.
Proof.
  intros Hreach Hme Hroom Hr Hhost. pose proof (reachable_Inv w Hreach) as HI.
  unfold handleResetGame. rewrite bind_gets. unfold id. rewrite Hme, Hroom.
  mrun (thisRoom_eq _ _ _ Hr). rewrite (bool_decide_eq_true_2 _ Hhost). cbn [negb].
  destruct (resetGame_inv this w r HI Hr)
    as (w' & Hrun & _ & Hobj & Hrooms & Hiv & Hto & _).
  exists w', (with_gameState None (status_set waiting r)).
  split; [exact Hrun|]. split; [exact Hobj|]. cbn.
  rewrite status_set_status, status_set_players, status_set_host, status_set_timerInterval.
  repeat split; assumption.
Qed.

Lemma reset_keeps_timers_witness :
  exists w' r', handleResetGame 1%nat game2 = Ret tt w' /\
    roomObjs w' !! "r1" = Some r' /\ _status r' = waiting /\ gameState r' = None /\
    intervals w' = [(0%nat, "r1")].
Proof.
  destruct (reset_keeps_timers game2 1%nat "pA" "r1" (the_room game2 "r1"))
    as (w' & r' & Hrun & Hobj & Hst & Hgs & _ & _ & _ & _ & Hiv & _);
    [apply game2_reachable | reflexivity ..|].
  exists w', r'. repeat split; assumption.
Defined.

Lemma last_drop {A} (l : list A) n : (n < length l)%nat -> last (drop n l) = last l.
Proof.
  revert n. induction l as [|a l IH]; intros n Hn; [cbn in Hn; lia|].
  destruct n as [|n]; [reflexivity|]. cbn [drop length] in *.
  rewrite IH by lia. destruct l; [cbn in Hn; lia | reflexivity].
Qed.

(** X18.  After [addChatMessage] the history that [getChatHistory]
    returns is the old one followed by the new message, cut to its last
    100 entries: the new message is last, the length is the smaller of 100
    and the old length plus one, and no other room's history, no room
    object and no event is touched. *)
Theorem chat_history_keeps_last_100 this sender message w :
  exists w' new, addChatMessage this sender message w = Ret tt w' /\
    getChatHistory this w' = Ret new w' /\
    new = drop (length (default [] (roomChatHistory w !! this)) + 1 - 100)
               (default [] (roomChatHistory w !! this) ++ [(sender, message)]) /\
    last new = Some (sender, message) /\
    length new = Nat.min 100 (length (default [] (roomChatHistory w !! this)) + 1) /\
    (forall a, a <> this -> roomChatHistory w' !! a = roomChatHistory w !! a) /\
    roomObjs w' = roomObjs w /\ log w' = log w.
Proof.
  set (old := default [] (roomChatHistory w !! this)).
  unfold addChatMessage, getChatHistory, modify, gets.
  eexists _, _. split; [reflexivity|]. wsimpl. rewrite lookup_insert_eq. cbn [default].
  split; [reflexivity|]. fold old.
  assert (length (old ++ [(sender, message)]) = (length old + 1)%nat) as Hlen.
  { rewrite length_app. reflexivity. }
  rewrite Hlen.
  assert ((if (100 <? length old + 1)%nat
           then drop (length old + 1 - 100) (old ++ [(sender, message)])
           else old ++ [(sender, message)])%list
          = drop (length old + 1 - 100) (old ++ [(sender, message)])) as ->.
  { destruct (100 <? length old + 1)%nat eqn:E; [reflexivity|].
    apply Nat.ltb_ge in E. replace (length old + 1 - 100)%nat with 0%nat by lia.
    reflexivity. }
  split; [reflexivity|]. split; [|split; [|split; [|split; reflexivity]]].
  - unfold id. rewrite last_drop by (rewrite Hlen; lia). apply last_snoc.
  - unfold id. rewrite length_drop, Hlen. lia.
  - intros a Ha. now apply lookup_insert_ne.
Qed.

Lemma full_lobby_reachable : reachable full_lobby.
Proof.
  apply (run_steps_reachable
           [on_join_room 3%nat (Some "r1") (Some "Cleo") "pC";
            on_join_room 4%nat (Some "r1") (Some "Dan") "pD";
            on_join_room 5%nat (Some "r1") (Some "Eve") "pE";
            on_join_room 6%nat (Some "r1") (Some "Finn") "pF";
            on_join_room 7%nat (Some "r1") (Some "Gus") "pG";
            on_join_room 8%nat (Some "r1") (Some "Hal") "pH"] lobby2);
    [apply lobby2_reachable | vm_compute; reflexivity].
Qed.

(** X19.  [update_canvas] changes nothing and sends nothing unless the
    room is [playing] and the sender is the drawer of the round; then the
    canvas data is stored and [canvas_updated] goes to every member but
    the drawer. *)
Theorem only_drawer_updates_canvas w sock me this r data :
  currentPlayer w !! sock = Some me -> roomOf w me = Some this ->
  roomObjs w !! this = Some r ->
  (_status r <> playing -> handleUpdateCanvas sock data w = Ret tt w) /\
  (forall gs, _status r = playing -> gameState r = Some gs ->
     (drawingPlayerId gs <> Some me -> handleUpdateCanvas sock data w = Ret tt w) /\
     (drawingPlayerId gs = Some me ->
        handleUpdateCanvas sock data w
        = Ret tt (set_log (log w ++ map (fun s => mkEmit (to_socket s) (canvas_updated data))
                                      (recipients w r (Some me)))
                    (put_room this (with_gameState (Some (with_canvasData data gs)) r) w)))).
Proof.
  intros Hme Hroom Hr. unfold handleUpdateCanvas. rewrite bind_gets. unfold id.
  rewrite Hme, Hroom. mrun (thisRoom_eq _ _ _ Hr). split.
  - intros Hst. now rewrite (bool_decide_eq_false_2 _ Hst).
  - intros gs Hst Hgs. rewrite (bool_decide_eq_true_2 _ Hst).
    mrun (thisGameState_eq _ _ _ _ Hr Hgs). split.
    + intros Hd. rewrite bool_decide_eq_false_2 by congruence. reflexivity.
    + intros Hd. rewrite bool_decide_eq_true_2 by congruence.
      unfold updateCanvas. mrun (thisRoom_eq _ _ _ Hr). rewrite Hgs.
      erewrite bind_eq; [|apply updGameState_eq; eauto].
      erewrite broadcastToRoom_eq; [|apply put_room_lookup].
      rewrite Hd. reflexivity.
Qed.

Lemma only_drawer_updates_canvas_witness :
  handleUpdateCanvas 2%nat (Some "scribble") game2 = Ret tt game2.
Proof.
  destruct (only_drawer_updates_canvas game2 2%nat "pB" "r1" (the_room game2 "r1")
              (Some "scribble")) as [_ Hplay]; [reflexivity ..|].
  apply (Hplay (the_round game2 "r1")); [reflexivity | reflexivity | discriminate].
Defined.

(** X20.  A chat message in a room that is not [playing], or from the
    drawer of the round, or that does not match the word, is stored in the
    chat history and sent to every member of the room (the sender
    too), and nothing else happens: no score, timer or status changes. *)
Theorem message_relayed_without_scoring w sock me this r message :
  currentPlayer w !! sock = Some me -> roomOf w me = Some this ->
  roomObjs w !! this = Some r ->
  (_status r <> playing \/
   exists gs, gameState r = Some gs /\
     (drawingPlayerId gs = Some me \/
      exists word, currentWord gs = Some word /\ guess_matches message word = false)) ->
  exists w0, addChatMessage this me message w = Ret tt w0 /\
    handleSendMessage sock message w
    = Ret tt (set_log (log w ++ map (fun s => mkEmit (to_socket s)
                                       (chat_message (Some me) (inr message) kind_player))
                                  (recipients w r None)) w0).
Proof.
  intros Hme Hroom Hr Hcase. unfold handleSendMessage. rewrite bind_gets. unfold id.
  rewrite Hme, Hroom. unfold addChatMessage at 2. rewrite bind_modify.
  eexists. split; [reflexivity|].
  erewrite bind_eq; [|apply broadcastToRoom_eq; wsimpl; exact Hr].
  erewrite bind_eq; [|apply thisRoom_eq; wsimpl; exact Hr].
  destruct Hcase as [Hst | (gs & Hgs & Hcase)].
  - rewrite (bool_decide_eq_false_2 _ Hst). reflexivity.
  - case_bool_decide as Hst; [|reflexivity].
    erewrite bind_eq; [|eapply thisGameState_eq; [wsimpl; exact Hr | exact Hgs]].
    destruct Hcase as [Hd | (word & Hword & Hno)].
    + rewrite bool_decide_eq_true_2 by congruence. reflexivity.
    + case_bool_decide as Hd; [reflexivity|]. cbn [negb].
      unfold handleGuess. erewrite bind_eq; [|apply thisRoom_eq; wsimpl; exact Hr].
      rewrite (bool_decide_eq_true_2 _ Hst). cbn [negb].
      erewrite bind_eq; [|eapply thisGameState_eq; [wsimpl; exact Hr | exact Hgs]].
      rewrite (bool_decide_eq_false_2 _ Hd), Hword, Hno. reflexivity.
Qed.

Lemma message_relayed_without_scoring_witness :
  exists w0, addChatMessage "r1" "pA" "cat" game2 = Ret tt w0 /\
    handleSendMessage 1%nat "cat" game2
    = Ret tt (set_log (log game2 ++
                       map (fun s => mkEmit (to_socket s)
                                       (chat_message (Some "pA") (inr "cat") kind_player))
                           (recipients game2 (the_room game2 "r1") None)) w0).
Proof.
  apply (message_relayed_without_scoring game2 1%nat "pA" "r1" (the_room game2 "r1") "cat");
    [reflexivity .. |].
  right. exists (the_round game2 "r1"). split; [reflexivity|]. left. reflexivity.
Defined.

(** X21.  A request to join a waiting room that has eight members is
    answered with the error [Room is full] to the caller only, and no room
    changes.  The player record is nevertheless created and becomes the
    connection's current player, with its [room] set to the room that
    refused it. *)
Theorem join_full_room_rejected w sock roomId name playerId r :
  reachable w -> roomId ∈ rooms w -> roomObjs w !! roomId = Some r ->
  _status r = waiting -> length (room_players r) = 8%nat ->
  roomId <> "" -> name <> "" ->
  exists w', handleJoinRoom sock (Some roomId) (Some name) playerId w = Ret tt w' /\
    roomObjs w' = roomObjs w /\ rooms w' = rooms w /\
    roomStatistics w' = roomStatistics w /\
    log w' = (log w ++ [mkEmit (to_socket sock) (error "Room is full")])%list /\
    playerObjs w' !! playerId = Some (mkPlayer name sock (Some roomId)) /\
    currentPlayer w' !! sock = Some playerId /\
    playerId ∈ players w' /\
    roomOf w' playerId = Some roomId.
Proof.
  intros Hreach Hreg Hr Hst Hlen Hid Hname.
  pose proof (Inv_room w roomId r (reachable_Inv w Hreach) Hr) as Hok.
  rewrite (handleJoinRoom_full sock (Some roomId) (Some name) roomId name playerId w r);
    try assumption.
  - eexists. split; [reflexivity|]. wsimpl. repeat (split; [reflexivity|]).
    split; [apply lookup_insert_eq|]. split; [apply lookup_insert_eq|].
    split; [set_solver|].
    unfold roomOf. wsimpl. rewrite lookup_insert_eq. cbn.
    unfold rooms_get. wsimpl. now rewrite bool_decide_eq_true_2, Hr.
  - cbn. now rewrite decide_False.
  - cbn. now rewrite decide_False.
  - rewrite (ok_maxPlayers _ Hok), Hlen. lia.
Qed.

Lemma join_full_room_rejected_witness :
  exists w', handleJoinRoom 9%nat (Some "r1") (Some "Ivy") "pI" full_lobby = Ret tt w' /\
    roomObjs w' = roomObjs full_lobby /\
    log w' = (log full_lobby ++ [mkEmit (to_socket 9%nat) (error "Room is full")])%list /\
    roomOf w' "pI" = Some "r1".
Proof.
  destruct (join_full_room_rejected full_lobby 9%nat "r1" "Ivy" "pI"
              (the_room full_lobby "r1"))
    as (w' & Hrun & Hobjs & _ & _ & Hlog & _ & _ & _ & Hroom);
    [apply full_lobby_reachable | compute_done | reflexivity | reflexivity | reflexivity
    | discriminate | discriminate |].
  exists w'. repeat split; assumption.
Defined.

Lemma registered_snoc w w' a r :
  a ∉ rooms w -> rooms w' = (rooms w ++ [a])%list -> roomObjs w' !! a = Some r ->
  (forall b, b <> a -> roomObjs w' !! b = roomObjs w !! b) ->
  registered w' = (registered w ++ [(a, r)])%list.
Proof.
  intros Hfresh Hrooms Hr Hother. unfold registered. rewrite Hrooms, omap_app.
  cbn [omap list_omap]. rewrite Hr. cbn [fmap option_fmap option_map]. f_equal.
  clear Hrooms. induction (rooms w) as [|b l IH]; [reflexivity|].
  apply not_elem_of_cons in Hfresh as [Hne Hfresh].
  cbn [omap list_omap]. rewrite Hother by congruence. now rewrite IH.
Qed.

(** X22.  [create_room] with a name registers a new room last in the
    registry: [waiting], the creator its only member and host, the name and
    language defaulted when missing, an empty chat history; [total] and
    [waiting] go up by one; the creator is sent [player_joined] and
    [room_created], and everybody a room list that holds the new room. *)
Theorem create_room_registers w sock name roomName lang roomId playerId :
  reachable w -> roomObjs w !! roomId = None -> name <> "" ->
  exists w' r, handleCreateRoom sock (Some name) roomName lang roomId playerId w = Ret tt w' /\
    roomObjs w' !! roomId = Some r /\
    room_players r = [playerId] /\ host r = playerId /\ _status r = waiting /\
    gameState r = None /\ maxPlayers r = 8%nat /\
    room_name r = default (name ++ "'s room") (truthy roomName) /\
    language r = default "en" lang /\
    rooms w' = (rooms w ++ [roomId])%list /\
    roomChatHistory w' !! roomId = Some [] /\
    playerObjs w' !! playerId = Some (mkPlayer name sock (Some roomId)) /\
    currentPlayer w' !! sock = Some playerId /\
    total (roomStatistics w') = total (roomStatistics w) + 1 /\
    n_waiting (roomStatistics w') = n_waiting (roomStatistics w) + 1 /\
    exists l,
      log w'
      = (log w ++ [mkEmit (to_socket sock) (player_joined playerId [playerId] playerId);
                   mkEmit (to_socket sock) (room_created roomId playerId);
                   mkEmit to_all (room_list_updated l (roomStatistics w'))])%list /\
      roomId ∈ map pr_id l.
Proof.
  intros Hreach Hfresh Hname. pose proof (reachable_Inv w Hreach) as HI.
  assert (truthy (Some name) = Some name) as Htr by (cbn; now rewrite decide_False).
  destruct (handleCreateRoom_result sock (Some name) roomName lang roomId playerId name w
              HI Hfresh Htr)
    as (w' & Hrun & HI' & Hobj & Hother & Hrooms & Hch & Hme & _ & Hcp & _ & _ & _ & Hlog).
  assert (roomId ∉ rooms w) as Hnew.
  { intros Hin. destruct (inv_populated _ HI roomId Hin) as (r0 & Hr0 & _). congruence. }
  assert (rooms w' = (rooms w ++ [roomId])%list) as Hrooms'.
  { rewrite Hrooms. unfold keys_set. now rewrite bool_decide_eq_false_2. }
  eexists w', _. split; [exact Hrun|]. split; [exact Hobj|].
  repeat (split; [reflexivity|]). split; [exact Hrooms'|].
  split; [rewrite Hch; apply lookup_insert_eq|]. split; [exact Hme|].
  split; [rewrite Hcp; apply lookup_insert_eq|].
  rewrite (inv_statistics _ HI), (inv_statistics _ HI'). split; [|split].
  - cbn. rewrite Hrooms', length_app. cbn. lia.
  - cbn. unfold count_status.
    rewrite (registered_snoc w w' roomId _ Hnew Hrooms' Hobj Hother).
    rewrite filter_app, length_app. cbn.
    rewrite decide_True by now apply bool_decide_pack. cbn [length]. lia.
  - exists (listing w'). split; [exact Hlog|].
    rewrite listing_ids. apply list_elem_of_filter. split.
    + rewrite Hobj. now apply bool_decide_pack.
    + rewrite Hrooms'. apply elem_of_app. right. by left.
Qed.

Lemma create_room_registers_witness :
  exists w' r,
    handleCreateRoom 3%nat (Some "Cleo") None None "r2" "pC" lobby2 = Ret tt w' /\
    roomObjs w' !! "r2" = Some r /\ room_players r = ["pC"] /\ host r = "pC" /\
    rooms w' = ["r1"; "r2"].
Proof.
  destruct (create_room_registers lobby2 3%nat "Cleo" None None "r2" "pC")
    as (w' & r & Hrun & Hobj & Hroster & Hhost & _ & _ & _ & _ & _ & Hrooms & _);
    [apply lobby2_reachable | reflexivity | discriminate |].
  exists w', r. repeat split; assumption.
Defined.

(** X23.  A request to join a waiting room with a free place appends
    the new player to the roster and keeps host, status and statistics.
    Every member, the new one included, is sent [player_joined]; the
    caller then gets the chat history and [room_joined], and everybody the
    room list. *)
Theorem join_waiting_room_accepted w sock roomId name playerId r :
  reachable w -> roomId ∈ rooms w -> roomObjs w !! roomId = Some r ->
  _status r = waiting -> (length (room_players r) < 8)%nat ->
  playerId ∉ room_players r -> roomId <> "" -> name <> "" ->
  exists w' r', handleJoinRoom sock (Some roomId) (Some name) playerId w = Ret tt w' /\
    roomObjs w' !! roomId = Some r' /\
    room_players r' = (room_players r ++ [playerId])%list /\
    host r' = host r /\ _status r' = waiting /\ gameState r' = None /\
    rooms w' = rooms w /\
    playerObjs w' !! playerId = Some (mkPlayer name sock (Some roomId)) /\
    currentPlayer w' !! sock = Some playerId /\
    roomStatistics w' = roomStatistics w /\
    exists l,
      log w'
      = (log w ++ map (fun s => mkEmit (to_socket s)
                         (player_joined playerId (room_players r') (host r)))
                    (recipients w' r' None)
               ++ [mkEmit (to_socket sock)
                     (chat_history (default [] (roomChatHistory w !! roomId)));
                   mkEmit (to_socket sock)
                     (room_joined roomId playerId (room_players r') (host r));
                   mkEmit to_all (room_list_updated l (roomStatistics w'))])%list /\
      sock ∈ recipients w' r' None.
Proof.
  intros Hreach Hreg Hr Hst Hlen Hnew Hid Hname. pose proof (reachable_Inv w Hreach) as HI.
  pose proof (Inv_room w roomId r HI Hr) as Hok.
  assert (truthy (Some name) = Some name) as Htr by (cbn; now rewrite decide_False).
  assert (truthy (Some roomId) = Some roomId) as Htr' by (cbn; now rewrite decide_False).
  destruct (handleJoinRoom_joined sock (Some roomId) (Some name) roomId name playerId w r
              HI Htr' Htr Hreg Hr Hst)
    as (w' & Hrun & HI' & Hobj & Hother & Hrooms & Hch & Hme & _ & Hcp & _ & _ & _ & Hlog);
    [rewrite (ok_maxPlayers _ Hok); exact Hlen|].
  assert (keys_set playerId (room_players r) = (room_players r ++ [playerId])%list) as Hks.
  { unfold keys_set. now rewrite bool_decide_eq_false_2. }
  eexists w', _. split; [exact Hrun|]. split; [exact Hobj|].
  cbn [room_players with_room_players host _status gameState].
  split; [exact Hks|]. split; [reflexivity|]. split; [exact Hst|].
  split; [apply (ok_waiting _ Hok Hst)|]. split; [exact Hrooms|].
  split; [exact Hme|]. split; [rewrite Hcp; apply lookup_insert_eq|]. split.
  - rewrite (inv_statistics _ HI), (inv_statistics _ HI'). unfold recount.
    assert (Hcount : forall s, count_status s w' = count_status s w).
    { apply registered_status_ext; [exact Hrooms | |].
      - intros a r0 Hr0. destruct (decide (a = roomId)) as [->|Hne].
        + rewrite Hobj. eexists. split; [reflexivity|]. cbn. congruence.
        + rewrite (Hother a Hne). eauto.
      - intros a Hnone. destruct (decide (a = roomId)) as [->|Hne]; [congruence|].
        now rewrite (Hother a Hne). }
    now rewrite Hrooms, !Hcount.
  - exists (listing w'). split; [rewrite (inv_statistics _ HI'); exact Hlog|].
    unfold recipients. apply list_elem_of_omap. exists playerId. split.
    + cbn [room_players with_room_players]. rewrite Hks. apply elem_of_app. right. by left.
    + now rewrite Hme.
Qed.

Lemma join_waiting_room_accepted_witness :
  exists w' r', handleJoinRoom 3%nat (Some "r1") (Some "Cleo") "pC" lobby2 = Ret tt w' /\
    roomObjs w' !! "r1" = Some r' /\ room_players r' = ["pA"; "pB"; "pC"].
Proof.
  destruct (join_waiting_room_accepted lobby2 3%nat "r1" "Cleo" "pC" (the_room lobby2 "r1"))
    as (w' & r' & Hrun & Hobj & Hroster & _);
    [apply lobby2_reachable | compute_done | reflexivity | reflexivity | compute_done
    | compute_done | discriminate | discriminate |].
  exists w', r'. repeat split; assumption.
Defined.

(** X24.  In every reachable world the host of a room with members is
    the first member of its roster (the one who has been in the room
    longest), so [serialize] reports the host's name. *)
Theorem host_is_first_member w a r :
  reachable w -> roomObjs w !! a = Some r -> room_players r <> [] ->
  head (room_players r) = Some (host r) /\
  pr_host (serialize w a r) = Some (playerName w (host r)).
Proof.
  intros Hreach Hr Hne.
  pose proof (Inv_room w a r (reachable_Inv w Hreach) Hr) as Hok.
  split; [now apply (ok_first _ Hok)|].
  cbn. rewrite bool_decide_eq_true_2; [reflexivity|]. now apply (ok_host _ Hok).
Qed.

Lemma host_is_first_member_witness :
  head (room_players (the_room full_lobby "r1")) = Some (host (the_room full_lobby "r1")).
Proof.
  apply (host_is_first_member full_lobby "r1");
    [apply full_lobby_reachable | reflexivity | discriminate].
Defined.

(** X25.  In every reachable world the word history of a game holds no
    word twice; and when no word list is empty, every game has a current
    word. *)
Theorem word_history_has_no_repeats w a r gs :
  reachable w -> roomObjs w !! a = Some r -> gameState r = Some gs ->
  NoDup (usedWords gs) /\
  (english (wordLists w) <> [] -> swedish (wordLists w) <> [] ->
   exists word, currentWord gs = Some word).
Proof.
  intros Hreach Hr Hgs. pose proof (reachable_Inv w Hreach) as HI.
  split; [apply (ok_round _ (Inv_room w a r HI Hr) gs Hgs)|].
  intros Hen Hsv.
  pose proof (base_words _ (inv_base _ HI) (conj Hen Hsv) a r Hr gs Hgs) as Hw.
  destruct (currentWord gs) as [word|]; [eauto | done].
Qed.

Lemma word_history_has_no_repeats_witness :
  NoDup (usedWords (the_round game_late "r1")).
Proof.
  apply (word_history_has_no_repeats game_late "r1" (the_room game_late "r1"));
    [apply game_late_reachable | reflexivity | reflexivity].
Defined.



Lemma statistics_agree_with_registry_witness :
  total (roomStatistics game2) = Z.of_nat (length (rooms game2)).
Proof. apply (statistics_agree_with_registry game2), game2_reachable. Defined.

(** X27.  [leave_room] and a disconnect from a connection without a
    current player do nothing.  With one they run the same [removePlayer]
    and take the player out of [players]: the player is on the
    roster of their room no more; [leave_room] then also clears the
    connection's current player and answers [left_room]. *)
Theorem leaving_clears_the_connection w sock :
  reachable w ->
  match currentPlayer w !! sock with
  | None => handleLeaveRoom sock w = Ret tt w /\ handleDisconnect sock w = Ret tt w
  | Some me =>
      exists w1, handleDisconnect sock w = Ret tt w1 /\
        handleLeaveRoom sock w
        = Ret tt (set_log (log w1 ++ [mkEmit (to_socket sock) left_room])
                    (set_currentPlayer (delete sock (currentPlayer w1)) w1)) /\
        (me ∉ players w1) /\ currentPlayer w1 = currentPlayer w /\
        playerObjs w1 = playerObjs w /\
        (forall this r', roomOf w me = Some this -> roomObjs w1 !! this = Some r' ->
           me ∉ room_players r') /\
        (roomOf w me = None ->
           w1 = set_players (players w ∖ {[me]}) w)
  end.
Proof.
  intros Hreach. pose proof (reachable_Inv w Hreach) as HI.
  unfold handleLeaveRoom, handleDisconnect. rewrite !bind_gets. unfold id.
  destruct (currentPlayer w !! sock) as [me|]; [|split; reflexivity].
  destruct (roomOf w me) as [room|] eqn:Hroom.
  2:{ rewrite !bind_ret. eexists. split; [reflexivity|]. split; [reflexivity|].
      wsimpl.
      split; [intros [_ Hn]%elem_of_difference; apply Hn; by apply elem_of_singleton|].
      repeat (split; [reflexivity|]).
      split; [intros this r' Hx; discriminate Hx | reflexivity]. }
  apply roomOf_Some in Hroom as (Hreg & r & Hr).
  assert (exists w0, removePlayer room me w = Ret tt w0 /\
            currentPlayer w0 = currentPlayer w /\ playerObjs w0 = playerObjs w /\
            forall r', roomObjs w0 !! room = Some r' -> me ∉ room_players r')
    as (w0 & Hrun & Hcp & Hpo & Hout).
  { destruct (decide (me ∈ room_players r)) as [Hmem|Hno].
    - destruct (removePlayer_result room me w r HI Hr Hmem)
        as (w0 & post & Hrun & _ & Hobj & _ & _ & _ & _ & _ & Hpo & Hcp & _).
      exists w0. split; [exact Hrun|]. split; [exact Hcp|]. split; [exact Hpo|].
      intros r'. rewrite Hobj. intros [= <-]. rewrite after_leave_players.
      apply keys_delete_not_elem.
    - exists w. split; [|split; [reflexivity|split; [reflexivity|]]].
      + unfold removePlayer. mrun (thisRoom_eq _ _ _ Hr).
        now rewrite bool_decide_eq_false_2.
      + intros r'. rewrite Hr. now intros [= <-]. }
  rewrite !(bind_eq _ _ _ _ _ Hrun), !bind_modify.
  eexists. split; [reflexivity|]. split; [reflexivity|]. wsimpl.
  split; [intros [_ Hn]%elem_of_difference; apply Hn; by apply elem_of_singleton|].
  split; [exact Hcp|]. split; [exact Hpo|].
  split; [|intros Hx; discriminate Hx]. intros this r' [= <-]. apply Hout.
Qed.

Lemma leaving_clears_the_connection_witness :
  exists w1, handleDisconnect 2%nat game2 = Ret tt w1 /\
    handleLeaveRoom 2%nat game2
    = Ret tt (set_log (log w1 ++ [mkEmit (to_socket 2%nat) left_room])
                (set_currentPlayer (delete 2%nat (currentPlayer w1)) w1)).
Proof.
  destruct (leaving_clears_the_connection game2 2%nat game2_reachable)
    as (w1 & Hd & Hl & _).
  exists w1. split; assumption.
Defined.
